(** * UnoPass: vault codec, session manager, domain matching and unlock throttle

  A shallow embedding of the server core of UnoPass
  (server/src/crypto/vaultCrypto.ts, server/src/vaultService.ts,
  server/src/storage/vaultStorage.ts, server/src/utils/domain.ts,
  server/src/middleware/rateLimiter.ts) and the properties its
  specification states about it.

  JavaScript strings are modelled as [string] (sequences of 8-bit code
  units, enough for the ASCII domain names and base64 text the properties are
  about), [Buffer]s as lists of bytes, JavaScript numbers that hold
  millisecond clocks, counters and versions as [Z].  What Node.js and its
  libraries provide (scrypt, AES-256-GCM, HMAC-SHA256, base64, JSON, the
  WHATWG URL parser, [localeCompare]) is a type class of operations; the
  repository's own code is defined on top of it. *)

From Stdlib Require Import ZArith Ascii String List Bool Lia Sorted.
From stdpp Require Import base option list gmap strings pretty.

Local Open Scope Z_scope.

(** ** JavaScript string methods used by the code *)

Module Js.

Definition lower_ascii (c : ascii) : ascii :=
  let n := nat_of_ascii c in
  if ((65 <=? n) && (n <=? 90))%nat then ascii_of_nat (n + 32) else c.

(** [String.prototype.toLowerCase] on the ASCII range. *)
Fixpoint toLowerCase (s : string) : string :=
  match s with
  | EmptyString => EmptyString
  | String c s' => String (lower_ascii c) (toLowerCase s')
  end.

Fixpoint trimStart (s : string) : string :=
  match s with
  | String c s' => if Ascii.is_space c then trimStart s' else s
  | EmptyString => EmptyString
  end.

(** [String.prototype.trim]: white space removed at both ends. *)
Definition trim (s : string) : string :=
  String.rev (trimStart (String.rev (trimStart s))).

(** [s.startsWith(p)]. *)
Definition startsWith (s p : string) : bool := String.prefix p s.

(** [s.endsWith(suffix)]: with [start = length s - length suffix], false
    when [start] is negative, and otherwise the comparison of the
    substring from [start] with [suffix]. *)
Definition endsWith (s suffix : string) : bool :=
  let n := String.length s in
  let m := String.length suffix in
  if (m <=? n)%nat
  then String.eqb (String.substring (n - m) m s) suffix
  else false.

(** [s.includes(sub)]: [sub] occurs at some position of [s]. *)
Fixpoint includes (s sub : string) : bool :=
  String.prefix sub s
  || match s with
     | EmptyString => false
     | String _ s' => includes s' sub
     end.

(** [s.replace(/^www\./, '')]. *)
Definition strip_www (s : string) : string :=
  if startsWith s "www."
  then String.substring 4 (String.length s - 4) s
  else s.

(** JavaScript truthiness of a string: non-empty. *)
Definition truthy (s : string) : bool :=
  match s with EmptyString => false | _ => true end.

End Js.

(** ** Data model (server/src/types.ts) *)

Definition Buffer := list Byte.byte.

#[global] Instance byte_eq_decision : EqDecision Byte.byte := Byte.byte_eq_dec.

Record VaultEntry := {
  id : string;
  site : string;
  domain : string;
  username : string;
  password : string;
  notes : option string;
  createdAt : string;
  updatedAt : string
}.

(** The vault of a session.  [unlock] creates it as [{ entries: [] }] or
    takes it from [JSON.parse(plaintext) as VaultData], a cast that nothing
    checks.  [NoEntries] is a parsed value on which reading
    [.entries.length], or calling a method of [.entries], throws a
    TypeError: null, or a number, a boolean, a string or an object without
    a property [entries].  Every other parsed value is taken to be of the
    declared type. *)
Inductive VaultData :=
| Build_VaultData (entries : list VaultEntry)
| NoEntries.

(** The entries of a vault that has them. *)
Definition entries (d : VaultData) : list VaultEntry :=
  match d with
  | Build_VaultData l => l
  | NoEntries => []
  end.

Record KdfParams := {
  salt : string;
  kdf_N : Z;
  kdf_r : Z;
  kdf_p : Z;
  keyLength : Z
}.

Record CipherPayload := {
  iv : string;
  data : string;
  authTag : string
}.

Record VaultFile := {
  version : Z;
  kdf : KdfParams;
  cipher : CipherPayload;
  hmac : option string
}.

Record SessionData := {
  token : string;
  key : Buffer;
  s_kdf : KdfParams;
  vault : VaultData;
  lastActivity : Z
}.

#[global] Instance VaultEntry_eq_dec : EqDecision VaultEntry.
Proof. solve_decision. Defined.

#[global] Instance VaultData_eq_dec : EqDecision VaultData.
Proof. solve_decision. Defined.

#[global] Instance KdfParams_eq_dec : EqDecision KdfParams.
Proof. solve_decision. Defined.

#[global] Instance CipherPayload_eq_dec : EqDecision CipherPayload.
Proof. solve_decision. Defined.

#[global] Instance VaultFile_eq_dec : EqDecision VaultFile.
Proof. solve_decision. Defined.

(** ** The platform: what Node.js and its libraries compute *)

Class Platform := {
  (** [new URL(s).hostname]; [None] when the constructor throws. *)
  url_hostname : string -> option string;
  (** [a.localeCompare(b)]: negative, zero or positive. *)
  localeCompare : string -> string -> Z;
  (** [new Date(ms).toISOString()]. *)
  toISOString : Z -> string;
  (** [crypto.scrypt(password, salt, keylen, {N, r, p, maxmem})]; [None]
      when the callback receives an error. *)
  scrypt : string -> Buffer -> Z -> Z -> Z -> Z -> Z -> option Buffer;
  (** AES-256-GCM under a key and an iv: ciphertext and authentication
      tag; [None] when [createCipheriv] throws. *)
  gcm_encrypt : Buffer -> Buffer -> string -> option (Buffer * Buffer);
  (** AES-256-GCM decryption given key, iv, authTag and ciphertext; [None]
      when [createDecipheriv], [setAuthTag], [update] or [final] throws. *)
  gcm_decrypt : Buffer -> Buffer -> Buffer -> Buffer -> option string;
  (** [createHmac('sha256', key).update(msg).digest()]. *)
  hmac_sha256 : Buffer -> string -> Buffer;
  (** [buf.toString('base64')] and [Buffer.from(s, 'base64')]. *)
  base64_encode : Buffer -> string;
  base64_decode : string -> Buffer;
  (** [JSON.stringify] and [JSON.parse] of the vault; [None] when
      [JSON.parse] throws. *)
  stringify_data : VaultData -> string;
  parse_data : string -> option VaultData;
  (** [JSON.stringify({version, kdf, cipher})], the text the MAC covers. *)
  stringify_header : Z -> KdfParams -> CipherPayload -> string;
  (** [JSON.stringify] and [JSON.parse] at the type [VaultFile]. *)
  stringify_file : VaultFile -> string;
  parse_file : string -> option VaultFile
}.

(** ** Errors

    The code throws plain [Error]s told apart by their message, and lets
    the exceptions of the platform pass.  [LOCKED], [INVALID_SESSION],
    [NO_VAULT] and [NOT_FOUND] are the messages of vaultService.ts; the two
    integrity failures are the two messages of [decryptVaultWithKey]
    ("HMAC missing for version 2+ vault", "file may have been tampered
    with"); [AuthenticationError] is the exception of the AES-GCM decipher,
    [EncryptionError] the one of the cipher; [DerivationError] the one of
    scrypt; [SyntaxError] the one of [JSON.parse]; [IOError] any rejection
    of [fs]; [TypeError] the one of reading a property of [undefined] or
    [null]. *)

Inductive IntegrityReason := HmacMissing | HmacMismatch.

Inductive Error :=
| LOCKED
| INVALID_SESSION
| NO_VAULT
| NOT_FOUND
| IntegrityError (why : IntegrityReason)
| AuthenticationError
| EncryptionError
| DerivationError
| SyntaxError
| IOError
| TypeError.

(** A thrown exception is [inl], a returned value [inr]. *)
Definition Result (A : Type) : Type := (Error + A)%type.

(** The value of a result, if it is one. *)
Definition returned {A} (r : Result A) : option A :=
  match r with
  | inr a => Some a
  | inl _ => None
  end.

(** ** Calls into the crypto library, in the order they happen

    The codec is written in a small writer-and-error monad: a computation
    yields the list of platform calls it made and either the exception that
    stopped it or its value. *)

Inductive Call := CallScrypt | CallGcmEncrypt | CallGcmDecrypt | CallHmac | CallJsonParse.

Definition Eff (A : Type) : Type := (list Call * Result A)%type.

Definition ret {A} (a : A) : Eff A := ([], inr a).

Definition throw {A} (e : Error) : Eff A := ([], inl e).

Definition call (c : Call) : Eff unit := ([c], inr tt).

Definition bind {A B} (m : Eff A) (f : A -> Eff B) : Eff B :=
  match m with
  | (t, inl e) => (t, inl e)
  | (t, inr a) => (t ++ fst (f a), snd (f a))
  end.

Notation "'let*' x ':=' m 'in' k" := (bind m (fun x => k))
  (at level 10, x name, m at level 100, k at level 200).

Definition trace {A} (m : Eff A) : list Call := fst m.

Definition outcome {A} (m : Eff A) : Result A := snd m.

(** ** server/src/crypto/vaultCrypto.ts *)

Section VaultCrypto.
Context `{Platform}.

Definition DEFAULT_KDF_N : Z := 2 ^ 16.
Definition DEFAULT_KDF_r : Z := 8.
Definition DEFAULT_KDF_p : Z := 1.
Definition DEFAULT_KDF_keyLength : Z := 32.

(** [rand16] is the result of [crypto.randomBytes(16)]. *)
Definition generateKdfParams (rand16 : Buffer) : KdfParams :=
  {| salt := base64_encode rand16;
     kdf_N := DEFAULT_KDF_N;
     kdf_r := DEFAULT_KDF_r;
     kdf_p := DEFAULT_KDF_p;
     keyLength := DEFAULT_KDF_keyLength |}.

Definition maxmem : Z := 128 * 1024 * 1024.

Definition deriveKey (masterPassword : string) (params : KdfParams) : Eff Buffer :=
  let* _ := call CallScrypt in
  match scrypt masterPassword (base64_decode (salt params)) (keyLength params)
               (kdf_N params) (kdf_r params) (kdf_p params) maxmem with
  | Some k => ret k
  | None => throw DerivationError
  end.

(** [rand12] is the result of [crypto.randomBytes(12)]. *)
Definition encryptPayload (rand12 : Buffer) (text : string) (k : Buffer) : Eff CipherPayload :=
  let* _ := call CallGcmEncrypt in
  match gcm_encrypt k rand12 text with
  | Some (encrypted, tag) =>
      ret {| iv := base64_encode rand12;
             data := base64_encode encrypted;
             authTag := base64_encode tag |}
  | None => throw EncryptionError
  end.

Definition decryptPayload (payload : CipherPayload) (k : Buffer) : Eff string :=
  let* _ := call CallGcmDecrypt in
  match gcm_decrypt k (base64_decode (iv payload))
                    (base64_decode (authTag payload))
                    (base64_decode (data payload)) with
  | Some plaintext => ret plaintext
  | None => throw AuthenticationError
  end.

Definition computeHMAC (v : Z) (params : KdfParams) (payload : CipherPayload)
    (k : Buffer) : Eff string :=
  let* _ := call CallHmac in
  ret (base64_encode (hmac_sha256 k (stringify_header v params payload))).

Definition encryptVaultWithKey (rand12 : Buffer) (d : VaultData) (k : Buffer)
    (params : KdfParams) : Eff VaultFile :=
  let* payload := encryptPayload rand12 (stringify_data d) k in
  let* mac := computeHMAC 2 params payload k in
  ret {| version := 2; kdf := params; cipher := payload; hmac := Some mac |}.

Definition encryptVault (rand16 rand12 : Buffer) (d : VaultData)
    (masterPassword : string) : Eff (VaultFile * Buffer) :=
  let params := generateKdfParams rand16 in
  let* k := deriveKey masterPassword params in
  let* file := encryptVaultWithKey rand12 d k params in
  ret (file, k).

(** [!vault.hmac]: the field is absent, or the empty string. *)
Definition hmac_falsy (f : VaultFile) : bool :=
  match hmac f with
  | Some h => negb (Js.truthy h)
  | None => true
  end.

(** The guard of [decryptVaultWithKey] for version 2 and later. *)
Definition verifyIntegrity (f : VaultFile) (k : Buffer) : Eff unit :=
  if 2 <=? version f then
    if hmac_falsy f then throw (IntegrityError HmacMissing)
    else
      let* expectedHmac := computeHMAC (version f) (kdf f) (cipher f) k in
      if bool_decide (hmac f = Some expectedHmac) then ret tt
      else throw (IntegrityError HmacMismatch)
  else ret tt.

Definition decryptVaultWithKey (f : VaultFile) (k : Buffer) : Eff VaultData :=
  let* _ := verifyIntegrity f k in
  let* plaintext := decryptPayload (cipher f) k in
  let* _ := call CallJsonParse in
  match parse_data plaintext with
  | Some d => ret d
  | None => throw SyntaxError
  end.

Definition decryptVault (f : VaultFile) (masterPassword : string)
    : Eff (VaultData * Buffer * KdfParams) :=
  let* k := deriveKey masterPassword (kdf f) in
  let* d := decryptVaultWithKey f k in
  ret (d, k, kdf f).

End VaultCrypto.

(** ** server/src/utils/domain.ts *)

Section Domain.
Context `{Platform}.

Definition normalizeDomain (input : string) : string :=
  let formatted :=
    if Js.includes input "://" then input else "https://" +:+ input in
  match url_hostname formatted with
  | Some hostname => Js.toLowerCase (Js.strip_www hostname)
  | None => Js.toLowerCase (Js.trim input)
  end.

Definition domainMatches (entryDomain targetDomain : string) : bool :=
  let cleanEntry := normalizeDomain entryDomain in
  let cleanTarget := normalizeDomain targetDomain in
  String.eqb cleanTarget cleanEntry
  || Js.endsWith cleanTarget ("." +:+ cleanEntry).

End Domain.

(** A target is a dot-boundary subdomain of an entry domain when it is the
    entry domain with something and a dot in front; it is then strictly
    longer than the entry domain. *)
Definition dot_subdomain (target entry : string) : Prop :=
  exists sub, target = sub +:+ "." +:+ entry.

(** *** What normalisation relies on the URL parser for

    [new URL] is the parser of the platform.  What [normalizeDomain] needs
    of it is stated for the plainest inputs: an http or https URL whose
    host is made of labels of ASCII letters separated by single dots, and
    is followed by nothing or by a path, a query or a fragment.  The
    hostname of such a URL is the host in lower case. *)







(** ** server/src/storage/vaultStorage.ts

    The disk holds the text at [VAULT_PATH] and the text at the temporary
    path next to it.  Which [fs] call of an operation rejects, if any, is an
    input of the model. *)

Record Disk := {
  vault_path : option string;
  tmp_path : option string
}.

Inductive FsFault :=
| NoFault
| FailAccess
| FailReadFile
| FailMkdir
| FailWriteFile
| FailRename
| FailChmod.

Section VaultStorage.
Context `{Platform}.

Definition vaultExists (fault : FsFault) (d : Disk) : bool :=
  match fault with
  | FailAccess => false
  | _ => bool_decide (is_Some (vault_path d))
  end.

Definition readVaultFile (fault : FsFault) (d : Disk) : Result VaultFile :=
  match fault with
  | FailReadFile => inl IOError
  | _ =>
      match vault_path d with
      | None => inl IOError
      | Some raw =>
          match parse_file raw with
          | Some f => inr f
          | None => inl SyntaxError
          end
      end
  end.

(** [mkdir], [writeFile] to the temporary path, [rename] over the target,
    [chmod] of the target; the first call that rejects ends the write.  A
    [writeFile] that rejects is taken to leave the temporary path as it
    was; a [chmod] that rejects comes after the rename, so the target
    already holds the new text. *)
Definition writeVaultFile (fault : FsFault) (f : VaultFile) (d : Disk)
    : Disk * Result unit :=
  let text := stringify_file f in
  match fault with
  | FailMkdir => (d, inl IOError)
  | FailWriteFile => (d, inl IOError)
  | FailRename =>
      ({| vault_path := vault_path d; tmp_path := Some text |}, inl IOError)
  | FailChmod =>
      ({| vault_path := Some text; tmp_path := None |}, inl IOError)
  | _ => ({| vault_path := Some text; tmp_path := None |}, inr tt)
  end.

End VaultStorage.

(** ** server/src/vaultService.ts

    The service object holds the session and the pending auto-lock timer
    (modelled by the time at which it fires).  An operation reads the clock,
    the uuid generator, the random generator and the file system: these are
    its [Env].  Operations are written in a state-and-error monad over the
    service and the disk; a thrown exception keeps the state reached so far,
    as in the code. *)

Record VaultService := {
  lockTimeoutMs : Z;
  session : option SessionData;
  lockTimer : option Z
}.

Record World := {
  service : VaultService;
  disk : Disk
}.

Record Env := {
  now : Z;
  uuid : string;
  rand16 : Buffer;
  rand12 : Buffer;
  fault : FsFault
}.

(** The body of a POST /api/entries request. *)
Record EntryPayload := {
  p_site : string;
  p_domain : string;
  p_username : string;
  p_password : string;
  p_notes : option string
}.

(** The body of a PUT /api/entries/:id request: the fields present.  The
    declared type has the first five; the body is not checked against it,
    so it may carry [id] and [createdAt] as well. *)
Record EntryPatch := {
  u_site : option string;
  u_domain : option string;
  u_username : option string;
  u_password : option string;
  u_notes : option string;
  u_id : option string;
  u_createdAt : option string
}.

Record UnlockResult := {
  created : bool;
  r_token : string;
  r_entries : Z
}.

Record Status := {
  locked : bool;
  entryCount : Z;
  st_lastActivity : option Z
}.

Definition M (A : Type) : Type := World -> World * Result A.

Definition retM {A} (a : A) : M A := fun w => (w, inr a).

Definition throwM {A} (e : Error) : M A := fun w => (w, inl e).

Definition bindM {A B} (m : M A) (f : A -> M B) : M B :=
  fun w =>
    match m w with
    | (w', inl e) => (w', inl e)
    | (w', inr a) => f a w'
    end.

Notation "'let!' x ':=' m 'in' k" := (bindM m (fun x => k))
  (at level 10, x name, m at level 100, k at level 200).

(** A codec computation run inside an operation: its exception or value. *)
Definition liftEff {A} (m : Eff A) : M A := fun w => (w, outcome m).

Definition getService : M VaultService := fun w => (w, inr (service w)).

Definition putService (s : VaultService) : M unit :=
  fun w => ({| service := s; disk := disk w |}, inr tt).

Definition onDisk {A} (f : Disk -> Disk * Result A) : M A :=
  fun w =>
    let '(d, r) := f (disk w) in
    ({| service := service w; disk := d |}, r).

Definition set_session (s : option SessionData) (svc : VaultService) : VaultService :=
  {| lockTimeoutMs := lockTimeoutMs svc; session := s; lockTimer := lockTimer svc |}.

Definition set_lockTimer (t : option Z) (svc : VaultService) : VaultService :=
  {| lockTimeoutMs := lockTimeoutMs svc; session := session svc; lockTimer := t |}.

Definition set_lastActivity (t : Z) (s : SessionData) : SessionData :=
  {| token := token s; key := key s; s_kdf := s_kdf s; vault := vault s;
     lastActivity := t |}.

Definition set_vault (v : VaultData) (s : SessionData) : SessionData :=
  {| token := token s; key := key s; s_kdf := s_kdf s; vault := v;
     lastActivity := lastActivity s |}.

(** The constructor; [LOCK_TIMEOUT_MS] defaults to ten minutes. *)
Definition newVaultService (timeout : Z) : VaultService :=
  {| lockTimeoutMs := timeout; session := None; lockTimer := None |}.

Definition status (svc : VaultService) : Result Status :=
  match session svc with
  | None => inr {| locked := true; entryCount := 0; st_lastActivity := None |}
  | Some s =>
      match vault s with
      | Build_VaultData es =>
          inr {| locked := false; entryCount := Z.of_nat (length es);
                 st_lastActivity := Some (lastActivity s) |}
      | NoEntries => inl TypeError
      end
  end.

Definition clearLockTimer (svc : VaultService) : VaultService :=
  set_lockTimer None svc.

(** Node's [setTimeout(f, ms)]: a delay above [TIMEOUT_MAX] = 2^31 - 1 or
    below 1 is set to 1.  (The timeout is an integer number of
    milliseconds.) *)
Definition TIMEOUT_MAX : Z := 2147483647.

Definition timerDelay (ms : Z) : Z :=
  if (TIMEOUT_MAX <? ms) || (ms <? 1) then 1 else ms.

Definition scheduleLock (t : Z) (svc : VaultService) : VaultService :=
  let svc := clearLockTimer svc in
  if lockTimeoutMs svc <=? 0 then svc
  else set_lockTimer (Some (t + timerDelay (lockTimeoutMs svc))) svc.

Definition touch (t : Z) (svc : VaultService) : VaultService :=
  match session svc with
  | None => svc
  | Some s => scheduleLock t (set_session (Some (set_lastActivity t s)) svc)
  end.

Definition lock (svc : VaultService) : VaultService :=
  set_session None (clearLockTimer svc).

(** The auto-lock timer fires: [setTimeout(() => this.lock(), ...)]. *)
Definition timerFires (t : Z) (svc : VaultService) : VaultService :=
  match lockTimer svc with
  | Some deadline => if deadline <=? t then lock svc else svc
  | None => svc
  end.

Definition requireSession (tok : string) (env : Env) : M SessionData :=
  let! svc := getService in
  match session svc with
  | None => throwM LOCKED
  | Some s =>
      if negb (String.eqb (token s) tok) then throwM INVALID_SESSION
      else
        let! _ := putService (touch (now env) svc) in
        retM (set_lastActivity (now env) s)
  end.

Definition touchSession (tok : string) (env : Env) : M unit :=
  let! _ := requireSession tok env in retM tt.

(** The session object is shared: a write to [session.vault] is a write to
    [this.session.vault]. *)
Definition updateVault (v : VaultData) : M SessionData :=
  let! svc := getService in
  match session svc with
  | None => throwM LOCKED
  | Some s =>
      let! _ := putService (set_session (Some (set_vault v s)) svc) in
      retM (set_vault v s)
  end.

(** [vault.entries], read to take its length or to call one of its
    methods. *)
Definition vaultEntries (v : VaultData) : M (list VaultEntry) :=
  match v with
  | Build_VaultData es => retM es
  | NoEntries => throwM TypeError
  end.

Section Service.
Context `{Platform}.

Definition install (env : Env) (k : Buffer) (params : KdfParams) (v : VaultData)
    : M unit :=
  let! svc := getService in
  let s := {| token := uuid env; key := k; s_kdf := params; vault := v;
              lastActivity := now env |} in
  putService (scheduleLock (now env) (set_session (Some s) svc)).

Definition unlock (masterPassword : string) (createIfMissing : bool) (env : Env)
    : M UnlockResult :=
  fun w =>
    if negb (vaultExists (fault env) (disk w)) then
      if negb createIfMissing then throwM NO_VAULT w
      else
        let emptyVault := Build_VaultData [] in
        (let! enc := liftEff (encryptVault (rand16 env) (rand12 env)
                                emptyVault masterPassword) in
         let! _ := onDisk (writeVaultFile (fault env) (fst enc)) in
         let! _ := install env (snd enc) (kdf (fst enc)) emptyVault in
         retM {| created := true; r_token := uuid env; r_entries := 0 |}) w
    else
      (let! vaultFile := onDisk (fun d => (d, readVaultFile (fault env) d)) in
       let! dec := liftEff (decryptVault vaultFile masterPassword) in
       let '(v, k, params) := dec in
       let! _ := install env k params v in
       let! es := vaultEntries v in
       retM {| created := false; r_token := uuid env;
               r_entries := Z.of_nat (length es) |}) w.

Definition persist (s : SessionData) (env : Env) : M unit :=
  let! vaultFile := liftEff (encryptVaultWithKey (rand12 env) (vault s) (key s)
                               (s_kdf s)) in
  onDisk (writeVaultFile (fault env) vaultFile).

(** [Array.prototype.sort] with a comparator: a stable sort.  An element
    is put in front of the sorted rest unless it compares greater than the
    head of the rest, so equal elements keep their order. *)
Fixpoint insertBy {A} (cmp : A -> A -> Z) (x : A) (l : list A) : list A :=
  match l with
  | [] => [x]
  | y :: l' => if 0 <? cmp x y then y :: insertBy cmp x l' else x :: y :: l'
  end.

Definition sortBy {A} (cmp : A -> A -> Z) (l : list A) : list A :=
  foldr (fun x acc => insertBy cmp x acc) [] l.

Definition queryMatches (normalizedQuery : option string) (entry : VaultEntry) : bool :=
  match normalizedQuery with
  | None => true
  | Some q =>
      if negb (Js.truthy q) then true
      else Js.includes (Js.toLowerCase (site entry)) q
           || Js.includes (Js.toLowerCase (username entry)) q
           || Js.includes (Js.toLowerCase (domain entry)) q
  end.

Definition getEntries (tok : string) (query : option string) (env : Env)
    : M (list VaultEntry) :=
  let! s := requireSession tok env in
  let normalizedQuery := (fun q => Js.toLowerCase (Js.trim q)) <$> query in
  let! es := vaultEntries (vault s) in
  retM (sortBy (fun a b => localeCompare (site a) (site b))
          (filter (fun e => queryMatches normalizedQuery e = true) es)).

Definition getEntriesForDomain (tok : string) (dom : string) (env : Env)
    : M (list VaultEntry) :=
  let! s := requireSession tok env in
  let target := normalizeDomain dom in
  let! es := vaultEntries (vault s) in
  retM (filter (fun e => domainMatches (domain e) target = true) es).

Definition addEntry (tok : string) (payload : EntryPayload) (env : Env)
    : M VaultEntry :=
  let! s := requireSession tok env in
  let stamp := toISOString (now env) in
  let entry := {| id := uuid env;
                  site := p_site payload;
                  domain := normalizeDomain (p_domain payload);
                  username := p_username payload;
                  password := p_password payload;
                  notes := p_notes payload;
                  createdAt := stamp;
                  updatedAt := stamp |} in
  let! es := vaultEntries (vault s) in
  let! s' := updateVault (Build_VaultData (es ++ [entry])) in
  let! _ := persist s' env in
  retM entry.

(** [entries.findIndex((e) => e.id === id)], [None] for -1. *)
Fixpoint findIndex (ident : string) (l : list VaultEntry) : option nat :=
  match l with
  | [] => None
  | e :: l' => if String.eqb (id e) ident then Some 0%nat
               else S <$> findIndex ident l'
  end.

(** [{ ...existing, ...payload, domain: ..., updatedAt: ... }]: every
    field of the payload is laid over the entry, [id] and [createdAt]
    included; [domain] and [updatedAt] are set afterwards. *)
Definition applyPatch (existing : VaultEntry) (patch : EntryPatch) (stamp : string)
    : VaultEntry :=
  {| id := default (id existing) (u_id patch);
     site := default (site existing) (u_site patch);
     domain :=
       match u_domain patch with
       | Some d => if Js.truthy d then normalizeDomain d else domain existing
       | None => domain existing
       end;
     username := default (username existing) (u_username patch);
     password := default (password existing) (u_password patch);
     notes := match u_notes patch with
              | Some n => Some n
              | None => notes existing
              end;
     createdAt := default (createdAt existing) (u_createdAt patch);
     updatedAt := stamp |}.

Definition updateEntry (tok : string) (ident : string) (patch : EntryPatch)
    (env : Env) : M VaultEntry :=
  let! s := requireSession tok env in
  let! es := vaultEntries (vault s) in
  match findIndex ident es with
  | None => throwM NOT_FOUND
  | Some idx =>
      match es !! idx with
      | None => throwM NOT_FOUND
      | Some existing =>
          let updated := applyPatch existing patch (toISOString (now env)) in
          let! s' := updateVault (Build_VaultData (<[idx := updated]> es)) in
          let! _ := persist s' env in
          retM updated
      end
  end.

Definition deleteEntry (tok : string) (ident : string) (env : Env) : M unit :=
  let! s := requireSession tok env in
  let! es := vaultEntries (vault s) in
  let before := length es in
  let kept := filter (fun e => id e <> ident) es in
  let! s' := updateVault (Build_VaultData kept) in
  if (length kept =? before)%nat then throwM NOT_FOUND
  else persist s' env.

End Service.

(** ** server/src/middleware/rateLimiter.ts *)

Record RateLimitEntry := {
  count : Z;
  resetAt : Z;
  blockedUntil : option Z
}.

Record RateLimiter := {
  attempts : gmap string RateLimitEntry;
  windowMs : Z;
  maxAttempts : Z;
  blockDurationMs : Z
}.

(** What the middleware does with the request: [next()], or status 429
    with a Retry-After of that many seconds. *)
Inductive Verdict :=
| Next
| TooManyRequests (retryAfter : Z).

(** The parts of an express [Request] the limiter reads. *)
Record Request := {
  ip : option string;
  remoteAddress : option string
}.

(** [new RateLimiter(windowMs, maxAttempts, blockDurationMs)]; the defaults
    are 15 minutes, 5 attempts and one hour. *)
Definition newRateLimiter (w m b : Z) : RateLimiter :=
  {| attempts := ∅; windowMs := w; maxAttempts := m; blockDurationMs := b |}.

Definition defaultRateLimiter : RateLimiter :=
  newRateLimiter (15 * 60 * 1000) 5 (60 * 60 * 1000).

Definition set_attempts (a : gmap string RateLimitEntry) (rl : RateLimiter)
    : RateLimiter :=
  {| attempts := a; windowMs := windowMs rl; maxAttempts := maxAttempts rl;
     blockDurationMs := blockDurationMs rl |}.

(** [Math.ceil(ms / 1000)] on integers. *)
Definition ceilSeconds (ms : Z) : Z := - ((- ms) / 1000).

Definition truthyStr (o : option string) : option string :=
  match o with
  | Some s => if Js.truthy s then Some s else None
  | None => None
  end.

(** [req.ip || req.socket.remoteAddress || 'unknown']. *)
Definition getClientKey (req : Request) : string :=
  match truthyStr (ip req) with
  | Some k => k
  | None => default "unknown" (truthyStr (remoteAddress req))
  end.

(** [entry?.blockedUntil && entry.blockedUntil > now]. *)
Definition isBlocked (entry : option RateLimitEntry) (t : Z) : option Z :=
  match entry with
  | Some e =>
      match blockedUntil e with
      | Some b => if negb (b =? 0) && (t <? b) then Some b else None
      | None => None
      end
  | None => None
  end.

(** The request handler returned by [middleware()], on the client key. *)
Definition middlewareKey (k : string) (t : Z) (rl : RateLimiter)
    : RateLimiter * Verdict :=
  let entry := attempts rl !! k in
  match isBlocked entry t with
  | Some b => (rl, TooManyRequests (ceilSeconds (b - t)))
  | None =>
      match entry with
      | None =>
          (set_attempts
             (<[k := {| count := 1; resetAt := t + windowMs rl;
                        blockedUntil := None |}]> (attempts rl)) rl,
           Next)
      | Some e =>
          if resetAt e <? t then
            (set_attempts
               (<[k := {| count := 1; resetAt := t + windowMs rl;
                          blockedUntil := None |}]> (attempts rl)) rl,
             Next)
          else
            let c := count e + 1 in
            if maxAttempts rl <? c then
              (set_attempts
                 (<[k := {| count := c; resetAt := resetAt e;
                            blockedUntil := Some (t + blockDurationMs rl) |}]>
                    (attempts rl)) rl,
               TooManyRequests (ceilSeconds (blockDurationMs rl)))
            else
              (set_attempts
                 (<[k := {| count := c; resetAt := resetAt e;
                            blockedUntil := blockedUntil e |}]>
                    (attempts rl)) rl,
               Next)
      end
  end.

Definition middleware (req : Request) (t : Z) (rl : RateLimiter)
    : RateLimiter * Verdict :=
  middlewareKey (getClientKey req) t rl.

Definition resetKey (k : string) (rl : RateLimiter) : RateLimiter :=
  set_attempts (delete k (attempts rl)) rl.

Definition resetClient (req : Request) (rl : RateLimiter) : RateLimiter :=
  resetKey (getClientKey req) rl.

Definition expired (t : Z) (e : RateLimitEntry) : bool :=
  (resetAt e <? t)
  && match blockedUntil e with
     | Some b => (b =? 0) || (b <? t)
     | None => true
     end.

(** The periodic sweep. *)
Definition cleanup (t : Z) (rl : RateLimiter) : RateLimiter :=
  set_attempts (filter (fun kv => expired t kv.2 = false) (attempts rl)) rl.

(** The limiter after a sequence of requests of one client at the given
    times, with the verdicts in order. *)
Fixpoint requests (k : string) (times : list Z) (rl : RateLimiter)
    : RateLimiter * list Verdict :=
  match times with
  | [] => (rl, [])
  | t :: times' =>
      let '(rl1, v) := middlewareKey k t rl in
      let '(rl2, vs) := requests k times' rl1 in
      (rl2, v :: vs)
  end.

(** ** The operations of the service as one step function

    The routes of server/src/index.ts call these methods; [run] is the
    method call with its result forgotten down to a [Reply]. *)

Inductive Op :=
| OpUnlock (masterPassword : string) (createIfMissing : bool)
| OpLock
| OpTouchSession (tok : string)
| OpGetEntries (tok : string) (query : option string)
| OpGetEntriesForDomain (tok : string) (dom : string)
| OpAddEntry (tok : string) (payload : EntryPayload)
| OpUpdateEntry (tok : string) (ident : string) (patch : EntryPatch)
| OpDeleteEntry (tok : string) (ident : string).

Inductive Reply :=
| Unlocked (r : UnlockResult)
| Done
| Entries (l : list VaultEntry)
| Entry (e : VaultEntry).

Definition mapM {A B} (f : A -> B) (m : M A) : M B :=
  let! a := m in retM (f a).

Section Run.
Context `{Platform}.

Definition run (op : Op) (env : Env) : M Reply :=
  match op with
  | OpUnlock pw create => mapM Unlocked (unlock pw create env)
  | OpLock => fun w => ({| service := lock (service w); disk := disk w |}, inr Done)
  | OpTouchSession tok => mapM (fun _ => Done) (touchSession tok env)
  | OpGetEntries tok q => mapM Entries (getEntries tok q env)
  | OpGetEntriesForDomain tok dom => mapM Entries (getEntriesForDomain tok dom env)
  | OpAddEntry tok payload => mapM Entry (addEntry tok payload env)
  | OpUpdateEntry tok ident patch => mapM Entry (updateEntry tok ident patch env)
  | OpDeleteEntry tok ident => mapM (fun _ => Done) (deleteEntry tok ident env)
  end.

(** The integrity tag of a file under a key: what [computeHMAC] returns
    for its version, kdf and cipher. *)
Definition tagOf (f : VaultFile) (k : Buffer) : string :=
  base64_encode (hmac_sha256 k (stringify_header (version f) (kdf f) (cipher f))).

(** The text at a path is the serialisation of a version 2 file that
    carries a tag. *)
Definition currentFile (o : option string) : Prop :=
  exists f, o = Some (stringify_file f) /\ version f = 2 /\ is_Some (hmac f).

(** What an operation may do to the disk: the vault path holds what it
    held or a current file; the temporary path holds what it held, a
    current file, or nothing (it was renamed over the vault path). *)
Definition diskOk (before after : Disk) : Prop :=
  (vault_path after = vault_path before \/ currentFile (vault_path after))
  /\ (tmp_path after = tmp_path before
      \/ tmp_path after = None
      \/ currentFile (tmp_path after)).

(** An operation writes current files only. *)
Definition writesOk {A} (m : M A) : Prop :=
  forall w w' r, m w = (w', r) -> diskOk (disk w) (disk w').

End Run.

(** The token an authenticated operation presents. *)
Definition presented (op : Op) : option string :=
  match op with
  | OpUnlock _ _ | OpLock => None
  | OpTouchSession tok
  | OpGetEntries tok _
  | OpGetEntriesForDomain tok _
  | OpAddEntry tok _
  | OpUpdateEntry tok _ _
  | OpDeleteEntry tok _ => Some tok
  end.

(** A file with the ciphertext replaced, and a file with the tag removed. *)
Definition withCipherData (f : VaultFile) (d : string) : VaultFile :=
  {| version := version f;
     kdf := kdf f;
     cipher := {| iv := iv (cipher f); data := d; authTag := authTag (cipher f) |};
     hmac := hmac f |}.

Definition withoutHmac (f : VaultFile) : VaultFile :=
  {| version := version f; kdf := kdf f; cipher := cipher f; hmac := None |}.

Definition withVersion (f : VaultFile) (v : Z) : VaultFile :=
  {| version := v; kdf := kdf f; cipher := cipher f; hmac := hmac f |}.


(** ** A small platform on which the code can be run

    A concrete instance of [Platform] with deliberately simple operations:
    the host of a URL is what stands between "://" and the first of "/",
    "?" and "#"; the key derived from a password is the password followed by
    the salt; a MAC is the key followed by the message; the cipher tags a
    text with the key and the iv.  It is used to evaluate the code on
    concrete inputs. *)

Module Toy.

(** Separators of the fields of a vault and of the fields of a file. *)
Definition sep : ascii := "031"%char.

Definition fileSep : ascii := "030"%char.

Fixpoint afterScheme (s : string) : string :=
  match s with
  | EmptyString => EmptyString
  | String c s' =>
      if String.prefix "://" s then String.substring 3 (String.length s - 3) s
      else afterScheme s'
  end.

Fixpoint untilDelim (s : string) : string :=
  match s with
  | EmptyString => EmptyString
  | String c s' =>
      if (Ascii.eqb c "/" || Ascii.eqb c "?" || Ascii.eqb c "#")%char
      then EmptyString
      else String c (untilDelim s')
  end.

Definition hostname (s : string) : option string :=
  let h := untilDelim (afterScheme s) in
  if negb (Js.truthy h) || Js.includes h " " then None
  else Some (Js.toLowerCase h).

Definition compareZ (a b : string) : Z :=
  match String.compare a b with
  | Lt => -1
  | Eq => 0
  | Gt => 1
  end.

(** Fields joined by a separator, each field followed by it. *)
Definition joinFields (by_ : ascii) (l : list string) : string :=
  foldr (fun f acc => f +:+ String by_ acc) EmptyString l.

Fixpoint splitFields (by_ : ascii) (cur : string) (s : string) : list string :=
  match s with
  | EmptyString => []
  | String c s' =>
      if Ascii.eqb c by_ then String.rev cur :: splitFields by_ EmptyString s'
      else splitFields by_ (String c cur) s'
  end.

Definition showOpt (o : option string) : string :=
  match o with
  | Some s => String "+" s
  | None => "-"
  end.

Definition readOpt (s : string) : option (option string) :=
  match s with
  | String "+" s' => Some (Some s')
  | String "-" EmptyString => Some None
  | _ => None
  end.

Definition digit (c : ascii) : option Z := Z.of_nat <$> Ascii.is_nat c.

Fixpoint readDigits (acc : Z) (s : string) : option Z :=
  match s with
  | EmptyString => Some acc
  | String c s' =>
      match digit c with
      | Some d => readDigits (10 * acc + d) s'
      | None => None
      end
  end.

Definition readZ (s : string) : option Z :=
  match s with
  | EmptyString => None
  | String "-" s' => if Js.truthy s' then Z.opp <$> readDigits 0 s' else None
  | _ => readDigits 0 s
  end.

Definition showEntry (e : VaultEntry) : list string :=
  [id e; site e; domain e; username e; password e; showOpt (notes e);
   createdAt e; updatedAt e].

Fixpoint readEntries (fuel : nat) (l : list string) : option (list VaultEntry) :=
  match fuel, l with
  | _, [] => Some []
  | S fuel', i :: s :: d :: u :: p :: n :: c :: m :: rest =>
      match readOpt n, readEntries fuel' rest with
      | Some n', Some es =>
          Some ({| id := i; site := s; domain := d; username := u;
                   password := p; notes := n'; createdAt := c;
                   updatedAt := m |} :: es)
      | _, _ => None
      end
  | _, _ => None
  end.

Definition showData (d : VaultData) : string :=
  match d with
  | Build_VaultData es => joinFields sep (concat (showEntry <$> es))
  | NoEntries => "null"
  end.

Definition readData (s : string) : option VaultData :=
  if String.eqb s "null" then Some NoEntries
  else
    let l := splitFields sep EmptyString s in
    Build_VaultData <$> readEntries (length l) l.

(** A text with a mark in front of every character and an end mark: texts
    written one after the other can be told apart. *)
Fixpoint enc (s : string) : string :=
  match s with
  | EmptyString => "0"
  | String c s' => String "1" (String c (enc s'))
  end.

Definition encAll (l : list string) : string :=
  foldr (fun f acc => enc f +:+ acc) EmptyString l.

Definition showHeader (v : Z) (k : KdfParams) (c : CipherPayload) : list string :=
  [pretty v; salt k; pretty (kdf_N k); pretty (kdf_r k); pretty (kdf_p k);
   pretty (keyLength k); iv c; data c; authTag c].

Definition showFile (f : VaultFile) : string :=
  joinFields fileSep
    (showHeader (version f) (kdf f) (cipher f) ++ [showOpt (hmac f)]).

Definition readFile (s : string) : option VaultFile :=
  match splitFields fileSep EmptyString s with
  | [v; sa; n; r; p; kl; i; d; t; h] =>
      match readZ v, readZ n, readZ r, readZ p, readZ kl, readOpt h with
      | Some v', Some n', Some r', Some p', Some kl', Some h' =>
          Some {| version := v';
                  kdf := {| salt := sa; kdf_N := n'; kdf_r := r'; kdf_p := p';
                            keyLength := kl' |};
                  cipher := {| iv := i; data := d; authTag := t |};
                  hmac := h' |}
      | _, _, _, _, _, _ => None
      end
  | _ => None
  end.

Definition bytes (s : string) : Buffer := String.list_byte_of_string s.

Definition text (b : Buffer) : string := String.string_of_list_byte b.

Definition platform : Platform :=
  {| url_hostname := hostname;
     localeCompare := compareZ;
     toISOString := fun t => pretty t;
     scrypt := fun pw sa keylen n r p cap =>
       if 128 * n * r * p <=? cap then Some (bytes pw ++ sa) else None;
     gcm_encrypt := fun k nonce plain => Some (bytes plain, k ++ nonce);
     gcm_decrypt := fun k nonce tag enc =>
       if bool_decide (tag = k ++ nonce) then Some (text enc) else None;
     hmac_sha256 := fun k msg => Byte.x68 :: k ++ bytes msg;
     base64_encode := text;
     base64_decode := bytes;
     stringify_data := showData;
     parse_data := readData;
     stringify_header := fun v k c => encAll (showHeader v k c);
     stringify_file := showFile;
     parse_file := readFile |}.

Definition sampleEntry : VaultEntry :=
  {| id := "1"; site := "Example"; domain := "example.com";
     username := "alice"; password := "secret"; notes := None;
     createdAt := "2024-01-01T00:00:00.000Z";
     updatedAt := "2024-01-01T00:00:00.000Z" |}.

Definition sampleData : VaultData := Build_VaultData [sampleEntry].

Definition salt16 : Buffer := bytes "0123456789abcdef".

Definition iv12 : Buffer := bytes "0123456789ab".

(** The file and key that [encryptVault] yields for the sample vault under
    the password "master". *)
Definition sampleEncrypted : Result (VaultFile * Buffer) :=
  outcome (@encryptVault platform salt16 iv12 sampleData "master").

Definition sampleKey : Buffer := bytes "master0123456789abcdef".

Definition noFile : VaultFile :=
  {| version := 0;
     kdf := {| salt := EmptyString; kdf_N := 0; kdf_r := 0; kdf_p := 0;
               keyLength := 0 |};
     cipher := {| iv := EmptyString; data := EmptyString;
                  authTag := EmptyString |};
     hmac := None |}.

Definition sampleFile : VaultFile :=
  Eval vm_compute in
    match sampleEncrypted with
    | inr (f, _) => f
    | inl _ => noFile
    end.


(** The sample file as a version 1 file without tag. *)
Definition legacyFile : VaultFile := withVersion (withoutHmac sampleFile) 1.

Definition env0 : Env :=
  {| now := 1700000000000; uuid := "3f2c"; rand16 := salt16; rand12 := iv12;
     fault := NoFault |}.

Definition emptyDisk : Disk := {| vault_path := None; tmp_path := None |}.

Definition sampleDisk : Disk :=
  {| vault_path := Some (showFile sampleFile); tmp_path := None |}.

Definition sampleSession : SessionData :=
  {| token := "tok"; key := sampleKey; s_kdf := kdf sampleFile;
     vault := sampleData; lastActivity := 1699999999000 |}.

Definition lockedWorld : World :=
  {| service := newVaultService 600000; disk := sampleDisk |}.

Definition unlockedWorld : World :=
  {| service := {| lockTimeoutMs := 600000; session := Some sampleSession;
                   lockTimer := Some 1700000599000 |};
     disk := sampleDisk |}.


Definition samplePayload : EntryPayload :=
  {| p_site := "Example"; p_domain := "https://www.example.com/login";
     p_username := "a"; p_password := "p"; p_notes := None |}.

(** The limiter of the test suite: a window of one second, three attempts,
    a block of two seconds. *)
Definition testLimiter : RateLimiter := newRateLimiter 1000 3 2000.

End Toy.

(** ** server/src/passwordGenerator.ts

    [crypto.randomInt(0, max)] returns some integer from 0 below [max].  The
    generator is a function of the entropy [rnd] it is given: call number
    [c] returns the value that [rnd c] determines below [max].  Every
    sequence of in-range results is the one of some [rnd]. *)

Module PasswordGenerator.

(** The options of a request: the fields that are present. *)
Record PasswordOptions := {
  length : option Z;
  uppercase : option bool;
  lowercase : option bool;
  numbers : option bool;
  symbols : option bool
}.

(** [Required<PasswordOptions>]: the options after the defaults are laid
    under them. *)
Record Options := {
  o_length : Z;
  o_uppercase : bool;
  o_lowercase : bool;
  o_numbers : bool;
  o_symbols : bool
}.

Definition DEFAULT_OPTIONS : Options :=
  {| o_length := 20; o_uppercase := true; o_lowercase := true;
     o_numbers := true; o_symbols := true |}.

Definition CHARSETS_uppercase : string := "ABCDEFGHIJKLMNOPQRSTUVWXYZ".
Definition CHARSETS_lowercase : string := "abcdefghijklmnopqrstuvwxyz".
Definition CHARSETS_numbers : string := "0123456789".
Definition CHARSETS_symbols : string := "!@#$%^&*()-_=+[]{};:,.<>?".

(** [{ ...DEFAULT_OPTIONS, ...opts }]. *)
Definition withDefaults (opts : PasswordOptions) : Options :=
  {| o_length := default (o_length DEFAULT_OPTIONS) (length opts);
     o_uppercase := default (o_uppercase DEFAULT_OPTIONS) (uppercase opts);
     o_lowercase := default (o_lowercase DEFAULT_OPTIONS) (lowercase opts);
     o_numbers := default (o_numbers DEFAULT_OPTIONS) (numbers opts);
     o_symbols := default (o_symbols DEFAULT_OPTIONS) (symbols opts) |}.

(** The character sets whose flag is set, in the order uppercase,
    lowercase, numbers, symbols. *)
Definition enabledSets (o : Options) : list string :=
  (if o_uppercase o then [CHARSETS_uppercase] else [])
  ++ (if o_lowercase o then [CHARSETS_lowercase] else [])
  ++ (if o_numbers o then [CHARSETS_numbers] else [])
  ++ (if o_symbols o then [CHARSETS_symbols] else []).

(** [s.charAt(i)]: the character as a string, the empty string out of
    range. *)
Definition charAt (s : string) (i : nat) : string :=
  match String.get i s with
  | Some c => String c EmptyString
  | None => EmptyString
  end.

Definition randomInt (rnd : nat -> nat) (c : nat) (max : nat) : nat :=
  rnd c mod max.

(** The first loop: one character of each enabled set; [c] counts the
    calls of [randomInt]. *)
Fixpoint pickEach (rnd : nat -> nat) (c : nat) (sets : list string)
    : list string :=
  match sets with
  | [] => []
  | chars :: rest =>
      charAt chars (randomInt rnd c (String.length chars))
      :: pickEach rnd (S c) rest
  end.

(** The while loop, for the [n] characters that are missing. *)
Fixpoint fill (rnd : nat -> nat) (c : nat) (allChars : string) (n : nat)
    : list string :=
  match n with
  | O => []
  | S n' =>
      charAt allChars (randomInt rnd c (String.length allChars))
      :: fill rnd (S c) allChars n'
  end.

(** [[p[i], p[j]] = [p[j], p[i]]]; the indices of the shuffle are always
    inside the array. *)
Definition swap (p : list string) (i j : nat) : list string :=
  match p !! i, p !! j with
  | Some a, Some b => <[j := a]> (<[i := b]> p)
  | _, _ => p
  end.

(** The Fisher-Yates loop, from index [i] down to 1. *)
Fixpoint shuffle (rnd : nat -> nat) (c : nat) (i : nat) (p : list string)
    : list string :=
  match i with
  | O => p
  | S i' => shuffle rnd (S c) i' (swap p i (randomInt rnd c (i + 1)))
  end.

(** [None] is the exception 'At least one character set must be
    enabled'. *)
Definition generatePassword (opts : PasswordOptions) (rnd : nat -> nat)
    : option string :=
  let options := withDefaults opts in
  let sets := enabledSets options in
  if bool_decide (sets = []) then None
  else
    let len := Z.max 8 (o_length options) in
    let allChars := String.concat EmptyString sets in
    let first := pickEach rnd 0 sets in
    let more :=
      fill rnd (List.length first) allChars
           (Z.to_nat (len - Z.of_nat (List.length first))) in
    let passwordChars := first ++ more in
    Some (String.concat EmptyString
            (shuffle rnd (List.length passwordChars)
                     (List.length passwordChars - 1) passwordChars)).

(** The characters of a string. *)
Definition chars (s : string) : list ascii := String.list_ascii_of_string s.

(** A string that is one character, and the character has a property. *)
Definition single (P : ascii -> Prop) (x : string) : Prop :=
  exists c, x = String c EmptyString /\ P c.

End PasswordGenerator.

(** ** Notions used to state what the operations do *)

(** Two limiters that a client cannot tell apart: same parameters, same
    entry for the client. *)
Definition agree (k : string) (rl1 rl2 : RateLimiter) : Prop :=
  windowMs rl1 = windowMs rl2
  /\ maxAttempts rl1 = maxAttempts rl2
  /\ blockDurationMs rl1 = blockDurationMs rl2
  /\ attempts rl1 !! k = attempts rl2 !! k.

Section MoreServiceDefs.
Context `{Platform}.

(** The entry that [addEntry] builds from a payload. *)
Definition newEntry (payload : EntryPayload) (env : Env) : VaultEntry :=
  {| id := uuid env;
     site := p_site payload;
     domain := normalizeDomain (p_domain payload);
     username := p_username payload;
     password := p_password payload;
     notes := p_notes payload;
     createdAt := toISOString (now env);
     updatedAt := toISOString (now env) |}.

End MoreServiceDefs.

(** The session that [unlock] installs from a decrypted file. *)
Definition installed (env : Env) (k : Buffer) (params : KdfParams)
    (v : VaultData) (w : World) : World :=
  {| service :=
       scheduleLock (now env)
         (set_session
            (Some {| token := uuid env; key := k; s_kdf := params; vault := v;
                     lastActivity := now env |})
            (service w));
     disk := disk w |}.

(** The session after a call that presented its token. *)
Definition touched (env : Env) (s : SessionData) : SessionData :=
  set_lastActivity (now env) s.

(** The pending auto-lock timer is the one of the last activity: none
    without a session or with a timeout of 0 or less, and otherwise due
    one timer delay after the session's last activity: the timeout, or one
    millisecond when the timeout is above [TIMEOUT_MAX]. *)
Definition timerInv (svc : VaultService) : Prop :=
  lockTimer svc
  = match session svc with
    | None => None
    | Some s =>
        if lockTimeoutMs svc <=? 0 then None
        else Some (lastActivity s
                   + (if TIMEOUT_MAX <? lockTimeoutMs svc then 1
                      else lockTimeoutMs svc))
    end.

(** A computation keeps the timeout and the timer invariant. *)
Definition keepsTimer {A} (m : M A) : Prop :=
  forall w w' r,
    timerInv (service w) -> m w = (w', r) ->
    timerInv (service w')
    /\ lockTimeoutMs (service w') = lockTimeoutMs (service w).

(** ** server/src/validation/validators.ts

    A field of a request body is any JSON value; the validators test its
    type.  A validator returns the message of the [ValidationError] it
    throws, or [None]. *)

Module Validators.

Inductive JsValue :=
| JsUndefined
| JsNull
| JsBoolean (b : bool)
| JsNumber (n : Z)
| JsString (s : string)
| JsObject.

(** JavaScript truthiness; [Boolean(v)]. *)
Definition truthy (v : JsValue) : bool :=
  match v with
  | JsUndefined | JsNull => false
  | JsBoolean b => b
  | JsNumber n => negb (n =? 0)
  | JsString s => Js.truthy s
  | JsObject => true
  end.

Definition SITE_NAME_MAX : nat := 200.
Definition DOMAIN_MAX : nat := 253.
Definition USERNAME_MAX : nat := 320.
Definition PASSWORD_MAX : nat := 1000.
Definition NOTES_MAX : nat := 5000.
Definition MASTER_PASSWORD_MIN : nat := 8.
Definition MASTER_PASSWORD_MAX : nat := 1000.

Definition validateMasterPassword (password : JsValue) : option string :=
  match password with
  | JsString s =>
      if (String.length s <? MASTER_PASSWORD_MIN)%nat
      then Some "Master password must be at least 8 characters"
      else if (MASTER_PASSWORD_MAX <? String.length s)%nat
      then Some "Master password must not exceed 1000 characters"
      else None
  | _ => Some "Master password must be a string"
  end.

(** [!v || typeof v !== 'string' || !v.trim()] is false: [v] is a string
    with a character that is not white space. *)
Definition filled (v : JsValue) : bool :=
  match v with
  | JsString s => Js.truthy s && Js.truthy (Js.trim s)
  | _ => false
  end.

(** [v.length > max], for a value known to be a string. *)
Definition longer (v : JsValue) (max : nat) : bool :=
  match v with
  | JsString s => (max <? String.length s)%nat
  | _ => false
  end.

(** The body of a request that carries an entry. *)
Record EntryBody := {
  b_site : JsValue;
  b_domain : JsValue;
  b_username : JsValue;
  b_password : JsValue;
  b_notes : JsValue
}.

Definition validateVaultEntry (entry : EntryBody) : option string :=
  if negb (filled (b_site entry)) then Some "Site name is required"
  else if longer (b_site entry) SITE_NAME_MAX
  then Some "Site name must not exceed 200 characters"
  else if negb (filled (b_domain entry)) then Some "Domain is required"
  else if longer (b_domain entry) DOMAIN_MAX
  then Some "Domain must not exceed 253 characters"
  else if negb (filled (b_username entry)) then Some "Username is required"
  else if longer (b_username entry) USERNAME_MAX
  then Some "Username must not exceed 320 characters"
  else if negb (match b_password entry with
                | JsString s => Js.truthy s
                | _ => false
                end)
  then Some "Password is required"
  else if longer (b_password entry) PASSWORD_MAX
  then Some "Password must not exceed 1000 characters"
  else
    match b_notes entry with
    | JsUndefined => None
    | JsString s =>
        if (NOTES_MAX <? String.length s)%nat
        then Some "Notes must not exceed 5000 characters"
        else None
    | _ => Some "Notes must be a string"
    end.

Definition validateSearchQuery (query : JsValue) : option string :=
  match query with
  | JsUndefined => None
  | JsString s =>
      if (200 <? String.length s)%nat then Some "Search query too long"
      else None
  | _ => Some "Search query must be a string"
  end.

Definition validateDomain (dom : JsValue) : option string :=
  if negb (filled dom) then Some "Domain is required"
  else if longer dom DOMAIN_MAX
  then Some "Domain must not exceed 253 characters"
  else None.

(** A string field of a validated body. *)
Definition text (v : JsValue) : string :=
  match v with
  | JsString s => s
  | _ => EmptyString
  end.

Definition optionalText (v : JsValue) : option string :=
  match v with
  | JsString s => Some s
  | _ => None
  end.

End Validators.

(** ** The routes of the server (index.ts) that guard the vault

    The server holds one service (with the disk) and the limiter of the
    unlock route.  A route maps a request to the new server state and the
    response: status code and body. *)

Module Api.
Import Validators.

Record Server := {
  world : World;
  unlockRateLimiter : RateLimiter
}.

Inductive Body :=
| ErrorBody (error : string)
| RetryBody (error : string) (retryAfter : Z)
| UnlockBody (r : UnlockResult)
| LockBody
| EntryBody' (e : VaultEntry)
| EntriesBody (l : list VaultEntry)
| OkBody.

Record Response := {
  statusCode : Z;
  body : Body
}.

Definition respond (code : Z) (b : Body) : Response :=
  {| statusCode := code; body := b |}.

(** [requireToken]: the header, unless it is absent or empty. *)
Definition requireToken (header : option string) : option string :=
  match header with
  | Some tok => if Js.truthy tok then Some tok else None
  | None => None
  end.

Definition missingToken : Response :=
  respond 401 (ErrorBody "Missing session token").

Definition handleError (err : Error) : Response :=
  match err with
  | LOCKED => respond 401 (ErrorBody "Vault is locked")
  | INVALID_SESSION => respond 401 (ErrorBody "Invalid session token")
  | NOT_FOUND => respond 404 (ErrorBody "Not found")
  | _ => respond 500 (ErrorBody "Unexpected error")
  end.

Definition set_world (w : World) (srv : Server) : Server :=
  {| world := w; unlockRateLimiter := unlockRateLimiter srv |}.

Section Routes.
Context `{Platform}.

(** POST /api/unlock, behind the limiter; [t] is the clock read by the
    limiter, [env] what the service reads afterwards. *)
Definition unlockRoute (req : Request) (t : Z)
    (masterPassword createIfMissing : JsValue) (env : Env) (srv : Server)
    : Server * Response :=
  match middleware req t (unlockRateLimiter srv) with
  | (rl, TooManyRequests retryAfter) =>
      ({| world := world srv; unlockRateLimiter := rl |},
       respond 429
         (RetryBody
            (match isBlocked (attempts (unlockRateLimiter srv)
                                !! getClientKey req) t with
             | Some _ => "Too many failed attempts. Please try again later."
             | None => "Too many failed attempts. Account temporarily locked."
             end)
            retryAfter))
  | (rl, Next) =>
      match validateMasterPassword masterPassword with
      | Some message =>
          ({| world := world srv; unlockRateLimiter := rl |},
           respond 400 (ErrorBody message))
      | None =>
          match unlock (text masterPassword) (truthy createIfMissing) env
                       (world srv) with
          | (w, inr result) =>
              ({| world := w; unlockRateLimiter := resetClient req rl |},
               respond 200 (UnlockBody result))
          | (w, inl NO_VAULT) =>
              ({| world := w; unlockRateLimiter := rl |},
               respond 404
                 (ErrorBody "Vault not found. Pass createIfMissing to initialize."))
          | (w, inl _) =>
              ({| world := w; unlockRateLimiter := rl |},
               respond 401 (ErrorBody "Invalid master password"))
          end
      end
  end.

(** POST /api/lock. *)
Definition lockRoute (srv : Server) : Server * Response :=
  (set_world {| service := lock (service (world srv)); disk := disk (world srv) |}
             srv,
   respond 200 LockBody).

Definition payloadOf (b : EntryBody) : EntryPayload :=
  {| p_site := text (b_site b);
     p_domain := text (b_domain b);
     p_username := text (b_username b);
     p_password := text (b_password b);
     p_notes := optionalText (b_notes b) |}.

(** POST /api/entries. *)
Definition createRoute (header : option string) (b : EntryBody) (env : Env)
    (srv : Server) : Server * Response :=
  match requireToken header with
  | None => (srv, missingToken)
  | Some tok =>
      match validateVaultEntry b with
      | Some message => (srv, respond 400 (ErrorBody message))
      | None =>
          match addEntry tok (payloadOf b) env (world srv) with
          | (w, inr entry) => (set_world w srv, respond 200 (EntryBody' entry))
          | (w, inl err) => (set_world w srv, handleError err)
          end
      end
  end.

Definition field (o : option string) : JsValue :=
  match o with
  | Some s => JsString s
  | None => JsUndefined
  end.

(** [v || placeholder]. *)
Definition orElse (v : JsValue) (placeholder : string) : JsValue :=
  if truthy v then v else JsString placeholder.

(** PUT /api/entries/:id, for a body whose fields are strings or absent. *)
Definition updateRoute (header : option string) (ident : string)
    (patch : EntryPatch) (env : Env) (srv : Server) : Server * Response :=
  match requireToken header with
  | None => (srv, missingToken)
  | Some tok =>
      let checked :=
        if truthy (field (u_site patch)) || truthy (field (u_domain patch))
           || truthy (field (u_username patch))
           || truthy (field (u_password patch))
           || negb (bool_decide (u_notes patch = None))
        then
          validateVaultEntry
            {| b_site := orElse (field (u_site patch)) "placeholder";
               b_domain := orElse (field (u_domain patch)) "placeholder.com";
               b_username := orElse (field (u_username patch)) "placeholder";
               b_password := orElse (field (u_password patch)) "placeholder";
               b_notes := field (u_notes patch) |}
        else None in
      match checked with
      | Some message => (srv, respond 400 (ErrorBody message))
      | None =>
          match updateEntry tok ident patch env (world srv) with
          | (w, inr updated) => (set_world w srv, respond 200 (EntryBody' updated))
          | (w, inl err) => (set_world w srv, handleError err)
          end
      end
  end.

(** A request to one of the routes that change the vault. *)
Inductive Mutation :=
| Post (b : EntryBody)
| Put (ident : string) (patch : EntryPatch)
| Delete (ident : string).

(** DELETE /api/entries/:id. *)
Definition deleteRoute (header : option string) (ident : string) (env : Env)
    (srv : Server) : Server * Response :=
  match requireToken header with
  | None => (srv, missingToken)
  | Some tok =>
      match deleteEntry tok ident env (world srv) with
      | (w, inr _) => (set_world w srv, respond 200 OkBody)
      | (w, inl err) => (set_world w srv, handleError err)
      end
  end.

(** Express dispatches on method and path. *)
Definition mutate (header : option string) (m : Mutation) (env : Env)
    (srv : Server) : Server * Response :=
  match m with
  | Post b => createRoute header b env srv
  | Put ident patch => updateRoute header ident patch env srv
  | Delete ident => deleteRoute header ident env srv
  end.

(** Unlock requests of one client, one after the other: the clock and
    the password of each. *)
Fixpoint unlockRequests (req : Request) (createIfMissing : JsValue) (env : Env)
    (attemptsMade : list (Z * JsValue)) (srv : Server)
    : Server * list Response :=
  match attemptsMade with
  | [] => (srv, [])
  | (t, masterPassword) :: rest =>
      let (srv1, r) := unlockRoute req t masterPassword createIfMissing env srv in
      let (srv2, rs) := unlockRequests req createIfMissing env rest srv1 in
      (srv2, r :: rs)
  end.

End Routes.

End Api.

(** ** Sample requests and servers *)

Module ToyApi.
Import Validators Api.

Definition client : Request :=
  {| ip := Some "127.0.0.1"; remoteAddress := None |}.

(** The sample vault, unlocked, behind the limiter of the test suite. *)
Definition server : Server :=
  {| world := Toy.unlockedWorld; unlockRateLimiter := Toy.testLimiter |}.

Definition lockedServer : Server :=
  {| world := Toy.lockedWorld; unlockRateLimiter := Toy.testLimiter |}.

(** A server that has no vault file yet. *)
Definition newServer : Server :=
  {| world := {| service := newVaultService 600000; disk := Toy.emptyDisk |};
     unlockRateLimiter := Toy.testLimiter |}.

(** The sample session, and a vault file that holds, sealed under the
    password "correct horse", the text of a value without entries. *)
Definition hollowServer : Server :=
  {| world :=
       {| service := service Toy.unlockedWorld;
          disk :=
            {| vault_path :=
                 Some (Toy.showFile
                         (match outcome (@encryptVault Toy.platform Toy.salt16
                                           Toy.iv12 NoEntries "correct horse")
                          with
                          | inr (f, _) => f
                          | inl _ => Toy.noFile
                          end));
               tmp_path := None |} |};
     unlockRateLimiter := Toy.testLimiter |}.

(** The locked server after three requests of the client in one window. *)
Definition saturatedServer : Server :=
  {| world := Toy.lockedWorld;
     unlockRateLimiter :=
       fst (requests "127.0.0.1" [0; 400; 900] Toy.testLimiter) |}.

Definition sampleBody : EntryBody :=
  {| b_site := JsString "Example";
     b_domain := JsString "https://www.example.com/login";
     b_username := JsString "alice";
     b_password := JsString "secret";
     b_notes := JsUndefined |}.

(** The body [{ site: '' }]. *)
Definition blankSite : EntryPatch :=
  {| u_site := Some EmptyString; u_domain := None; u_username := None;
     u_password := None; u_notes := None; u_id := None; u_createdAt := None |}.

(** The sample vault after a second entry was added. *)
Definition twoSession : SessionData :=
  {| token := "tok"; key := Toy.sampleKey; s_kdf := kdf Toy.sampleFile;
     vault := Build_VaultData
                [Toy.sampleEntry;
                 @newEntry Toy.platform Toy.samplePayload Toy.env0];
     lastActivity := 1700000000000 |}.

Definition twoEntries : World :=
  {| service := {| lockTimeoutMs := 600000; session := Some twoSession;
                   lockTimer := Some 1700000600000 |};
     disk := Toy.sampleDisk |}.

(** The body [{ id: '1' }]. *)
Definition takeId : EntryPatch :=
  {| u_site := None; u_domain := None; u_username := None;
     u_password := None; u_notes := None; u_id := Some "1";
     u_createdAt := None |}.

(** A disk whose [writeFile] rejects. *)
Definition failingEnv : Env :=
  {| now := 1700000000000; uuid := "3f2c"; rand16 := Toy.salt16;
     rand12 := Toy.iv12; fault := FailWriteFile |}.

(** Only digits, eight of them. *)
Definition digitsOnly : PasswordGenerator.PasswordOptions :=
  {| PasswordGenerator.length := Some 8;
     PasswordGenerator.uppercase := Some false;
     PasswordGenerator.lowercase := Some false;
     PasswordGenerator.numbers := Some true;
     PasswordGenerator.symbols := Some false |}.

End ToyApi.

(** * Properties *)

(** ** Strings *)

Lemma substring_0_length (s : string) :
  String.substring 0 (String.length s) s = s.
Proof. induction s as [|c s IH]; simpl; [reflexivity | now rewrite IH]. Qed.

Lemma substring_skip (p s : string) (m : nat) :
  String.substring (String.length p) m (p +:+ s) = String.substring 0 m s.
Proof. induction p as [|c p IH]; simpl; [reflexivity | exact IH]. Qed.

Lemma string_length_app (p s : string) :
  String.length (p +:+ s) = (String.length p + String.length s)%nat.
Proof. induction p as [|c p IH]; simpl; [reflexivity | now rewrite IH]. Qed.

Lemma substring_split (k : nat) (s : string) :
  (k <= String.length s)%nat ->
  s = String.substring 0 k s +:+ String.substring k (String.length s - k) s.
Proof.
  revert s. induction k as [|k IH]; intros s Hk.
  - rewrite Nat.sub_0_r, substring_0_length. now destruct s.
  - destruct s as [|c s]; simpl in *; [lia|].
    change (String c (String.substring 0 k s) +:+ ?t)
      with (String c (String.substring 0 k s +:+ t)).
    f_equal. apply IH. lia.
Qed.

Lemma endsWith_app (p suffix : string) : Js.endsWith (p +:+ suffix) suffix = true.
Proof.
  unfold Js.endsWith. rewrite string_length_app.
  destruct (Nat.leb_spec (String.length suffix)
              (String.length p + String.length suffix)) as [_|Hlt]; [|lia].
  replace (String.length p + String.length suffix - String.length suffix)%nat
    with (String.length p) by lia.
  rewrite substring_skip, substring_0_length. apply String.eqb_refl.
Qed.

Lemma endsWith_inv (s suffix : string) :
  Js.endsWith s suffix = true -> exists p, s = p +:+ suffix.
Proof.
  unfold Js.endsWith.
  destruct (Nat.leb_spec (String.length suffix) (String.length s)) as [Hle|];
    [|discriminate].
  intros Heq%String.eqb_eq.
  exists (String.substring 0 (String.length s - String.length suffix) s).
  pose proof (substring_split (String.length s - String.length suffix) s) as Hs.
  replace (String.length s - (String.length s - String.length suffix))%nat
    with (String.length suffix) in Hs by lia.
  rewrite Heq in Hs. apply Hs. lia.
Qed.

Lemma endsWith_iff (s suffix : string) :
  Js.endsWith s suffix = true <-> exists p, s = p +:+ suffix.
Proof.
  split; [apply endsWith_inv|]. intros [p ->]. apply endsWith_app.
Qed.


Lemma dot_subdomain_longer (target entry : string) :
  dot_subdomain target entry ->
  (String.length entry < String.length target)%nat.
Proof.
  intros [sub ->]. rewrite !string_length_app. simpl. lia.
Qed.

(** ** Domain matching *)

Section DomainFacts.
Context `{Platform}.

Lemma domainMatches_unfold (entryDomain targetDomain : string) :
  domainMatches entryDomain targetDomain = true <->
  normalizeDomain targetDomain = normalizeDomain entryDomain
  \/ dot_subdomain (normalizeDomain targetDomain) (normalizeDomain entryDomain).
Proof.
  unfold domainMatches, dot_subdomain.
  rewrite orb_true_iff, String.eqb_eq, endsWith_iff. reflexivity.
Qed.


Lemma lower_ascii_idem (c : ascii) : Js.lower_ascii (Js.lower_ascii c) = Js.lower_ascii c.
Proof.
  unfold Js.lower_ascii.
  destruct ((65 <=? nat_of_ascii c)%nat && (nat_of_ascii c <=? 90)%nat) eqn:Hc;
    [|now rewrite Hc].
  apply andb_true_iff in Hc as [H1%Nat.leb_le H2%Nat.leb_le].
  rewrite nat_ascii_embedding by lia.
  destruct (Nat.leb_spec (nat_of_ascii c + 32) 90); [lia|].
  now rewrite andb_false_r.
Qed.

Lemma toLowerCase_idem (s : string) :
  Js.toLowerCase (Js.toLowerCase s) = Js.toLowerCase s.
Proof.
  induction s as [|c s IH]; simpl; [reflexivity|].
  now rewrite lower_ascii_idem, IH.
Qed.

(** A normalised domain is in lower case. *)
Lemma normalizeDomain_lower (d : string) :
  Js.toLowerCase (normalizeDomain d) = normalizeDomain d.
Proof.
  unfold normalizeDomain. destruct (url_hostname _); apply toLowerCase_idem.
Qed.
















End DomainFacts.

(** The cases of the specification and of the test suite, on the small
    platform: normalisation lowers case, drops the scheme, one leading
    "www." and the path and query. *)
Example normalizeDomain_examples :
  @normalizeDomain Toy.platform "https://example.com" = "example.com"
  /\ @normalizeDomain Toy.platform "example.com" = "example.com"
  /\ @normalizeDomain Toy.platform "www.example.com" = "example.com"
  /\ @normalizeDomain Toy.platform "EXAMPLE.COM" = "example.com"
  /\ @normalizeDomain Toy.platform "https://example.com/path?q=1" = "example.com"
  /\ @normalizeDomain Toy.platform "not a valid url" = "not a valid url".
Proof. vm_compute. repeat split. Qed.

Example domainMatches_examples :
  @domainMatches Toy.platform "example.com" "sub.example.com" = true
  /\ @domainMatches Toy.platform "sub.example.com" "example.com" = false
  /\ @domainMatches Toy.platform "www.example.com" "example.com" = true
  /\ @domainMatches Toy.platform "example.com" "different.com" = false
  /\ @domainMatches Toy.platform "example.com" "notexample.com" = false.
Proof. vm_compute. repeat split. Qed.





(** ** The vault codec *)

Section CodecFacts.
Context `{Platform}.

Lemma computeHMAC_eq (f : VaultFile) (k : Buffer) :
  computeHMAC (version f) (kdf f) (cipher f) k = ([CallHmac], inr (tagOf f k)).
Proof. reflexivity. Qed.

Lemma verifyIntegrity_legacy (f : VaultFile) (k : Buffer) :
  version f < 2 -> verifyIntegrity f k = ([], inr tt).
Proof.
  intros Hv. unfold verifyIntegrity.
  destruct (Z.leb_spec 2 (version f)); [lia | reflexivity].
Qed.

Lemma verifyIntegrity_missing (f : VaultFile) (k : Buffer) :
  2 <= version f -> hmac_falsy f = true ->
  verifyIntegrity f k = ([], inl (IntegrityError HmacMissing)).
Proof.
  intros Hv Hm. unfold verifyIntegrity.
  destruct (Z.leb_spec 2 (version f)); [|lia]. now rewrite Hm.
Qed.

Lemma verifyIntegrity_present (f : VaultFile) (k : Buffer) :
  2 <= version f -> hmac_falsy f = false ->
  verifyIntegrity f k =
    ([CallHmac],
     if bool_decide (hmac f = Some (tagOf f k)) then inr tt
     else inl (IntegrityError HmacMismatch)).
Proof.
  intros Hv Hm. unfold verifyIntegrity.
  destruct (Z.leb_spec 2 (version f)); [|lia]. rewrite Hm, computeHMAC_eq.
  simpl. now destruct (bool_decide (hmac f = Some (tagOf f k))).
Qed.

(** When the guard throws, [decryptVaultWithKey] throws the same exception
    having made the same calls: it does not reach the cipher. *)
Lemma decryptVaultWithKey_guard (f : VaultFile) (k : Buffer) t e :
  verifyIntegrity f k = (t, inl e) -> decryptVaultWithKey f k = (t, inl e).
Proof. intros Hg. unfold decryptVaultWithKey. now rewrite Hg. Qed.

(** When the guard passes, the cipher is opened and the text parsed. *)
Lemma decryptVaultWithKey_pass (f : VaultFile) (k : Buffer) t :
  verifyIntegrity f k = (t, inr tt) ->
  decryptVaultWithKey f k =
    match gcm_decrypt k (base64_decode (iv (cipher f)))
                      (base64_decode (authTag (cipher f)))
                      (base64_decode (data (cipher f))) with
    | Some plaintext =>
        (t ++ [CallGcmDecrypt; CallJsonParse],
         match parse_data plaintext with
         | Some d => inr d
         | None => inl SyntaxError
         end)
    | None => (t ++ [CallGcmDecrypt], inl AuthenticationError)
    end.
Proof.
  intros Hg. unfold decryptVaultWithKey, decryptPayload. rewrite Hg.
  destruct (gcm_decrypt _ _ _ _) as [plaintext|]; simpl; [|reflexivity].
  now destruct (parse_data plaintext).
Qed.

(** The guard has four outcomes. *)
Lemma verifyIntegrity_cases (f : VaultFile) (k : Buffer) :
  verifyIntegrity f k = ([], inr tt) /\ version f < 2
  \/ verifyIntegrity f k = ([], inl (IntegrityError HmacMissing))
     /\ 2 <= version f /\ hmac_falsy f = true
  \/ verifyIntegrity f k = ([CallHmac], inr tt)
     /\ 2 <= version f /\ hmac f = Some (tagOf f k)
  \/ verifyIntegrity f k = ([CallHmac], inl (IntegrityError HmacMismatch))
     /\ 2 <= version f /\ hmac f <> Some (tagOf f k).
Proof.
  destruct (Z.lt_ge_cases (version f) 2) as [Hlt|Hge].
  - left. split; [now apply verifyIntegrity_legacy | exact Hlt].
  - right. destruct (hmac_falsy f) eqn:Hm.
    + left. split; [now apply verifyIntegrity_missing | auto].
    + right. rewrite (verifyIntegrity_present f k Hge Hm).
      destruct (bool_decide_reflect (hmac f = Some (tagOf f k))); [left|right]; auto.
Qed.

Lemma deriveKey_eq (pw : string) (params : KdfParams) :
  deriveKey pw params =
    ([CallScrypt],
     match scrypt pw (base64_decode (salt params)) (keyLength params)
                  (kdf_N params) (kdf_r params) (kdf_p params) maxmem with
     | Some k => inr k
     | None => inl DerivationError
     end).
Proof. unfold deriveKey. simpl. now destruct (scrypt _ _ _ _ _ _ _). Qed.

Lemma encryptVaultWithKey_inv rnd d k params f :
  outcome (encryptVaultWithKey rnd d k params) = inr f ->
  exists encrypted tag,
    gcm_encrypt k rnd (stringify_data d) = Some (encrypted, tag)
    /\ cipher f = {| iv := base64_encode rnd;
                     data := base64_encode encrypted;
                     authTag := base64_encode tag |}
    /\ version f = 2 /\ kdf f = params /\ hmac f = Some (tagOf f k).
Proof.
  unfold encryptVaultWithKey, encryptPayload, outcome. simpl.
  destruct (gcm_encrypt k rnd (stringify_data d)) as [[encrypted tag]|];
    simpl; [|discriminate].
  intros [= <-]. exists encrypted, tag. repeat split.
Qed.

Lemma encryptVault_inv r16 r12 d pw f k :
  outcome (encryptVault r16 r12 d pw) = inr (f, k) ->
  outcome (deriveKey pw (generateKdfParams r16)) = inr k
  /\ outcome (encryptVaultWithKey r12 d k (generateKdfParams r16)) = inr f.
Proof.
  unfold encryptVault. rewrite deriveKey_eq.
  destruct (scrypt _ _ _ _ _ _ _) as [k0|]; simpl; [|discriminate].
  destruct (encryptVaultWithKey r12 d k0 _) as [t [e|f0]] eqn:He; simpl;
    [discriminate|].
  intros [= <- <-]. unfold outcome. now rewrite He.
Qed.

(** [encryptVault] returns a file whenever scrypt accepts the default
    parameters and the cipher accepts the key. *)
Lemma encryptVault_returns r16 r12 d pw k encrypted tag :
  scrypt pw (base64_decode (base64_encode r16)) DEFAULT_KDF_keyLength
         DEFAULT_KDF_N DEFAULT_KDF_r DEFAULT_KDF_p maxmem = Some k ->
  gcm_encrypt k r12 (stringify_data d) = Some (encrypted, tag) ->
  exists f, encryptVault r16 r12 d pw
            = ([CallScrypt; CallGcmEncrypt; CallHmac], inr (f, k)).
Proof.
  intros Hk He. unfold encryptVault. rewrite deriveKey_eq. simpl.
  rewrite Hk. unfold encryptVaultWithKey, encryptPayload. simpl.
  rewrite He. simpl. eauto.
Qed.

Lemma decryptVault_eq (f : VaultFile) (pw : string) (k : Buffer) :
  outcome (deriveKey pw (kdf f)) = inr k ->
  outcome (decryptVault f pw) =
    match outcome (decryptVaultWithKey f k) with
    | inl e => inl e
    | inr d => inr (d, k, kdf f)
    end.
Proof.
  unfold decryptVault. rewrite deriveKey_eq.
  destruct (scrypt _ _ _ _ _ _ _) as [k0|]; simpl; [|discriminate].
  intros [= ->]. now destruct (decryptVaultWithKey f k) as [t [e|d]].
Qed.

End CodecFacts.

(** ** The service *)

Section ServiceFacts.
Context `{Platform}.

Lemma bindM_throw {A B} (m : M A) (k : A -> M B) w w' e :
  m w = (w', inl e) -> bindM m k w = (w', inl e).
Proof. intros Hm. unfold bindM. now rewrite Hm. Qed.

Lemma bindM_ret {A B} (m : M A) (k : A -> M B) w w' a :
  m w = (w', inr a) -> bindM m k w = k a w'.
Proof. intros Hm. unfold bindM. now rewrite Hm. Qed.

Lemma mapM_throw {A B} (f : A -> B) (m : M A) w w' e :
  m w = (w', inl e) -> mapM f m w = (w', inl e).
Proof. apply bindM_throw. Qed.

Lemma requireSession_locked tok env w :
  session (service w) = None -> requireSession tok env w = (w, inl LOCKED).
Proof.
  intros Hs. unfold requireSession, bindM, getService. now rewrite Hs.
Qed.

Lemma requireSession_invalid tok env w s :
  session (service w) = Some s -> token s <> tok ->
  requireSession tok env w = (w, inl INVALID_SESSION).
Proof.
  intros Hs Ht. unfold requireSession, bindM, getService. rewrite Hs.
  apply String.eqb_neq in Ht. now rewrite Ht.
Qed.

(** With the session's token, [requireSession] touches the session: the
    last activity becomes the current time and the timer is rescheduled. *)
Lemma requireSession_valid tok env w s :
  session (service w) = Some s -> token s = tok ->
  requireSession tok env w
  = ({| service := touch (now env) (service w); disk := disk w |},
     inr (set_lastActivity (now env) s)).
Proof.
  intros Hs Ht. unfold requireSession, bindM, getService. rewrite Hs.
  apply String.eqb_eq in Ht. now rewrite Ht.
Qed.

(** An operation that presents a token fails as [requireSession] does, in
    the state [requireSession] leaves. *)
Lemma run_requireSession_throw op tok env w w' e :
  presented op = Some tok ->
  requireSession tok env w = (w', inl e) ->
  run op env w = (w', inl e).
Proof.
  intros Hp Hr.
  destruct op; simpl in Hp; try discriminate; injection Hp as ->;
    simpl; apply mapM_throw.
  - unfold touchSession. now apply bindM_throw.
  - unfold getEntries. now apply bindM_throw.
  - unfold getEntriesForDomain. now apply bindM_throw.
  - unfold addEntry. now apply bindM_throw.
  - unfold updateEntry. now apply bindM_throw.
  - unfold deleteEntry. now apply bindM_throw.
Qed.

(** C6. An operation that presents a token (touchSession, getEntries,
    getEntriesForDomain, addEntry, updateEntry, deleteEntry) fails with
    LOCKED when there is no session and with INVALID_SESSION when the token
    is not the session's; in both cases the service and the disk are left
    exactly as they were. *)
Theorem authenticated_ops_require_session op tok env w :
  presented op = Some tok ->
  (session (service w) = None -> run op env w = (w, inl LOCKED))
  /\ (forall s, session (service w) = Some s -> token s <> tok ->
      run op env w = (w, inl INVALID_SESSION)).
Proof.
  intros Hp. split.
  - intros Hs. apply (run_requireSession_throw op tok); [exact Hp|].
    now apply requireSession_locked.
  - intros s Hs Ht. apply (run_requireSession_throw op tok); [exact Hp|].
    now apply requireSession_invalid with s.
Qed.

Lemma install_returns env k params v w :
  exists w', install env k params v w = (w', inr tt) /\ disk w' = disk w.
Proof. unfold install, bindM, getService, putService. simpl. eauto. Qed.

(** The exceptions of the codec and of the storage are their own. *)
Lemma decryptVault_throws f pw e :
  outcome (decryptVault f pw) = inl e -> e <> TypeError /\ e <> NO_VAULT.
Proof.
  unfold decryptVault. rewrite deriveKey_eq.
  destruct (scrypt _ _ _ _ _ _ _) as [k0|]; simpl;
    [|intros [= <-]; split; discriminate].
  unfold outcome, decryptVaultWithKey, verifyIntegrity, computeHMAC,
    decryptPayload, bind, call, ret, throw.
  destruct (2 <=? version f); simpl;
    [destruct (hmac_falsy f); simpl; [intros [= <-]; split; discriminate|];
     destruct (bool_decide _); simpl; [|intros [= <-]; split; discriminate]|];
    (destruct (gcm_decrypt _ _ _ _); simpl;
     [|intros [= <-]; split; discriminate];
     destruct (parse_data _); simpl; [discriminate|];
     intros [= <-]; split; discriminate).
Qed.

Lemma encryptVault_throws r16 r12 d pw e :
  outcome (encryptVault r16 r12 d pw) = inl e -> e <> TypeError /\ e <> NO_VAULT.
Proof.
  unfold encryptVault. rewrite deriveKey_eq.
  destruct (scrypt _ _ _ _ _ _ _) as [k0|]; simpl;
    [|intros [= <-]; split; discriminate].
  unfold outcome, encryptVaultWithKey, encryptPayload, computeHMAC, bind,
    call, ret, throw.
  destruct (gcm_encrypt _ _ _) as [[? ?]|]; simpl; [discriminate|].
  intros [= <-]; split; discriminate.
Qed.

Lemma readVaultFile_throws flt d e :
  readVaultFile flt d = inl e -> e <> TypeError /\ e <> NO_VAULT.
Proof.
  unfold readVaultFile.
  destruct flt; try (intros [= <-]; split; discriminate);
    destruct (vault_path d); try (intros [= <-]; split; discriminate);
    destruct (parse_file _); try discriminate;
    intros [= <-]; split; discriminate.
Qed.

Lemma writeVaultFile_throws flt f d d' e :
  writeVaultFile flt f d = (d', inl e) -> e <> TypeError /\ e <> NO_VAULT.
Proof.
  unfold writeVaultFile.
  destruct flt; intros [= _ ?]; try discriminate; subst e; split; discriminate.
Qed.

(** How [unlock] throws.  Every call that can throw comes before the
    assignment of [this.session], but for the read of
    [vault.entries.length] in the result: on a decrypted value without
    entries it throws a TypeError when the session is already replaced. *)
Lemma unlock_throws pw create env w w' e :
  unlock pw create env w = (w', inl e) ->
  (e <> TypeError -> service w' = service w)
  /\ (e = TypeError ->
      exists f k params,
        vaultExists (fault env) (disk w) = true
        /\ readVaultFile (fault env) (disk w) = inr f
        /\ outcome (decryptVault f pw) = inr (NoEntries, k, params)
        /\ w' = installed env k params NoEntries w)
  /\ (e = NO_VAULT <->
      vaultExists (fault env) (disk w) = false /\ create = false).
Proof.
  unfold unlock, bindM, liftEff, onDisk, throwM, retM, install, getService,
    putService.
  destruct (vaultExists (fault env) (disk w)); simpl.
  - destruct (readVaultFile (fault env) (disk w)) as [e1|vaultFile] eqn:Hr; simpl.
    + intros [= <- <-]. destruct (readVaultFile_throws _ _ _ Hr) as [H1 H2].
      split; [reflexivity|]. split; [intros ->; contradiction|].
      split; [intros ->; contradiction | now intros [? _]].
    + destruct (outcome (decryptVault vaultFile pw)) as [e2|[[v k] params]] eqn:Hd.
      * intros [= <- <-]. destruct (decryptVault_throws _ _ _ Hd) as [H1 H2].
        split; [reflexivity|]. split; [intros ->; contradiction|].
        split; [intros ->; contradiction | now intros [? _]].
      * simpl. destruct v as [es|]; simpl; [discriminate|].
        intros [= <- <-]. split; [contradiction|]. split.
        -- intros _. exists vaultFile, k, params. repeat split; auto.
        -- split; [discriminate | now intros [? _]].
  - destruct create; simpl.
    + destruct (outcome (encryptVault _ _ _ pw)) as [e1|[file k]] eqn:He; simpl.
      * intros [= <- <-]. destruct (encryptVault_throws _ _ _ _ _ He) as [H1 H2].
        split; [reflexivity|]. split; [intros ->; contradiction|].
        split; [intros ->; contradiction | now intros [_ ?]].
      * destruct (writeVaultFile (fault env) file (disk w)) as [d [e2|[]]] eqn:Hw;
          [|discriminate].
        intros [= <- <-]. destruct (writeVaultFile_throws _ _ _ _ _ Hw) as [H1 H2].
        split; [reflexivity|]. split; [intros ->; contradiction|].
        split; [intros ->; contradiction | now intros [_ ?]].
    + intros [= <- <-]. split; [reflexivity|]. split; [discriminate|].
      split; auto.
Qed.


(** When a vault file is on disk and can be read, [unlock] returns the
    exception of [decryptVault] as it is, in an unchanged state. *)
Lemma unlock_propagates pw create env w raw f e :
  fault env <> FailAccess -> fault env <> FailReadFile ->
  vault_path (disk w) = Some raw -> parse_file raw = Some f ->
  outcome (decryptVault f pw) = inl e ->
  unlock pw create env w = (w, inl e).
Proof.
  intros Ha Hr Hraw Hparse He. destruct w as [svc d]. simpl in *.
  unfold unlock, bindM, liftEff, onDisk, vaultExists, readVaultFile. simpl.
  rewrite Hraw, Hparse.
  rewrite bool_decide_eq_true_2 by eauto.
  destruct (fault env); try congruence; simpl; now rewrite He.
Qed.

Lemma diskOk_refl (d : Disk) : diskOk d d.
Proof. split; now left. Qed.

Lemma diskOk_trans (a b c : Disk) : diskOk a b -> diskOk b c -> diskOk a c.
Proof.
  intros [H1 H2] [H3 H4]. split.
  - destruct H3 as [->|H3]; [exact H1 | now right].
  - destruct H4 as [->|[H4|H4]]; [exact H2 | right; now left | right; now right].
Qed.

Lemma writeVaultFile_diskOk flt f d d' r :
  version f = 2 -> is_Some (hmac f) ->
  writeVaultFile flt f d = (d', r) -> diskOk d d'.
Proof.
  intros Hv Hm Hw. unfold writeVaultFile in Hw.
  assert (currentFile (Some (stringify_file f))) as Hnew
    by (exists f; auto).
  destruct flt; injection Hw as <- <-; split; simpl; auto.
Qed.

Lemma writesOk_same_disk {A} (m : M A) :
  (forall w w' r, m w = (w', r) -> disk w' = disk w) -> writesOk m.
Proof. intros Hm w w' r Hr. rewrite (Hm _ _ _ Hr). apply diskOk_refl. Qed.

Lemma writesOk_bind {A B} (P : A -> Prop) (m : M A) (k : A -> M B) :
  writesOk m ->
  (forall w w' a, m w = (w', inr a) -> P a) ->
  (forall a, P a -> writesOk (k a)) ->
  writesOk (bindM m k).
Proof.
  intros Hm HP Hk w w' r. unfold bindM.
  destruct (m w) as [w1 [e|a]] eqn:Hmw.
  - intros [= <- <-]. now apply (Hm _ _ _ Hmw).
  - intros Hka. eapply diskOk_trans; [now apply (Hm _ _ _ Hmw)|].
    eapply (Hk a); eauto.
Qed.

Lemma writesOk_bind' {A B} (m : M A) (k : A -> M B) :
  writesOk m -> (forall a, writesOk (k a)) -> writesOk (bindM m k).
Proof. intros Hm Hk. apply (writesOk_bind (fun _ => True)); auto. Qed.

Lemma writesOk_retM {A} (a : A) : writesOk (retM a).
Proof. apply writesOk_same_disk. now intros w w' r [= <- _]. Qed.

Lemma writesOk_throwM {A} (e : Error) : writesOk (@throwM A e).
Proof. apply writesOk_same_disk. now intros w w' r [= <- _]. Qed.

Lemma writesOk_liftEff {A} (m : Eff A) : writesOk (liftEff m).
Proof. apply writesOk_same_disk. now intros w w' r [= <- _]. Qed.

Lemma writesOk_getService : writesOk getService.
Proof. apply writesOk_same_disk. now intros w w' r [= <- _]. Qed.

Lemma writesOk_putService s : writesOk (putService s).
Proof. apply writesOk_same_disk. now intros w w' r [= <- _]. Qed.

Lemma writesOk_mapM {A B} (f : A -> B) (m : M A) : writesOk m -> writesOk (mapM f m).
Proof. intros Hm. apply writesOk_bind'; auto using writesOk_retM. Qed.

Lemma writesOk_requireSession tok env : writesOk (requireSession tok env).
Proof.
  unfold requireSession. apply writesOk_bind'; [apply writesOk_getService|].
  intros svc. destruct (session svc); [|apply writesOk_throwM].
  destruct (negb _); [apply writesOk_throwM|].
  apply writesOk_bind'; auto using writesOk_putService, writesOk_retM.
Qed.

Lemma writesOk_updateVault v : writesOk (updateVault v).
Proof.
  unfold updateVault. apply writesOk_bind'; [apply writesOk_getService|].
  intros svc. destruct (session svc); [|apply writesOk_throwM].
  apply writesOk_bind'; auto using writesOk_putService, writesOk_retM.
Qed.

Lemma writesOk_vaultEntries v : writesOk (vaultEntries v).
Proof. destruct v; [apply writesOk_retM | apply writesOk_throwM]. Qed.

Lemma writesOk_install env k params v : writesOk (install env k params v).
Proof.
  unfold install. apply writesOk_bind'; [apply writesOk_getService|].
  intros svc. apply writesOk_putService.
Qed.

Lemma writesOk_write flt f :
  version f = 2 -> is_Some (hmac f) -> writesOk (onDisk (writeVaultFile flt f)).
Proof.
  intros Hv Hm w w' r. unfold onDisk.
  destruct (writeVaultFile flt f (disk w)) as [d r'] eqn:Hw.
  intros [= <- <-]. simpl. now apply (writeVaultFile_diskOk flt f _ _ r').
Qed.

Lemma encryptVaultWithKey_current rnd d k params f :
  outcome (encryptVaultWithKey rnd d k params) = inr f ->
  version f = 2 /\ hmac f = Some (tagOf f k).
Proof. intros (_ & _ & _ & _ & Hv & _ & Hm)%encryptVaultWithKey_inv. auto. Qed.

Lemma encryptVault_current r16 r12 d pw f k :
  outcome (encryptVault r16 r12 d pw) = inr (f, k) ->
  version f = 2 /\ hmac f = Some (tagOf f k).
Proof. intros [_ He]%encryptVault_inv. now apply encryptVaultWithKey_current in He. Qed.

Lemma writesOk_persist s env : writesOk (persist s env).
Proof.
  unfold persist.
  apply (writesOk_bind (fun f => version f = 2 /\ is_Some (hmac f)));
    [apply writesOk_liftEff| |].
  - intros w w' f [= _ He]. apply encryptVaultWithKey_current in He as [Hv Hm].
    rewrite Hm. eauto.
  - intros f [Hv Hm]. now apply writesOk_write.
Qed.

Lemma writesOk_unlock pw create env : writesOk (unlock pw create env).
Proof.
  intros w w' r. unfold unlock.
  destruct (negb (vaultExists (fault env) (disk w))).
  - destruct (negb create); [apply writesOk_throwM|].
    apply (writesOk_bind
             (fun enc => version (fst enc) = 2 /\ is_Some (hmac (fst enc))));
      [apply writesOk_liftEff| |].
    + intros w0 w1 [f k] [= _ He]. apply encryptVault_current in He as [Hv Hm].
      simpl. rewrite Hm. eauto.
    + intros [f k] [Hv Hm]. simpl in *.
      apply writesOk_bind'; [now apply writesOk_write|]. intros _.
      apply writesOk_bind'; auto using writesOk_install, writesOk_retM.
  - apply writesOk_bind'.
    + apply writesOk_same_disk. intros w0 w1 r0. unfold onDisk.
      now intros [= <- _].
    + intros vaultFile. apply writesOk_bind'; [apply writesOk_liftEff|].
      intros [[v k] params].
      apply writesOk_bind'; [apply writesOk_install|]. intros _.
      apply writesOk_bind'; auto using writesOk_vaultEntries, writesOk_retM.
Qed.

Lemma writesOk_run op env : writesOk (run op env).
Proof.
  destruct op; simpl.
  - apply writesOk_mapM, writesOk_unlock.
  - apply writesOk_same_disk. now intros w w' r [= <- _].
  - apply writesOk_mapM. unfold touchSession.
    apply writesOk_bind'; auto using writesOk_requireSession, writesOk_retM.
  - apply writesOk_mapM. unfold getEntries.
    apply writesOk_bind'; [apply writesOk_requireSession|]. intros s.
    apply writesOk_bind'; auto using writesOk_vaultEntries, writesOk_retM.
  - apply writesOk_mapM. unfold getEntriesForDomain.
    apply writesOk_bind'; [apply writesOk_requireSession|]. intros s.
    apply writesOk_bind'; auto using writesOk_vaultEntries, writesOk_retM.
  - apply writesOk_mapM. unfold addEntry.
    apply writesOk_bind'; [apply writesOk_requireSession|]. intros s.
    apply writesOk_bind'; [apply writesOk_vaultEntries|]. intros es.
    apply writesOk_bind'; [apply writesOk_updateVault|]. intros s'.
    apply writesOk_bind'; auto using writesOk_persist, writesOk_retM.
  - apply writesOk_mapM. unfold updateEntry.
    apply writesOk_bind'; [apply writesOk_requireSession|]. intros s.
    apply writesOk_bind'; [apply writesOk_vaultEntries|]. intros es.
    destruct (findIndex _ _) as [idx|]; [|apply writesOk_throwM].
    destruct (_ !! idx) as [existing|]; [|apply writesOk_throwM].
    apply writesOk_bind'; [apply writesOk_updateVault|]. intros s'.
    apply writesOk_bind'; auto using writesOk_persist, writesOk_retM.
  - apply writesOk_mapM. unfold deleteEntry.
    apply writesOk_bind'; [apply writesOk_requireSession|]. intros s.
    apply writesOk_bind'; [apply writesOk_vaultEntries|]. intros es.
    apply writesOk_bind'; [apply writesOk_updateVault|]. intros s'.
    destruct (_ =? _)%nat; auto using writesOk_persist, writesOk_throwM.
Qed.

(** C8. What the program writes is current: a file built by
    [encryptVaultWithKey] or [encryptVault] has version 2 and carries the
    tag of its own contents; and after any operation of the service, in
    any environment, whether it returns or throws, the text at the vault
    path and the text at the temporary path are either the ones found
    before or the serialisation of a version 2 file that carries a tag (the
    temporary path may also be empty after the rename).  No operation writes a version 1 file. *)
Theorem writes_are_version2 :
  (forall rnd d k params f,
     outcome (encryptVaultWithKey rnd d k params) = inr f ->
     version f = 2 /\ hmac f = Some (tagOf f k))
  /\ (forall r16 r12 d pw f k,
        outcome (encryptVault r16 r12 d pw) = inr (f, k) ->
        version f = 2 /\ hmac f = Some (tagOf f k))
  /\ (forall op env w w' r,
        run op env w = (w', r) -> diskOk (disk w) (disk w')).
Proof.
  split; [exact encryptVaultWithKey_current|].
  split; [exact encryptVault_current|].
  intros op env w w' r. apply writesOk_run.
Qed.

End ServiceFacts.

(** ** The codec under the usual idealisation of the primitives

    base64 decoding inverts encoding; AES-GCM decryption inverts encryption
    under the same key and iv; a base64 HMAC digest is not the empty string;
    the MAC has no collisions, neither between two messages under one key
    nor between two keys on one message; the text the MAC covers determines
    version, kdf and cipher; scrypt sends distinct passwords to distinct
    keys, and whether it rejects depends on the parameters only.  Each
    theorem depends on the assumptions its proof uses and on no other. *)

Section IdealCrypto.
Context `{Platform}.

Hypothesis base64_roundtrip : forall b, base64_decode (base64_encode b) = b.

Hypothesis gcm_roundtrip : forall k nonce plain encrypted tag,
  gcm_encrypt k nonce plain = Some (encrypted, tag) ->
  gcm_decrypt k nonce tag encrypted = Some plain.

Hypothesis mac_nonempty : forall k msg,
  Js.truthy (base64_encode (hmac_sha256 k msg)) = true.

Hypothesis hmac_message_inj : forall k m m',
  hmac_sha256 k m = hmac_sha256 k m' -> m = m'.

Hypothesis hmac_key_inj : forall k k' m,
  hmac_sha256 k m = hmac_sha256 k' m -> k = k'.

Hypothesis header_inj : forall v p c v' p' c',
  stringify_header v p c = stringify_header v' p' c' ->
  v = v' /\ p = p' /\ c = c'.

Hypothesis scrypt_inj : forall pw pw' s len n r p cap k,
  scrypt pw s len n r p cap = Some k ->
  scrypt pw' s len n r p cap = Some k -> pw = pw'.

Hypothesis scrypt_accepts : forall pw pw' s len n r p cap,
  is_Some (scrypt pw s len n r p cap) -> is_Some (scrypt pw' s len n r p cap).

Lemma base64_encode_inj (b b' : Buffer) :
  base64_encode b = base64_encode b' -> b = b'.
Proof.
  intros Heq. rewrite <- (base64_roundtrip b), <- (base64_roundtrip b').
  now rewrite Heq.
Qed.

Lemma tagged_not_falsy (f : VaultFile) (k : Buffer) :
  hmac f = Some (tagOf f k) -> hmac_falsy f = false.
Proof.
  intros Hf. unfold hmac_falsy. rewrite Hf. unfold tagOf.
  now rewrite mac_nonempty.
Qed.

(** A payload sealed by [encryptPayload] is opened by [decryptPayload]
    under the same key. *)
Lemma decryptPayload_encryptPayload rnd plain k payload :
  outcome (encryptPayload rnd plain k) = inr payload ->
  decryptPayload payload k = ([CallGcmDecrypt], inr plain).
Proof.
  unfold encryptPayload, decryptPayload, outcome. simpl.
  destruct (gcm_encrypt k rnd plain) as [[encrypted tag]|] eqn:He; simpl;
    [|discriminate].
  intros [= <-]. simpl. rewrite !base64_roundtrip.
  now rewrite (gcm_roundtrip _ _ _ _ _ He).
Qed.

Lemma gcm_decrypt_sealed rnd plain k payload :
  outcome (encryptPayload rnd plain k) = inr payload ->
  gcm_decrypt k (base64_decode (iv payload)) (base64_decode (authTag payload))
              (base64_decode (data payload)) = Some plain.
Proof.
  intros Hs. pose proof (decryptPayload_encryptPayload _ _ _ _ Hs) as Hd.
  unfold decryptPayload in Hd. simpl in Hd.
  destruct (gcm_decrypt _ _ _ _) as [p|]; simpl in Hd; congruence.
Qed.

(** A file whose guard passes and whose payload was sealed under the key
    decrypts to the data that was sealed. *)
Lemma decryptVaultWithKey_sealed f k t rnd d :
  verifyIntegrity f k = (t, inr tt) ->
  outcome (encryptPayload rnd (stringify_data d) k) = inr (cipher f) ->
  parse_data (stringify_data d) = Some d ->
  decryptVaultWithKey f k = (t ++ [CallGcmDecrypt; CallJsonParse], inr d).
Proof.
  intros Hg Hs Hj. rewrite (decryptVaultWithKey_pass f k t Hg).
  now rewrite (gcm_decrypt_sealed _ _ _ _ Hs), Hj.
Qed.

Lemma encryptVaultWithKey_sealed rnd d k params f :
  outcome (encryptVaultWithKey rnd d k params) = inr f ->
  outcome (encryptPayload rnd (stringify_data d) k) = inr (cipher f).
Proof.
  intros (encrypted & tag & He & Hc & _)%encryptVaultWithKey_inv.
  unfold encryptPayload, outcome. simpl. rewrite He. simpl. now rewrite Hc.
Qed.

(** C3. Round trip: the file that [encryptVault] produces for a vault and a
    password decrypts, under the same password, to exactly that vault (with
    the key and the kdf parameters of the file), for every vault that JSON
    serialisation round-trips. *)
Theorem decrypt_encrypt_roundtrip r16 r12 d pw f k :
  parse_data (stringify_data d) = Some d ->
  outcome (encryptVault r16 r12 d pw) = inr (f, k) ->
  outcome (decryptVault f pw) = inr (d, k, kdf f).
Proof.
  intros Hj [Hk He]%encryptVault_inv.
  pose proof (encryptVaultWithKey_sealed _ _ _ _ _ He) as Hs.
  apply encryptVaultWithKey_inv in He as (_ & _ & _ & _ & Hv & Hp & Hm).
  rewrite (decryptVault_eq f pw k) by now rewrite Hp.
  assert (verifyIntegrity f k = ([CallHmac], inr tt)) as Hg.
  { rewrite verifyIntegrity_present; [|lia|now apply tagged_not_falsy with k].
    now rewrite bool_decide_eq_true_2. }
  now rewrite (decryptVaultWithKey_sealed f k _ r12 d Hg Hs Hj).
Qed.

(** A file below version 2 is decrypted without any integrity check,
    whatever its [hmac] field holds. *)
Lemma legacy_decrypts_unchecked f pw k rnd d :
  version f < 2 ->
  outcome (deriveKey pw (kdf f)) = inr k ->
  outcome (encryptPayload rnd (stringify_data d) k) = inr (cipher f) ->
  parse_data (stringify_data d) = Some d ->
  decryptVaultWithKey f k = ([CallGcmDecrypt; CallJsonParse], inr d)
  /\ outcome (decryptVault f pw) = inr (d, k, kdf f).
Proof.
  intros Hv Hk Hs Hj.
  pose proof (decryptVaultWithKey_sealed f k [] rnd d
                (verifyIntegrity_legacy f k Hv) Hs Hj) as Hd.
  split; [exact Hd|]. rewrite (decryptVault_eq f pw k Hk). now rewrite Hd.
Qed.

(** C9. Back-compatibility: a version 1 file with no integrity tag, whose
    payload holds a vault sealed under the key derived from the password,
    decrypts with that password to the vault; the MAC is not computed. *)
Theorem legacy_v1_decrypts f pw k rnd d :
  version f = 1 ->
  hmac f = None ->
  outcome (deriveKey pw (kdf f)) = inr k ->
  outcome (encryptPayload rnd (stringify_data d) k) = inr (cipher f) ->
  parse_data (stringify_data d) = Some d ->
  outcome (decryptVault f pw) = inr (d, k, kdf f)
  /\ decryptVaultWithKey f k = ([CallGcmDecrypt; CallJsonParse], inr d).
Proof.
  intros Hv _ Hk Hs Hj.
  destruct (legacy_decrypts_unchecked f pw k rnd d) as [Hd Hp]; auto; lia.
Qed.

Lemma tagOf_withCipherData_neq f k d' :
  d' <> data (cipher f) -> tagOf (withCipherData f d') k <> tagOf f k.
Proof.
  intros Hd Heq. unfold tagOf in Heq.
  apply base64_encode_inj, hmac_message_inj, header_inj in Heq
    as (_ & _ & Hc).
  apply Hd. now rewrite <- Hc.
Qed.

(** Every run of [decryptVaultWithKey] makes its calls in the order guard,
    cipher, parser: the calls made are a prefix of that sequence, and the
    cipher is reached only when the guard passed. *)
Lemma decryptVaultWithKey_order f k :
  2 <= version f ->
  In CallGcmDecrypt (trace (decryptVaultWithKey f k))
  \/ In CallJsonParse (trace (decryptVaultWithKey f k)) ->
  hmac f = Some (tagOf f k)
  /\ exists rest, trace (decryptVaultWithKey f k)
                  = CallHmac :: CallGcmDecrypt :: rest.
Proof.
  intros Hv Hin.
  destruct (verifyIntegrity_cases f k)
    as [[Hg ?]|[[Hg _]|[[Hg [_ Hm]]|[Hg _]]]]; [lia| | |].
  - rewrite (decryptVaultWithKey_guard _ _ _ _ Hg) in Hin. simpl in Hin. tauto.
  - split; [exact Hm|]. rewrite (decryptVaultWithKey_pass _ _ _ Hg).
    destruct (gcm_decrypt _ _ _ _); simpl; eauto.
  - rewrite (decryptVaultWithKey_guard _ _ _ _ Hg) in Hin. simpl in Hin.
    destruct Hin as [[|[]]|[|[]]]; discriminate.
Qed.

(** C2. Tamper detection for version 2 and later, under any key: a file
    whose tag is missing (absent or removed) fails with the integrity error
    without any call to the crypto library; a file whose tag verifies under
    the key and whose ciphertext is then altered in any way fails with the
    integrity error after the MAC alone was computed; and whenever the
    cipher is opened or the plaintext parsed, the stored tag equals the
    recomputed MAC and the MAC was computed first. *)
Theorem tamper_detected f k :
  2 <= version f ->
  (hmac_falsy f = true ->
   decryptVaultWithKey f k = ([], inl (IntegrityError HmacMissing)))
  /\ decryptVaultWithKey (withoutHmac f) k
     = ([], inl (IntegrityError HmacMissing))
  /\ (forall d', hmac f = Some (tagOf f k) -> d' <> data (cipher f) ->
      decryptVaultWithKey (withCipherData f d') k
      = ([CallHmac], inl (IntegrityError HmacMismatch)))
  /\ (In CallGcmDecrypt (trace (decryptVaultWithKey f k))
      \/ In CallJsonParse (trace (decryptVaultWithKey f k)) ->
      hmac f = Some (tagOf f k)
      /\ exists rest, trace (decryptVaultWithKey f k)
                      = CallHmac :: CallGcmDecrypt :: rest).
Proof.
  intros Hv. repeat split.
  - intros Hm. apply decryptVaultWithKey_guard.
    now apply verifyIntegrity_missing.
  - apply decryptVaultWithKey_guard. now apply verifyIntegrity_missing.
  - intros d' Hm Hd. apply decryptVaultWithKey_guard.
    rewrite verifyIntegrity_present; [|exact Hv|].
    + rewrite bool_decide_eq_false_2; [reflexivity|].
      simpl. rewrite Hm. intros [= Heq].
      now apply (tagOf_withCipherData_neq f k d' Hd).
    + unfold hmac_falsy. simpl. exact (tagged_not_falsy f k Hm).
  - now apply decryptVaultWithKey_order.
  - now apply decryptVaultWithKey_order.
Qed.

Lemma tagOf_key_neq f k k' : k' <> k -> tagOf f k' <> tagOf f k.
Proof.
  intros Hk Heq. unfold tagOf in Heq.
  now apply base64_encode_inj, hmac_key_inj in Heq.
Qed.

(** Under a key other than the one that tagged it, a version 2 file is
    stopped by the integrity check. *)
Lemma decryptVaultWithKey_other_key f k k' :
  2 <= version f -> hmac f = Some (tagOf f k) -> k' <> k ->
  decryptVaultWithKey f k' = ([CallHmac], inl (IntegrityError HmacMismatch)).
Proof.
  intros Hv Hm Hk. apply decryptVaultWithKey_guard.
  rewrite verifyIntegrity_present;
    [|exact Hv|now apply tagged_not_falsy with k].
  rewrite bool_decide_eq_false_2; [reflexivity|].
  rewrite Hm. intros [= Heq]. now apply (tagOf_key_neq f k k' Hk).
Qed.

(** C1, as the code has it. A wrong password is stopped by the integrity
    check, which comes first: decrypting the file that [encryptVault]
    produced under one password with any other password derives another
    key, computes the MAC under it, and fails with the integrity error
    "file may have been tampered with"; the cipher is never opened, so the
    authentication error of the cipher cannot occur.  [unlock] returns
    that same error, in an unchanged state. *)
Theorem wrong_password_rejected r16 r12 d pw wrong f k :
  wrong <> pw ->
  outcome (encryptVault r16 r12 d pw) = inr (f, k) ->
  decryptVault f wrong
  = ([CallScrypt; CallHmac], inl (IntegrityError HmacMismatch))
  /\ (forall create env w raw,
        fault env = NoFault ->
        vault_path (disk w) = Some raw -> parse_file raw = Some f ->
        unlock wrong create env w = (w, inl (IntegrityError HmacMismatch))).
Proof.
  intros Hne Henc.
  pose proof (encryptVault_current _ _ _ _ _ _ Henc) as [Hv Hm].
  apply encryptVault_inv in Henc as [Hk He].
  apply encryptVaultWithKey_inv in He as (_ & _ & _ & _ & _ & Hp & _).
  rewrite deriveKey_eq, <- Hp in Hk. simpl in Hk.
  destruct (scrypt pw _ _ _ _ _ _) as [k0|] eqn:Hpw; [|discriminate].
  injection Hk as ->.
  destruct (scrypt_accepts pw wrong _ _ _ _ _ _ (mk_is_Some _ _ Hpw))
    as [k' Hwrong].
  assert (k' <> k) as Hkk.
  { intros ->. apply Hne. exact (scrypt_inj _ _ _ _ _ _ _ _ _ Hwrong Hpw). }
  assert (decryptVault f wrong
          = ([CallScrypt; CallHmac], inl (IntegrityError HmacMismatch))) as Hd.
  { unfold decryptVault. rewrite deriveKey_eq, Hwrong. simpl.
    rewrite (decryptVaultWithKey_other_key f k k'); [reflexivity|lia|auto..]. }
  split; [exact Hd|].
  intros create env w raw Hf Hraw Hparse.
  apply (unlock_propagates wrong create env w raw f); auto.
  - rewrite Hf. discriminate.
  - rewrite Hf. discriminate.
  - unfold outcome. now rewrite Hd.
Qed.

End IdealCrypto.

(** ** The unlock throttle *)

Section RateLimiterFacts.
Variable k : string.

Lemma isBlocked_unblocked (e : RateLimitEntry) (t : Z) :
  blockedUntil e = None -> isBlocked (Some e) t = None.
Proof. intros Hb. unfold isBlocked. now rewrite Hb. Qed.

Lemma isBlocked_future (e : RateLimitEntry) (b t : Z) :
  blockedUntil e = Some b -> 0 <= t -> t < b -> isBlocked (Some e) t = Some b.
Proof.
  intros Hb H0 Hlt. unfold isBlocked. rewrite Hb.
  destruct (Z.eqb_spec b 0) as [->|_]; [lia|].
  destruct (Z.ltb_spec t b); [reflexivity | lia].
Qed.

Lemma ceilSeconds_positive (ms : Z) : 0 < ms -> 1 <= ceilSeconds ms.
Proof.
  intros Hms. unfold ceilSeconds.
  assert (- ms / 1000 < 0) by (apply Z.div_lt_upper_bound; lia). lia.
Qed.

(** The first request of a client opens a window and passes. *)
Lemma middlewareKey_first (t : Z) (rl : RateLimiter) :
  attempts rl !! k = None ->
  middlewareKey k t rl
  = (set_attempts
       (<[k := {| count := 1; resetAt := t + windowMs rl;
                  blockedUntil := None |}]> (attempts rl)) rl,
     Next).
Proof. intros Hk. unfold middlewareKey. now rewrite Hk. Qed.

(** A request inside the window, at or below the threshold, is counted and
    passes. *)
Lemma middlewareKey_within (t : Z) (rl : RateLimiter) (e : RateLimitEntry) :
  attempts rl !! k = Some e -> blockedUntil e = None ->
  t <= resetAt e -> count e + 1 <= maxAttempts rl ->
  middlewareKey k t rl
  = (set_attempts
       (<[k := {| count := count e + 1; resetAt := resetAt e;
                  blockedUntil := None |}]> (attempts rl)) rl,
     Next).
Proof.
  intros Hk Hb Ht Hc. unfold middlewareKey.
  rewrite Hk, (isBlocked_unblocked e t Hb).
  destruct (Z.ltb_spec (resetAt e) t); [lia|].
  destruct (Z.ltb_spec (maxAttempts rl) (count e + 1)); [lia|].
  now rewrite Hb.
Qed.

(** A request inside the window that takes the count over the threshold
    is denied, and the client is blocked from now for the block duration. *)
Lemma middlewareKey_exceeds (t : Z) (rl : RateLimiter) (e : RateLimitEntry) :
  attempts rl !! k = Some e -> blockedUntil e = None ->
  t <= resetAt e -> maxAttempts rl < count e + 1 ->
  middlewareKey k t rl
  = (set_attempts
       (<[k := {| count := count e + 1; resetAt := resetAt e;
                  blockedUntil := Some (t + blockDurationMs rl) |}]>
          (attempts rl)) rl,
     TooManyRequests (ceilSeconds (blockDurationMs rl))).
Proof.
  intros Hk Hb Ht Hc. unfold middlewareKey.
  rewrite Hk, (isBlocked_unblocked e t Hb).
  destruct (Z.ltb_spec (resetAt e) t); [lia|].
  destruct (Z.ltb_spec (maxAttempts rl) (count e + 1)); [reflexivity|lia].
Qed.

(** While the block lasts, every request is denied and nothing changes,
    whatever the count and the window. *)
Lemma middlewareKey_blocked (t b : Z) (rl : RateLimiter) (e : RateLimitEntry) :
  attempts rl !! k = Some e -> blockedUntil e = Some b ->
  0 <= t -> t < b ->
  middlewareKey k t rl = (rl, TooManyRequests (ceilSeconds (b - t))).
Proof.
  intros Hk Hb H0 Hlt. unfold middlewareKey.
  now rewrite Hk, (isBlocked_future e b t Hb H0 Hlt).
Qed.

(** Requests of a counted, unblocked client that all fall inside its window
    and stay at or below the threshold all pass, and are all counted. *)
Lemma requests_within (ts : list Z) :
  forall (rl : RateLimiter) (e : RateLimitEntry),
    attempts rl !! k = Some e -> blockedUntil e = None ->
    (forall t, In t ts -> t <= resetAt e) ->
    count e + Z.of_nat (length ts) <= maxAttempts rl ->
    exists rl',
      requests k ts rl = (rl', repeat Next (length ts))
      /\ attempts rl' !! k
         = Some {| count := count e + Z.of_nat (length ts);
                   resetAt := resetAt e; blockedUntil := None |}
      /\ windowMs rl' = windowMs rl
      /\ maxAttempts rl' = maxAttempts rl
      /\ blockDurationMs rl' = blockDurationMs rl.
Proof.
  induction ts as [|t ts IH]; intros rl e Hk Hb Hin Hc.
  - exists rl. simpl. rewrite Z.add_0_r.
    destruct e as [c r b]. simpl in *. subst b. auto.
  - simpl length in Hc. rewrite Nat2Z.inj_succ in Hc.
    simpl. rewrite (middlewareKey_within t rl e Hk Hb);
      [|apply Hin; now left|lia].
    set (e1 := {| count := count e + 1; resetAt := resetAt e;
                  blockedUntil := None |}).
    set (rl1 := set_attempts (<[k:=e1]> (attempts rl)) rl).
    destruct (IH rl1 e1) as (rl' & Hr & Hk' & Hw & Hm & Hbd).
    + unfold rl1. simpl. apply lookup_insert_eq.
    + reflexivity.
    + intros t' Ht'. simpl. apply Hin. now right.
    + simpl. lia.
    + exists rl'. rewrite Hr. simpl in *.
      repeat split; auto. rewrite Hk'. do 2 f_equal. lia.
Qed.

(** The first [n] requests of a new client inside one window, for [n] up
    to the threshold. *)
Lemma requests_fresh (t1 : Z) (ts : list Z) (rl : RateLimiter) :
  attempts rl !! k = None ->
  (forall t, In t ts -> t <= t1 + windowMs rl) ->
  Z.of_nat (length (t1 :: ts)) <= maxAttempts rl ->
  exists rl',
    requests k (t1 :: ts) rl = (rl', repeat Next (length (t1 :: ts)))
    /\ attempts rl' !! k
       = Some {| count := Z.of_nat (length (t1 :: ts));
                 resetAt := t1 + windowMs rl; blockedUntil := None |}
    /\ windowMs rl' = windowMs rl
    /\ maxAttempts rl' = maxAttempts rl
    /\ blockDurationMs rl' = blockDurationMs rl.
Proof.
  intros Hk Hin Hc. simpl length in *. rewrite Nat2Z.inj_succ in *.
  simpl. rewrite (middlewareKey_first t1 rl Hk).
  set (e1 := {| count := 1; resetAt := t1 + windowMs rl;
                blockedUntil := None |}).
  set (rl1 := set_attempts (<[k:=e1]> (attempts rl)) rl).
  destruct (requests_within ts rl1 e1) as (rl' & Hr & Hk' & Hw & Hm & Hbd).
  - unfold rl1. simpl. apply lookup_insert_eq.
  - reflexivity.
  - exact Hin.
  - simpl. lia.
  - exists rl'. rewrite Hr. simpl in *.
    repeat split; auto. rewrite Hk'. do 2 f_equal. lia.
Qed.

(** C7. For a limiter with threshold at least 1 and a client it has no
    entry for: (a) the first M requests inside one window all pass; (b)
    after exactly M such requests, one more inside the window is denied
    with a retry-after of the block duration, and the client is blocked
    until that request's time plus the block duration; (c) in any state,
    while a client's block deadline is in the future its request is denied
    with the remaining time as retry-after (at least one second), and the
    state does not change, whatever its count and window; (d) a reset
    removes the client's entry, so that its next request, at any time,
    passes as a first request with count 1 and no block. *)
Theorem throttle_correct (rl : RateLimiter) :
  1 <= maxAttempts rl ->
  (forall t1 ts,
     attempts rl !! k = None ->
     (forall t, In t ts -> t <= t1 + windowMs rl) ->
     Z.of_nat (length (t1 :: ts)) <= maxAttempts rl ->
     snd (requests k (t1 :: ts) rl) = repeat Next (length (t1 :: ts)))
  /\ (forall t1 ts t,
        attempts rl !! k = None ->
        (forall t', In t' ts -> t' <= t1 + windowMs rl) ->
        Z.of_nat (length (t1 :: ts)) = maxAttempts rl ->
        t <= t1 + windowMs rl ->
        exists rl' e,
          middlewareKey k t (fst (requests k (t1 :: ts) rl))
          = (rl', TooManyRequests (ceilSeconds (blockDurationMs rl)))
          /\ attempts rl' !! k = Some e
          /\ blockedUntil e = Some (t + blockDurationMs rl))
  /\ (forall e b t,
        attempts rl !! k = Some e -> blockedUntil e = Some b ->
        0 <= t -> t < b ->
        middlewareKey k t rl = (rl, TooManyRequests (ceilSeconds (b - t)))
        /\ 1 <= ceilSeconds (b - t))
  /\ (attempts (resetKey k rl) !! k = None
      /\ forall t,
           middlewareKey k t (resetKey k rl)
           = (set_attempts
                (<[k := {| count := 1; resetAt := t + windowMs rl;
                           blockedUntil := None |}]>
                   (attempts (resetKey k rl))) (resetKey k rl),
              Next)).
Proof.
  intros HM. repeat split.
  - intros t1 ts Hk Hin Hc.
    destruct (requests_fresh t1 ts rl Hk Hin Hc) as (rl' & Hr & _).
    now rewrite Hr.
  - intros t1 ts t Hk Hin Hc Ht.
    destruct (requests_fresh t1 ts rl Hk Hin) as (rl' & Hr & Hk' & Hw & Hm & Hb);
      [lia|].
    rewrite Hr. simpl fst.
    eexists. eexists. split; [|split].
    + rewrite (middlewareKey_exceeds t rl' _ Hk');
        cbn [count resetAt blockedUntil]; [|reflexivity|lia|lia].
      rewrite Hb. reflexivity.
    + cbn [attempts set_attempts]. apply lookup_insert_eq.
    + reflexivity.
  - now apply middlewareKey_blocked with e.
  - apply ceilSeconds_positive. lia.
  - unfold resetKey. simpl. apply lookup_delete_eq.
  - intros t. rewrite middlewareKey_first; [reflexivity|].
    unfold resetKey. simpl. apply lookup_delete_eq.
Qed.

End RateLimiterFacts.

(** ** The small platform satisfies the idealisation *)

Module ToyFacts.
Import Toy.

Lemma bytes_text (b : Buffer) : bytes (text b) = b.
Proof. apply String.list_byte_of_string_of_list_byte. Qed.

Lemma text_bytes (s : string) : text (bytes s) = s.
Proof. apply String.string_of_list_byte_of_string. Qed.

Lemma bytes_inj (s s' : string) : bytes s = bytes s' -> s = s'.
Proof. intros Heq. rewrite <- (text_bytes s), <- (text_bytes s'). now rewrite Heq. Qed.

Lemma base64_roundtrip : forall b, @base64_decode platform (@base64_encode platform b) = b.
Proof. exact bytes_text. Qed.

Lemma gcm_roundtrip : forall k nonce plain encrypted tag,
  @gcm_encrypt platform k nonce plain = Some (encrypted, tag) ->
  @gcm_decrypt platform k nonce tag encrypted = Some plain.
Proof.
  intros k nonce plain encrypted tag [= <- <-]. simpl.
  rewrite bool_decide_eq_true_2 by reflexivity. now rewrite text_bytes.
Qed.

Lemma mac_nonempty : forall k msg,
  Js.truthy (@base64_encode platform (@hmac_sha256 platform k msg)) = true.
Proof. reflexivity. Qed.

Lemma hmac_message_inj : forall k m m',
  @hmac_sha256 platform k m = @hmac_sha256 platform k m' -> m = m'.
Proof.
  intros k m m' [= Heq]. apply app_inv_head in Heq. now apply bytes_inj.
Qed.

Lemma hmac_key_inj : forall k k' m,
  @hmac_sha256 platform k m = @hmac_sha256 platform k' m -> k = k'.
Proof. intros k k' m [= Heq]. now apply app_inv_tail in Heq. Qed.

Lemma enc_nil (r : string) : enc EmptyString +:+ r = String "0" r.
Proof. reflexivity. Qed.

Lemma enc_cons (c : ascii) (s r : string) :
  enc (String c s) +:+ r = String "1" (String c (enc s +:+ r)).
Proof. reflexivity. Qed.

Lemma enc_app_inj (s s' r r' : string) :
  enc s +:+ r = enc s' +:+ r' -> s = s' /\ r = r'.
Proof.
  revert s'. induction s as [|c s IH]; intros [|c' s'];
    rewrite ?enc_nil, ?enc_cons; try discriminate.
  - now intros [= ->].
  - intros [= -> Heq]. destruct (IH _ Heq) as [-> ->]. auto.
Qed.

Lemma header_inj : forall v p c v' p' c',
  @stringify_header platform v p c = @stringify_header platform v' p' c' ->
  v = v' /\ p = p' /\ c = c'.
Proof.
  intros v [sa n r p kl] [i d t] v' [sa' n' r' p' kl'] [i' d' t'].
  simpl. unfold encAll, showHeader. simpl. intros Heq.
  repeat match type of Heq with
         | enc _ +:+ _ = enc _ +:+ _ =>
             apply enc_app_inj in Heq as [?%(inj pretty) Heq]
             || apply enc_app_inj in Heq as [? Heq]
         end.
  subst. auto.
Qed.

Lemma scrypt_inj : forall pw pw' s len n r p cap k,
  @scrypt platform pw s len n r p cap = Some k ->
  @scrypt platform pw' s len n r p cap = Some k -> pw = pw'.
Proof.
  intros pw pw' s len n r p cap k. simpl.
  destruct (128 * n * r * p <=? cap); [|discriminate].
  intros [= <-] [= Heq]. apply app_inv_tail in Heq. now apply bytes_inj.
Qed.

Lemma scrypt_accepts : forall pw pw' s len n r p cap,
  is_Some (@scrypt platform pw s len n r p cap) ->
  is_Some (@scrypt platform pw' s len n r p cap).
Proof.
  intros pw pw' s len n r p cap. simpl.
  destruct (128 * n * r * p <=? cap); [eauto | intros [? [=]]].
Qed.

Lemma sampleEncrypted_eq :
  outcome (@encryptVault platform salt16 iv12 sampleData "master")
  = inr (sampleFile, sampleKey).
Proof. vm_compute. reflexivity. Qed.

End ToyFacts.

(** ** The theorems at concrete inputs, on the small platform *)

(** C1 as stated fails: the sample vault is encrypted under "master" and
    decrypted under "wrong"; the result is the integrity error, not the
    authentication error of the cipher. *)
Lemma wrong_password_is_not_AuthenticationError :
  "wrong" <> "master"
  /\ outcome (@encryptVault Toy.platform Toy.salt16 Toy.iv12 Toy.sampleData "master")
     = inr (Toy.sampleFile, Toy.sampleKey)
  /\ outcome (@decryptVault Toy.platform Toy.sampleFile "wrong")
     = inl (IntegrityError HmacMismatch)
  /\ outcome (@decryptVault Toy.platform Toy.sampleFile "wrong")
     <> inl AuthenticationError.
Proof.
  split; [discriminate|]. split; [exact ToyFacts.sampleEncrypted_eq|].
  assert (outcome (@decryptVault Toy.platform Toy.sampleFile "wrong")
          = inl (IntegrityError HmacMismatch)) as Hd
    by (vm_compute; reflexivity).
  split; [exact Hd|]. rewrite Hd. discriminate.
Qed.

Lemma wrong_password_rejected_witness :
  @decryptVault Toy.platform Toy.sampleFile "wrong"
  = ([CallScrypt; CallHmac], inl (IntegrityError HmacMismatch))
  /\ @unlock Toy.platform "wrong" false Toy.env0 Toy.unlockedWorld
     = (Toy.unlockedWorld, inl (IntegrityError HmacMismatch)).
Proof.
  destruct (@wrong_password_rejected Toy.platform
              ToyFacts.base64_roundtrip ToyFacts.mac_nonempty
              ToyFacts.hmac_key_inj ToyFacts.scrypt_inj ToyFacts.scrypt_accepts
              Toy.salt16 Toy.iv12 Toy.sampleData "master" "wrong"
              Toy.sampleFile Toy.sampleKey)
    as [Hd Hu]; [discriminate | exact ToyFacts.sampleEncrypted_eq |].
  split; [exact Hd|].
  apply (Hu false Toy.env0 Toy.unlockedWorld (Toy.showFile Toy.sampleFile));
    [reflexivity | reflexivity | vm_compute; reflexivity].
Defined.

Lemma tamper_detected_witness :
  @decryptVaultWithKey Toy.platform (withoutHmac Toy.sampleFile) Toy.sampleKey
  = ([], inl (IntegrityError HmacMissing))
  /\ @decryptVaultWithKey Toy.platform
       (withCipherData Toy.sampleFile (data (cipher Toy.sampleFile) +:+ "X"))
       Toy.sampleKey
     = ([CallHmac], inl (IntegrityError HmacMismatch)).
Proof.
  destruct (@tamper_detected Toy.platform
              ToyFacts.base64_roundtrip ToyFacts.mac_nonempty
              ToyFacts.hmac_message_inj ToyFacts.header_inj
              Toy.sampleFile Toy.sampleKey)
    as (_ & Hmissing & Haltered & _); [vm_compute; discriminate|].
  split; [exact Hmissing|].
  apply Haltered; [vm_compute; reflexivity | vm_compute; discriminate].
Defined.

Lemma decrypt_encrypt_roundtrip_witness :
  outcome (@decryptVault Toy.platform Toy.sampleFile "master")
  = inr (Toy.sampleData, Toy.sampleKey, kdf Toy.sampleFile).
Proof.
  apply (@decrypt_encrypt_roundtrip Toy.platform
           ToyFacts.base64_roundtrip ToyFacts.gcm_roundtrip
           ToyFacts.mac_nonempty Toy.salt16 Toy.iv12);
    [vm_compute; reflexivity | exact ToyFacts.sampleEncrypted_eq].
Defined.

Lemma legacy_v1_decrypts_witness :
  outcome (@decryptVault Toy.platform Toy.legacyFile "master")
  = inr (Toy.sampleData, Toy.sampleKey, kdf Toy.legacyFile)
  /\ @decryptVaultWithKey Toy.platform Toy.legacyFile Toy.sampleKey
     = ([CallGcmDecrypt; CallJsonParse], inr Toy.sampleData).
Proof.
  apply (@legacy_v1_decrypts Toy.platform
           ToyFacts.base64_roundtrip ToyFacts.gcm_roundtrip
           Toy.legacyFile "master" Toy.sampleKey Toy.iv12 Toy.sampleData);
    vm_compute; reflexivity.
Defined.

Lemma authenticated_ops_require_session_witness :
  @run Toy.platform (OpGetEntries "tok" None) Toy.env0 Toy.lockedWorld
  = (Toy.lockedWorld, inl LOCKED)
  /\ @run Toy.platform (OpAddEntry "stale" Toy.samplePayload) Toy.env0
       Toy.unlockedWorld
     = (Toy.unlockedWorld, inl INVALID_SESSION).
Proof.
  split.
  - apply (proj1 (@authenticated_ops_require_session Toy.platform
                    (OpGetEntries "tok" None) "tok" Toy.env0 Toy.lockedWorld
                    eq_refl)).
    reflexivity.
  - apply (proj2 (@authenticated_ops_require_session Toy.platform
                    (OpAddEntry "stale" Toy.samplePayload) "stale" Toy.env0
                    Toy.unlockedWorld eq_refl) Toy.sampleSession).
    + reflexivity.
    + discriminate.
Defined.

Lemma writes_are_version2_witness :
  version Toy.sampleFile = 2
  /\ hmac Toy.sampleFile = Some (@tagOf Toy.platform Toy.sampleFile Toy.sampleKey)
  /\ @diskOk Toy.platform (disk Toy.unlockedWorld)
       (disk (fst (@run Toy.platform (OpAddEntry "tok" Toy.samplePayload)
                     Toy.env0 Toy.unlockedWorld))).
Proof.
  destruct (@writes_are_version2 Toy.platform) as (_ & Henc & Hrun).
  destruct (Henc Toy.salt16 Toy.iv12 Toy.sampleData "master" Toy.sampleFile
              Toy.sampleKey ToyFacts.sampleEncrypted_eq) as [Hv Hm].
  split; [exact Hv|]. split; [exact Hm|].
  apply (Hrun (OpAddEntry "tok" Toy.samplePayload) Toy.env0 Toy.unlockedWorld
           _ (snd (@run Toy.platform (OpAddEntry "tok" Toy.samplePayload)
                     Toy.env0 Toy.unlockedWorld))).
  apply surjective_pairing.
Defined.



Lemma throttle_correct_witness :
  snd (requests "127.0.0.1" [0; 400; 900] Toy.testLimiter) = [Next; Next; Next]
  /\ snd (middlewareKey "127.0.0.1" 950
            (fst (requests "127.0.0.1" [0; 400; 900] Toy.testLimiter)))
     = TooManyRequests 2.
Proof.
  destruct (throttle_correct "127.0.0.1" Toy.testLimiter) as (Ha & Hb & _);
    [vm_compute; discriminate|].
  split.
  - apply (Ha 0 [400; 900]); [reflexivity | | vm_compute; discriminate].
    intros t [<-|[<-|[]]]; vm_compute; discriminate.
  - destruct (Hb 0 [400; 900] 950) as (rl' & e & Hdeny & _);
      [reflexivity | | reflexivity | vm_compute; discriminate |].
    + intros t [<-|[<-|[]]]; vm_compute; discriminate.
    + rewrite Hdeny. reflexivity.
Defined.

(** C7 as stated fails for a threshold of 0: the first request of a client
    is request M + 1, and it passes with no block set, because the first
    request of a window is never counted against the threshold. *)
Lemma zero_threshold_first_request_passes :
  attempts (newRateLimiter 1000 0 2000) !! "127.0.0.1" = None
  /\ snd (middlewareKey "127.0.0.1" 0 (newRateLimiter 1000 0 2000)) = Next
  /\ attempts (fst (middlewareKey "127.0.0.1" 0 (newRateLimiter 1000 0 2000)))
       !! "127.0.0.1"
     = Some {| count := 1; resetAt := 1000; blockedUntil := None |}.
Proof.
  split; [reflexivity|].
  rewrite middlewareKey_first by reflexivity. split; [reflexivity|].
  cbn [fst attempts set_attempts]. apply lookup_insert_eq.
Qed.

(** ** The scenarios of the test suites, run on the small platform *)

(** vaultService.test.ts: create a vault, add an entry, list it; after
    the auto-lock timer fires the token is refused with LOCKED. *)
Example session_lifecycle :
  let w0 := {| service := newVaultService 20; disk := Toy.emptyDisk |} in
  let '(w1, r1) := @unlock Toy.platform "master" true Toy.env0 w0 in
  let '(w2, r2) := @addEntry Toy.platform "3f2c" Toy.samplePayload Toy.env0 w1 in
  let '(w3, r3) := @getEntries Toy.platform "3f2c" None Toy.env0 w2 in
  let w4 := {| service := timerFires (now Toy.env0 + 50) (service w3);
               disk := disk w3 |} in
  let '(w5, r5) := @getEntries Toy.platform "3f2c" None Toy.env0 w4 in
  r1 = inr {| created := true; r_token := "3f2c"; r_entries := 0 |}
  /\ (locked <$> returned (status (service w1))) = Some false
  /\ (domain <$> returned r2) = Some "example.com"
  /\ (length <$> returned r3) = Some 1%nat
  /\ r5 = inl LOCKED
  /\ (locked <$> returned (status (service w5))) = Some true.
Proof. vm_compute. repeat split. Qed.

(** The end-to-end scenario: after a restart (a new service on the same
    disk) the vault unlocks with the password and holds the entry. *)
Example restart_scenario :
  let w0 := {| service := newVaultService 600000; disk := Toy.emptyDisk |} in
  let '(w1, _) := @unlock Toy.platform "hunter2pass" true Toy.env0 w0 in
  let '(w2, r2) := @addEntry Toy.platform "3f2c" Toy.samplePayload Toy.env0 w1 in
  let w3 := {| service := newVaultService 600000; disk := disk w2 |} in
  let '(w4, r4) := @unlock Toy.platform "hunter2pass" false Toy.env0 w3 in
  (r_entries <$> returned r4) = Some 1
  /\ (entries <$> (vault <$> session (service w4)))
     = (fun e => [e]) <$> returned r2.
Proof. vm_compute. repeat split. Qed.

(** rateLimiter.test.ts: three requests pass, the fourth is blocked; a
    reset lets the next one pass. *)
Example limiter_scenario :
  snd (requests "127.0.0.1" [0; 1; 2; 3] Toy.testLimiter)
  = [Next; Next; Next; TooManyRequests 2]
  /\ snd (middlewareKey "127.0.0.1" 4
            (resetKey "127.0.0.1"
               (fst (requests "127.0.0.1" [0; 1; 2; 3] Toy.testLimiter))))
     = Next.
Proof. vm_compute. repeat split. Qed.

(** ** The password generator *)

Module PasswordGeneratorFacts.
Import PasswordGenerator.

Lemma get_chars (s : string) (i : nat) :
  (i < String.length s)%nat ->
  exists c, String.get i s = Some c /\ c ∈ chars s.
Proof.
  revert i. induction s as [|a s IH]; intros i Hi; simpl in *; [lia|].
  destruct i as [|i].
  - exists a. split; [reflexivity | unfold chars; simpl; left].
  - destruct (IH i) as (c & Hc & Hin); [lia|].
    exists c. split; [exact Hc | unfold chars; simpl; right; exact Hin].
Qed.

Lemma charAt_single (rnd : nat -> nat) (c : nat) (s : string) :
  (0 < String.length s)%nat ->
  single (fun ch => ch ∈ chars s)
         (charAt s (randomInt rnd c (String.length s))).
Proof.
  intros Hs. unfold charAt, randomInt.
  destruct (get_chars s (rnd c mod String.length s)) as (ch & Hget & Hin).
  - apply Nat.mod_upper_bound. lia.
  - rewrite Hget. exists ch. auto.
Qed.

Lemma pickEach_length rnd c sets :
  List.length (pickEach rnd c sets) = List.length sets.
Proof. revert c. induction sets; intros c; simpl; auto. Qed.

Lemma pickEach_single rnd c sets :
  Forall (fun s => (0 < String.length s)%nat) sets ->
  Forall2 (fun s x => single (fun ch => ch ∈ chars s) x)
          sets (pickEach rnd c sets).
Proof.
  intros Hne. revert c. induction Hne as [|s sets Hs _ IH]; intros c; simpl.
  - constructor.
  - constructor; [now apply charAt_single | apply IH].
Qed.

Lemma fill_length rnd c allChars n :
  List.length (fill rnd c allChars n) = n.
Proof. revert c. induction n; intros c; simpl; auto. Qed.

Lemma fill_single rnd c allChars n :
  (0 < String.length allChars)%nat ->
  Forall (single (fun ch => ch ∈ chars allChars)) (fill rnd c allChars n).
Proof.
  intros Hne. revert c. induction n as [|n IH]; intros c; simpl.
  - constructor.
  - constructor; [now apply charAt_single | apply IH].
Qed.

Lemma chars_app (s t : string) : chars (s +:+ t) = chars s ++ chars t.
Proof.
  unfold chars. induction s as [|a s IH]; simpl; [reflexivity|].
  change (String a s +:+ t) with (String a (s +:+ t)). simpl. now rewrite IH.
Qed.

(** [sets.join('')] holds the characters of the sets, one set after the
    other. *)
Lemma chars_join (l : list string) :
  chars (String.concat EmptyString l) = concat (chars <$> l).
Proof.
  induction l as [|x l IH]; [reflexivity|].
  destruct l as [|y l].
  - simpl. now rewrite app_nil_r.
  - change (String.concat EmptyString (x :: y :: l))
      with (x +:+ EmptyString +:+ String.concat EmptyString (y :: l)).
    rewrite !chars_app, IH. reflexivity.
Qed.

Lemma length_chars (s : string) : List.length (chars s) = String.length s.
Proof. unfold chars. induction s; simpl; auto. Qed.

Lemma join_singles (P : ascii -> Prop) (l : list string) :
  Forall (single P) l ->
  List.length (chars (String.concat EmptyString l)) = List.length l
  /\ Forall P (chars (String.concat EmptyString l))
  /\ forall c, String c EmptyString ∈ l ->
               c ∈ chars (String.concat EmptyString l).
Proof.
  intros Hl. rewrite chars_join.
  induction Hl as [|x l (c & -> & Hc) _ (IH1 & IH2 & IH3)]; simpl.
  - repeat split; [constructor | intros c Hc; inversion Hc].
  - repeat split.
    + unfold chars at 1. simpl. f_equal. exact IH1.
    + unfold chars at 1. simpl. constructor; assumption.
    + intros c' Hin. unfold chars at 1. simpl.
      apply elem_of_cons in Hin as [[= ->]|Hin]; [left | right; auto].
Qed.

Lemma swap_perm (p : list string) (i j : nat) : swap p i j ≡ₚ p.
Proof.
  unfold swap. destruct (p !! i) as [a|] eqn:Hi; [|reflexivity].
  destruct (p !! j) as [b|] eqn:Hj; [|reflexivity].
  now apply Permutation_insert_swap.
Qed.

(** The shuffle rearranges the characters: it neither adds nor drops
    any. *)
Lemma shuffle_perm rnd c i (p : list string) : shuffle rnd c i p ≡ₚ p.
Proof.
  revert c p. induction i as [|i IH]; intros c p; simpl; [reflexivity|].
  rewrite IH. apply swap_perm.
Qed.

Lemma enabledSets_nonempty (o : Options) :
  Forall (fun s => (0 < String.length s)%nat) (enabledSets o).
Proof.
  unfold enabledSets.
  destruct (o_uppercase o), (o_lowercase o), (o_numbers o), (o_symbols o);
    simpl; repeat constructor; simpl; lia.
Qed.

Lemma enabledSets_count (o : Options) : (List.length (enabledSets o) <= 4)%nat.
Proof.
  unfold enabledSets.
  destruct (o_uppercase o), (o_lowercase o), (o_numbers o), (o_symbols o);
    simpl; lia.
Qed.

Lemma join_nonempty (l : list string) :
  l <> [] -> Forall (fun s => (0 < String.length s)%nat) l ->
  (0 < String.length (String.concat EmptyString l))%nat.
Proof.
  intros Hl Hne. rewrite <- length_chars, chars_join.
  destruct Hne as [|x l Hx _]; [congruence|].
  simpl. rewrite length_app, length_chars. lia.
Qed.

Lemma chars_join_elem (l : list string) (c : ascii) :
  c ∈ chars (String.concat EmptyString l) <-> exists s, s ∈ l /\ c ∈ chars s.
Proof.
  rewrite chars_join, list_elem_of_In, in_concat. split.
  - intros (cs & Hcs & Hc).
    apply list_elem_of_In, list_elem_of_fmap in Hcs as (s & -> & Hs).
    exists s. split; [exact Hs | now apply list_elem_of_In].
  - intros (s & Hs & Hc). exists (chars s). split.
    + apply list_elem_of_In, list_elem_of_fmap. eauto.
    + now apply list_elem_of_In.
Qed.

(** The characters before the shuffle: one of each enabled set, then
    characters of the enabled sets up to the requested length. *)
Lemma generatePassword_unfold opts rnd pw :
  generatePassword opts rnd = Some pw ->
  exists first more,
    enabledSets (withDefaults opts) <> []
    /\ Forall2 (fun s x => single (fun ch => ch ∈ chars s) x)
               (enabledSets (withDefaults opts)) first
    /\ Forall (single (fun ch => ch ∈ chars
                 (String.concat EmptyString (enabledSets (withDefaults opts)))))
              more
    /\ Z.of_nat (List.length (first ++ more))
       = Z.max 8 (o_length (withDefaults opts))
    /\ exists shuffled,
         shuffled ≡ₚ first ++ more
         /\ pw = String.concat EmptyString shuffled.
Proof.
  unfold generatePassword.
  pose proof (enabledSets_nonempty (withDefaults opts)) as Hpos.
  pose proof (enabledSets_count (withDefaults opts)) as Hcount.
  set (sets := enabledSets (withDefaults opts)) in *.
  destruct (bool_decide_reflect (sets = [])) as [|Hne]; [discriminate|].
  intros [= <-].
  exists (pickEach rnd 0 sets).
  exists (fill rnd (List.length (pickEach rnd 0 sets))
               (String.concat EmptyString sets)
               (Z.to_nat (Z.max 8 (o_length (withDefaults opts))
                          - Z.of_nat (List.length (pickEach rnd 0 sets))))).
  split; [exact Hne|]. split; [|split; [|split]].
  - apply (pickEach_single rnd 0 sets Hpos).
  - apply fill_single. now apply join_nonempty.
  - rewrite length_app, fill_length, pickEach_length. lia.
  - eexists. split; [apply shuffle_perm | reflexivity].
Qed.

Lemma Forall2_single_weaken (sets first : list string) :
  Forall2 (fun s x => single (fun ch => ch ∈ chars s) x) sets first ->
  Forall (single (fun ch => ch ∈ chars (String.concat EmptyString sets))) first.
Proof.
  intros HF. apply Forall_forall. intros x Hx.
  apply list_elem_of_lookup in Hx as [i Hi].
  destruct (Forall2_lookup_r _ _ _ _ _ HF Hi) as (s & Hs & c & -> & Hc).
  exists c. split; [reflexivity|]. apply chars_join_elem.
  exists s. split; [|exact Hc]. apply list_elem_of_lookup. eauto.
Qed.


(** X2. Every character of a generated password belongs to one of the
    enabled character sets: a set that is switched off contributes
    nothing. *)
Theorem generatePassword_only_enabled opts rnd pw :
  generatePassword opts rnd = Some pw ->
  forall c, c ∈ chars pw ->
    exists s, s ∈ enabledSets (withDefaults opts) /\ c ∈ chars s.
Proof.
  intros Hg c Hc.
  destruct (generatePassword_unfold opts rnd pw Hg)
    as (first & more & _ & Hf & Hm & _ & shuffled & Hp & ->).
  assert (Forall (single (fun ch => ch ∈ chars
            (String.concat EmptyString (enabledSets (withDefaults opts)))))
            shuffled) as Hall.
  { rewrite Hp. apply Forall_app. split; [|exact Hm].
    now apply Forall2_single_weaken. }
  destruct (join_singles _ _ Hall) as (_ & HP & _).
  rewrite Forall_forall in HP. apply chars_join_elem. now apply HP.
Qed.

(** X3. A generated password holds at least one character of each enabled
    character set. *)
Theorem generatePassword_covers_each_set opts rnd pw :
  generatePassword opts rnd = Some pw ->
  forall s, s ∈ enabledSets (withDefaults opts) ->
    exists c, c ∈ chars s /\ c ∈ chars pw.
Proof.
  intros Hg s Hs.
  destruct (generatePassword_unfold opts rnd pw Hg)
    as (first & more & _ & Hf & Hm & _ & shuffled & Hp & ->).
  apply list_elem_of_lookup in Hs as [i Hi].
  destruct (Forall2_lookup_l _ _ _ _ _ Hf Hi) as (x & Hx & c & -> & Hc).
  exists c. split; [exact Hc|].
  assert (Forall (single (fun ch => ch ∈ chars
            (String.concat EmptyString (enabledSets (withDefaults opts)))))
            shuffled) as Hall.
  { rewrite Hp. apply Forall_app. split; [|exact Hm].
    now apply Forall2_single_weaken. }
  destruct (join_singles _ _ Hall) as (_ & _ & Hin). apply Hin.
  rewrite Hp. apply elem_of_app. left. apply list_elem_of_lookup. eauto.
Qed.

End PasswordGeneratorFacts.

(** ** The sweep and the end of a block *)

Section SweepFacts.
Variable k : string.

Lemma middlewareKey_agree (t : Z) (rl1 rl2 : RateLimiter) :
  agree k rl1 rl2 ->
  snd (middlewareKey k t rl1) = snd (middlewareKey k t rl2)
  /\ agree k (fst (middlewareKey k t rl1)) (fst (middlewareKey k t rl2)).
Proof.
  intros (Hw & Hm & Hb & Hk). unfold middlewareKey, agree.
  rewrite Hk, Hw, Hm, Hb.
  destruct (isBlocked (attempts rl2 !! k) t) as [b|]; simpl.
  { repeat split; auto. }
  destruct (attempts rl2 !! k) as [e|]; simpl;
    [destruct (resetAt e <? t); simpl;
     [|destruct (maxAttempts rl2 <? count e + 1); simpl]|];
    rewrite ?lookup_insert_eq; repeat split; auto.
Qed.

Lemma requests_agree (ts : list Z) :
  forall rl1 rl2, agree k rl1 rl2 ->
    snd (requests k ts rl1) = snd (requests k ts rl2).
Proof.
  induction ts as [|t ts IH]; intros rl1 rl2 Ha; simpl; [reflexivity|].
  destruct (middlewareKey_agree t rl1 rl2 Ha) as [Hv Ha'].
  destruct (middlewareKey k t rl1) as [rl1' v1].
  destruct (middlewareKey k t rl2) as [rl2' v2]. simpl in *. subst v2.
  specialize (IH rl1' rl2' Ha').
  destruct (requests k ts rl1') as [rl1'' vs1].
  destruct (requests k ts rl2') as [rl2'' vs2]. simpl in *. now subst.
Qed.

Lemma cleanup_lookup (t : Z) (rl : RateLimiter) :
  attempts (cleanup t rl) !! k
  = match attempts rl !! k with
    | Some e => if expired t e then None else Some e
    | None => None
    end.
Proof.
  unfold cleanup. simpl.
  destruct (attempts rl !! k) as [e|] eqn:Hk.
  - destruct (expired t e) eqn:He.
    + apply map_lookup_filter_None. right. intros e' He'. simpl.
      rewrite Hk in He'. injection He' as <-. congruence.
    + apply map_lookup_filter_Some. split; [exact Hk | exact He].
  - apply map_lookup_filter_None. now left.
Qed.

(** An expired entry does not count at any later time: the request is
    handled as the first of a new window. *)
Lemma middlewareKey_expired (t t' : Z) (rl : RateLimiter) (e : RateLimitEntry) :
  attempts rl !! k = Some e -> expired t e = true -> t <= t' ->
  middlewareKey k t' rl
  = (set_attempts
       (<[k := {| count := 1; resetAt := t' + windowMs rl;
                  blockedUntil := None |}]> (attempts rl)) rl,
     Next).
Proof.
  intros Hk He Ht. unfold expired in He.
  apply andb_true_iff in He as [Hr Hb]. apply Z.ltb_lt in Hr.
  unfold middlewareKey. rewrite Hk.
  assert (isBlocked (Some e) t' = None) as ->.
  { unfold isBlocked. destruct (blockedUntil e) as [b|]; [|reflexivity].
    apply orb_true_iff in Hb as [Hb|Hb].
    - now rewrite Hb.
    - apply Z.ltb_lt in Hb.
      destruct (Z.ltb_spec t' b); [lia|]. now rewrite andb_false_r. }
  destruct (Z.ltb_spec (resetAt e) t'); [reflexivity|lia].
Qed.

(** X4. The periodic sweep cannot be observed by a client: for requests
    made at or after the time of the sweep, the verdicts are the same
    whether or not the sweep ran. *)
Theorem cleanup_unobservable (t : Z) (ts : list Z) (rl : RateLimiter) :
  (forall t', In t' ts -> t <= t') ->
  snd (requests k ts (cleanup t rl)) = snd (requests k ts rl).
Proof.
  destruct ts as [|t1 ts]; [reflexivity|]. intros Hts.
  assert (t <= t1) as Ht1 by (apply Hts; now left).
  assert (snd (middlewareKey k t1 (cleanup t rl)) = snd (middlewareKey k t1 rl)
          /\ agree k (fst (middlewareKey k t1 (cleanup t rl)))
                   (fst (middlewareKey k t1 rl))) as [Hv Ha].
  { pose proof (cleanup_lookup t rl) as Hl.
    destruct (attempts rl !! k) as [e|] eqn:Hk.
    - destruct (expired t e) eqn:He.
      + rewrite (middlewareKey_first k t1 (cleanup t rl) Hl).
        rewrite (middlewareKey_expired t t1 rl e Hk He Ht1).
        unfold agree, cleanup. simpl. rewrite !lookup_insert_eq.
        repeat split; auto.
      + apply middlewareKey_agree. repeat split. now rewrite Hl, Hk.
    - apply middlewareKey_agree. repeat split. now rewrite Hl, Hk. }
  simpl.
  destruct (middlewareKey k t1 (cleanup t rl)) as [rl1 v1].
  destruct (middlewareKey k t1 rl) as [rl2 v2]. simpl in *. subst v2.
  pose proof (requests_agree ts rl1 rl2 Ha) as Hr.
  destruct (requests k ts rl1) as [rl1' vs1].
  destruct (requests k ts rl2) as [rl2' vs2]. simpl in *. now subst.
Qed.

(** X5. The end of a block does not by itself readmit a client.  After M
    requests in one window and the request that was denied at [tb], a
    request made when the block is over passes (as the first of a new
    window) if the old window is over too; while the old window lasts it
    is denied again and the block starts anew. *)
Theorem after_block (rl : RateLimiter) (t1 : Z) (ts : list Z) (tb t : Z) :
  attempts rl !! k = None ->
  (forall t', In t' ts -> t' <= t1 + windowMs rl) ->
  Z.of_nat (length (t1 :: ts)) = maxAttempts rl ->
  tb <= t1 + windowMs rl ->
  tb + blockDurationMs rl <= t ->
  let blocked := fst (middlewareKey k tb (fst (requests k (t1 :: ts) rl))) in
  (t1 + windowMs rl < t ->
   snd (middlewareKey k t blocked) = Next
   /\ attempts (fst (middlewareKey k t blocked)) !! k
      = Some {| count := 1; resetAt := t + windowMs rl; blockedUntil := None |})
  /\ (t <= t1 + windowMs rl ->
      snd (middlewareKey k t blocked)
      = TooManyRequests (ceilSeconds (blockDurationMs rl))
      /\ attempts (fst (middlewareKey k t blocked)) !! k
         = Some {| count := maxAttempts rl + 2; resetAt := t1 + windowMs rl;
                   blockedUntil := Some (t + blockDurationMs rl) |}).
Proof.
  intros Hk Hin Hc Htb Ht.
  destruct (requests_fresh k t1 ts rl Hk Hin) as (rl' & Hr & Hk' & Hw & Hm & Hb);
    [lia|].
  rewrite Hc in Hk'. rewrite Hr. cbn [fst].
  rewrite (middlewareKey_exceeds k tb rl' _ Hk');
    cbn [count resetAt blockedUntil]; [|reflexivity|lia|lia].
  cbn zeta. cbn [fst]. unfold middlewareKey. simpl.
  rewrite lookup_insert_eq. simpl. rewrite Hb, Hm, Hw.
  destruct (Z.ltb_spec t (tb + blockDurationMs rl)); [lia|].
  rewrite andb_false_r.
  split; intros Hwin.
  - destruct (Z.ltb_spec (t1 + windowMs rl) t); [|lia]. simpl.
    now rewrite lookup_insert_eq.
  - destruct (Z.ltb_spec (t1 + windowMs rl) t); [lia|].
    destruct (Z.ltb_spec (maxAttempts rl) (maxAttempts rl + 1 + 1)); [|lia].
    simpl. rewrite lookup_insert_eq. split; [reflexivity|].
    do 2 f_equal. lia.
Qed.

End SweepFacts.

(** ** The service: what its operations do *)

Section ExecFacts.
Context `{Platform}.

Lemma touch_session (t : Z) (svc : VaultService) (s : SessionData) :
  session svc = Some s ->
  session (touch t svc) = Some (set_lastActivity t s).
Proof.
  intros Hs. unfold touch. rewrite Hs. unfold scheduleLock, clearLockTimer.
  simpl. now destruct (lockTimeoutMs svc <=? 0).
Qed.

Lemma updateVault_eq (v : VaultData) (w : World) (s : SessionData) :
  session (service w) = Some s ->
  updateVault v w
  = ({| service := set_session (Some (set_vault v s)) (service w);
        disk := disk w |},
     inr (set_vault v s)).
Proof.
  intros Hs. unfold updateVault, bindM, getService, putService, retM.
  now rewrite Hs.
Qed.

Lemma persist_eq (s : SessionData) (env : Env) (w : World) :
  persist s env w
  = match outcome (encryptVaultWithKey (rand12 env) (vault s) (key s) (s_kdf s)) with
    | inl e => (w, inl e)
    | inr f =>
        ({| service := service w;
            disk := fst (writeVaultFile (fault env) f (disk w)) |},
         snd (writeVaultFile (fault env) f (disk w)))
    end.
Proof.
  unfold persist, bindM, liftEff, onDisk.
  destruct (outcome _) as [e|f]; [reflexivity|].
  now destruct (writeVaultFile (fault env) f (disk w)).
Qed.

(** What [persist] can do: throw the cipher's exception or an I/O error,
    and change nothing but the disk. *)
Lemma persist_cases (s : SessionData) (env : Env) (w w' : World) r :
  persist s env w = (w', r) ->
  service w' = service w
  /\ (r = inl EncryptionError /\ disk w' = disk w
      \/ exists f,
           outcome (encryptVaultWithKey (rand12 env) (vault s) (key s) (s_kdf s))
           = inr f
           /\ (r = inr tt /\ vault_path (disk w') = Some (stringify_file f)
               \/ r = inl IOError
                  /\ (vault_path (disk w') = vault_path (disk w)
                      \/ fault env = FailChmod
                         /\ vault_path (disk w') = Some (stringify_file f)))).
Proof.
  rewrite persist_eq.
  destruct (outcome _) as [e|f] eqn:He.
  - intros [= <- <-]. split; [reflexivity|]. left. split; [|reflexivity].
    revert He. unfold encryptVaultWithKey, encryptPayload, outcome. simpl.
    destruct (gcm_encrypt _ _ _) as [[c t]|]; simpl; congruence.
  - intros [= <- <-]. split; [reflexivity|]. right. exists f.
    split; [reflexivity|]. unfold writeVaultFile.
    destruct (fault env); simpl; auto.
Qed.

Lemma requireSession_ok tok env w s :
  session (service w) = Some s -> token s = tok ->
  requireSession tok env w
  = ({| service := touch (now env) (service w); disk := disk w |},
     inr (touched env s))
  /\ session (touch (now env) (service w)) = Some (touched env s).
Proof.
  intros Hs Ht. split; [now apply requireSession_valid|].
  now apply touch_session.
Qed.

(** Reading the entries of a vault. *)
Lemma vaultEntries_ok (v : VaultData) (w : World) :
  v <> NoEntries -> vaultEntries v w = (w, inr (entries v)).
Proof. destruct v; [reflexivity|contradiction]. Qed.

(** On a session whose vault has no entries, an operation on the entries
    throws a TypeError once the session is touched. *)
Lemma run_noEntries op tok env w s :
  session (service w) = Some s -> token s = tok -> vault s = NoEntries ->
  match op with
  | OpGetEntries tok' _ | OpGetEntriesForDomain tok' _
  | OpAddEntry tok' _ | OpUpdateEntry tok' _ _ | OpDeleteEntry tok' _ =>
      tok' = tok
  | _ => False
  end ->
  run op env w
  = ({| service := touch (now env) (service w); disk := disk w |},
     inl TypeError).
Proof.
  intros Hs Ht Hv Hop.
  destruct (requireSession_ok tok env w s Hs Ht) as [Hr _].
  destruct op as [| | |tok' q|tok' dom|tok' payload|tok' ident patch|tok' ident];
    try contradiction; subst tok'; simpl; apply mapM_throw.
  - unfold getEntries. rewrite (bindM_ret _ _ _ _ _ Hr). simpl.
    now rewrite Hv.
  - unfold getEntriesForDomain. rewrite (bindM_ret _ _ _ _ _ Hr). simpl.
    now rewrite Hv.
  - unfold addEntry. rewrite (bindM_ret _ _ _ _ _ Hr). simpl.
    now rewrite Hv.
  - unfold updateEntry. rewrite (bindM_ret _ _ _ _ _ Hr). simpl.
    now rewrite Hv.
  - unfold deleteEntry. rewrite (bindM_ret _ _ _ _ _ Hr). simpl.
    now rewrite Hv.
Qed.

(** [addEntry] with the session's token: the entry is appended in memory,
    then the vault is persisted. *)
Lemma addEntry_valid tok payload env w s :
  session (service w) = Some s -> token s = tok -> vault s <> NoEntries ->
  let s2 := set_vault (Build_VaultData (entries (vault s) ++ [newEntry payload env]))
                      (touched env s) in
  let w2 := {| service := set_session (Some s2) (touch (now env) (service w));
               disk := disk w |} in
  addEntry tok payload env w
  = (fst (persist s2 env w2),
     match snd (persist s2 env w2) with
     | inl e => inl e
     | inr _ => inr (newEntry payload env)
     end).
Proof.
  intros Hs Ht Hv s2 w2.
  destruct (requireSession_ok tok env w s Hs Ht) as [Hr Hs1].
  unfold addEntry. rewrite (bindM_ret _ _ _ _ _ Hr).
  erewrite bindM_ret; [|apply vaultEntries_ok; exact Hv].
  erewrite bindM_ret; [|apply updateVault_eq; exact Hs1].
  fold (newEntry payload env). simpl. fold s2. fold w2.
  unfold bindM. destruct (persist s2 env w2) as [w3 [e|[]]]; reflexivity.
Qed.

Lemma domainMatches_refl (d : string) : domainMatches d d = true.
Proof. unfold domainMatches. now rewrite String.eqb_refl. Qed.

Lemma getEntriesForDomain_valid tok dom env w s :
  session (service w) = Some s -> token s = tok -> vault s <> NoEntries ->
  getEntriesForDomain tok dom env w
  = ({| service := touch (now env) (service w); disk := disk w |},
     inr (filter (fun e => domainMatches (domain e) (normalizeDomain dom) = true)
                 (entries (vault s)))).
Proof.
  intros Hs Ht Hv. destruct (requireSession_ok tok env w s Hs Ht) as [Hr _].
  unfold getEntriesForDomain. rewrite (bindM_ret _ _ _ _ _ Hr).
  erewrite bindM_ret; [reflexivity|]. now apply vaultEntries_ok.
Qed.

(** X6. [addEntry] with the session's token, when it returns: the entry
    returned carries the fresh id, the normalised (lower-case) domain and
    one time stamp for creation and update; the vault in memory is the old
    one with this entry at the end; the text at the vault path is a file
    written from that vault; and a lookup for the domain that was given
    finds the entry. *)
Theorem addEntry_returns tok payload env w w' e s :
  session (service w) = Some s -> token s = tok ->
  addEntry tok payload env w = (w', inr e) ->
  e = newEntry payload env
  /\ Js.toLowerCase (domain e) = domain e
  /\ (exists s',
        session (service w') = Some s'
        /\ token s' = tok
        /\ lastActivity s' = now env
        /\ entries (vault s') = entries (vault s) ++ [e]
        /\ exists f,
             outcome (encryptVaultWithKey (rand12 env) (vault s') (key s')
                                          (s_kdf s')) = inr f
             /\ vault_path (disk w') = Some (stringify_file f))
  /\ (forall env2,
        exists l,
          snd (getEntriesForDomain tok (p_domain payload) env2 w') = inr l
          /\ e ∈ l).
Proof.
  intros Hs Ht Ha.
  assert (vault s <> NoEntries) as Hv.
  { intros Hv.
    pose proof (run_noEntries (OpAddEntry tok payload) tok env w s Hs Ht Hv
                  eq_refl) as Hrun.
    simpl in Hrun. unfold mapM, bindM in Hrun. rewrite Ha in Hrun.
    discriminate. }
  rewrite (addEntry_valid tok payload env w s Hs Ht Hv) in Ha.
  cbv zeta in Ha.
  set (s2 := set_vault _ _) in Ha. set (w2 := Build_World _ _) in Ha.
  destruct (persist s2 env w2) as [w3 r] eqn:Hp. simpl in Ha.
  destruct r as [err|[]]; [discriminate|]. injection Ha as <- <-.
  destruct (persist_cases s2 env w2 w3 _ Hp) as [Hsvc Hcases].
  assert (session (service w3) = Some s2) as Hs3.
  { rewrite Hsvc. reflexivity. }
  split; [reflexivity|]. split; [apply normalizeDomain_lower|]. split.
  - exists s2. split; [exact Hs3|]. repeat split; auto.
    destruct Hcases as [[[=] _]|(f & Hf & [[_ Hpath]|[[=] _]])].
    exists f. auto.
  - intros env2.
    rewrite (getEntriesForDomain_valid tok (p_domain payload) env2 w3 s2 Hs3 Ht)
      by discriminate.
    eexists. split; [reflexivity|].
    apply list_elem_of_filter. split.
    + simpl. apply domainMatches_refl.
    + simpl. apply elem_of_app. right. apply list_elem_of_singleton. reflexivity.
Qed.

(** X7. [addEntry] with the session's token, on a vault that has its
    entries, when it throws: the new entry is in the vault in memory all
    the same, and the vault path holds what it held, unless the failure
    was the [chmod] after the rename. *)
Theorem addEntry_failure_keeps_entry tok payload env w w' err s :
  session (service w) = Some s -> token s = tok -> vault s <> NoEntries ->
  addEntry tok payload env w = (w', inl err) ->
  (err = EncryptionError \/ err = IOError)
  /\ (exists s',
        session (service w') = Some s'
        /\ entries (vault s') = entries (vault s) ++ [newEntry payload env])
  /\ (vault_path (disk w') = vault_path (disk w) \/ fault env = FailChmod).
Proof.
  intros Hs Ht Hv Ha.
  rewrite (addEntry_valid tok payload env w s Hs Ht Hv) in Ha.
  cbv zeta in Ha.
  set (s2 := set_vault _ _) in Ha. set (w2 := Build_World _ _) in Ha.
  destruct (persist s2 env w2) as [w3 r] eqn:Hp. simpl in Ha.
  destruct r as [e|[]]; [|discriminate]. injection Ha as <- <-.
  destruct (persist_cases s2 env w2 w3 _ Hp) as [Hsvc Hcases].
  assert (session (service w3) = Some s2) as Hs3 by (rewrite Hsvc; reflexivity).
  destruct Hcases as [[[= ->] Hd]|(f & Hf & [[[=] _]|[[= ->] Hd]])].
  - split; [now left|]. split; [exists s2; auto|]. left. now rewrite Hd.
  - split; [now right|]. split; [exists s2; auto|].
    destruct Hd as [Hd|[Hd _]]; auto.
Qed.

Lemma filter_all_length {A} (P : A -> Prop) `{forall x, Decision (P x)} (l : list A) :
  length (filter P l) = length l <-> Forall P l.
Proof.
  induction l as [|x l IH]; simpl; [split; auto|].
  rewrite filter_cons. destruct (decide (P x)) as [Hx|Hx]; simpl.
  - rewrite Forall_cons. split.
    + intros [= Hl]. split; [exact Hx | now apply IH].
    + intros [_ Hl]. f_equal. now apply IH.
  - split.
    + intros Hl. pose proof (length_filter P l). lia.
    + intros [Hx' _]%Forall_cons. contradiction.
Qed.

Lemma filter_all {A} (P : A -> Prop) `{forall x, Decision (P x)} (l : list A) :
  Forall P l -> filter P l = l.
Proof.
  induction 1 as [|x l Hx _ IH]; [reflexivity|].
  rewrite filter_cons. destruct (decide (P x)); [now rewrite IH | contradiction].
Qed.

(** [deleteEntry] with the session's token: the vault in memory becomes
    the entries with another id, then NOT_FOUND is thrown if that removed
    nothing, and the vault is persisted otherwise. *)
Lemma deleteEntry_valid tok ident env w s :
  session (service w) = Some s -> token s = tok -> vault s <> NoEntries ->
  let kept := filter (fun e => id e <> ident) (entries (vault s)) in
  let s2 := set_vault (Build_VaultData kept) (touched env s) in
  let w2 := {| service := set_session (Some s2) (touch (now env) (service w));
               disk := disk w |} in
  deleteEntry tok ident env w
  = if (length kept =? length (entries (vault s)))%nat
    then (w2, inl NOT_FOUND)
    else persist s2 env w2.
Proof.
  intros Hs Ht Hv kept s2 w2.
  destruct (requireSession_ok tok env w s Hs Ht) as [Hr Hs1].
  unfold deleteEntry. rewrite (bindM_ret _ _ _ _ _ Hr).
  erewrite bindM_ret; [|apply vaultEntries_ok; exact Hv].
  erewrite bindM_ret; [|apply updateVault_eq; exact Hs1].
  simpl. fold kept. fold s2. fold w2.
  now destruct (length kept =? length (entries (vault s)))%nat.
Qed.

Lemma deleteEntry_spec tok ident env w w' r s :
  session (service w) = Some s -> token s = tok -> vault s <> NoEntries ->
  deleteEntry tok ident env w = (w', r) ->
  (exists s',
     session (service w') = Some s'
     /\ entries (vault s') = filter (fun e => id e <> ident) (entries (vault s))
     /\ Forall (fun e => id e <> ident) (entries (vault s')))
  /\ (r = inl NOT_FOUND <-> Forall (fun e => id e <> ident) (entries (vault s)))
  /\ (r = inl NOT_FOUND ->
      disk w' = disk w
      /\ exists s', session (service w') = Some s'
                    /\ entries (vault s') = entries (vault s)).
Proof.
  intros Hs Ht Hv Hd.
  rewrite (deleteEntry_valid tok ident env w s Hs Ht Hv) in Hd.
  cbv zeta in Hd.
  set (kept := filter _ _) in Hd. set (s2 := set_vault _ _) in Hd.
  set (w2 := Build_World _ _) in Hd.
  assert (Forall (fun e => id e <> ident) kept) as Hkept.
  { apply Forall_forall. intros e He. now apply list_elem_of_filter in He as [? _]. }
  destruct (Nat.eqb_spec (length kept) (length (entries (vault s)))) as [Hl|Hl].
  - injection Hd as <- <-.
    apply filter_all_length in Hl. split; [|split].
    + exists s2. split; [reflexivity|]. split; [reflexivity | exact Hkept].
    + split; auto.
    + intros _. split; [reflexivity|]. exists s2. split; [reflexivity|].
      simpl. now apply filter_all.
  - destruct (persist_cases s2 env w2 w' r Hd) as [Hsvc Hcases].
    assert (r <> inl NOT_FOUND) as Hr.
    { destruct Hcases as [[-> _]|(f & _ & [[-> _]|[-> _]])]; discriminate. }
    split; [|split].
    + exists s2. rewrite Hsvc. split; [reflexivity|].
      split; [reflexivity | exact Hkept].
    + split; [contradiction|]. intros Hall. exfalso. apply Hl.
      now apply filter_all_length.
    + contradiction.
Qed.

(** X8. [deleteEntry] with the session's token, on a vault that has its
    entries: whatever it returns, the
    vault in memory is afterwards the entries whose id is not the given one,
    in their order; it throws NOT_FOUND exactly when no entry has the id,
    and then the entries and the disk are what they were. *)
Theorem deleteEntry_behaviour tok ident env w w' r s :
  session (service w) = Some s -> token s = tok -> vault s <> NoEntries ->
  deleteEntry tok ident env w = (w', r) ->
  (exists s',
     session (service w') = Some s'
     /\ entries (vault s') = filter (fun e => id e <> ident) (entries (vault s))
     /\ Forall (fun e => id e <> ident) (entries (vault s')))
  /\ (r = inl NOT_FOUND <-> Forall (fun e => id e <> ident) (entries (vault s)))
  /\ (r = inl NOT_FOUND ->
      disk w' = disk w
      /\ exists s', session (service w') = Some s'
                    /\ entries (vault s') = entries (vault s)).
Proof. exact (deleteEntry_spec tok ident env w w' r s). Qed.

Lemma findIndex_Some ident (l : list VaultEntry) (i : nat) :
  findIndex ident l = Some i ->
  exists e, l !! i = Some e /\ id e = ident
            /\ Forall (fun e' => id e' <> ident) (take i l).
Proof.
  revert i. induction l as [|x l IH]; intros i; simpl; [discriminate|].
  destruct (String.eqb_spec (id x) ident) as [Hx|Hx].
  - intros [= <-]. exists x. simpl. repeat split; auto.
  - destruct (findIndex ident l) as [j|]; simpl; [|discriminate].
    intros [= <-]. destruct (IH j eq_refl) as (e & He & Hid & Hbefore).
    exists e. simpl. repeat split; auto.
Qed.

Lemma findIndex_None ident (l : list VaultEntry) :
  findIndex ident l = None <-> Forall (fun e => id e <> ident) l.
Proof.
  induction l as [|x l IH]; simpl; [split; auto|].
  destruct (String.eqb_spec (id x) ident) as [Hx|Hx].
  - split; [discriminate|]. intros [Hx' _]%Forall_cons. contradiction.
  - rewrite Forall_cons, <- IH. destruct (findIndex ident l); simpl.
    + split; [discriminate | intros [_ [=]]].
    + split; auto.
Qed.

(** [updateEntry] with the session's token. *)
Lemma updateEntry_valid tok ident patch env w s :
  session (service w) = Some s -> token s = tok -> vault s <> NoEntries ->
  let w1 := {| service := touch (now env) (service w); disk := disk w |} in
  updateEntry tok ident patch env w
  = match findIndex ident (entries (vault s)) with
    | None => (w1, inl NOT_FOUND)
    | Some idx =>
        match entries (vault s) !! idx with
        | None => (w1, inl NOT_FOUND)
        | Some existing =>
            let updated := applyPatch existing patch (toISOString (now env)) in
            let s2 := set_vault (Build_VaultData (<[idx := updated]> (entries (vault s))))
                                (touched env s) in
            let w2 := {| service := set_session (Some s2) (service w1);
                         disk := disk w |} in
            (fst (persist s2 env w2),
             match snd (persist s2 env w2) with
             | inl e => inl e
             | inr _ => inr updated
             end)
        end
    end.
Proof.
  intros Hs Ht Hv w1.
  destruct (requireSession_ok tok env w s Hs Ht) as [Hr Hs1].
  unfold updateEntry. rewrite (bindM_ret _ _ _ _ _ Hr).
  erewrite bindM_ret; [|apply vaultEntries_ok; exact Hv]. simpl.
  destruct (findIndex ident (entries (vault s))) as [idx|]; [|reflexivity].
  destruct (entries (vault s) !! idx) as [existing|]; [|reflexivity].
  erewrite bindM_ret; [|apply updateVault_eq; exact Hs1].
  simpl. unfold bindM.
  destruct (persist _ env _) as [w3 [e|[]]]; reflexivity.
Qed.

Lemma updateEntry_spec tok ident patch env w w' r s :
  session (service w) = Some s -> token s = tok -> vault s <> NoEntries ->
  updateEntry tok ident patch env w = (w', r) ->
  (r = inl NOT_FOUND <-> Forall (fun e => id e <> ident) (entries (vault s)))
  /\ (r = inl NOT_FOUND ->
      disk w' = disk w
      /\ exists s', session (service w') = Some s'
                    /\ entries (vault s') = entries (vault s))
  /\ (r <> inl NOT_FOUND ->
      exists idx existing s',
        entries (vault s) !! idx = Some existing
        /\ id existing = ident
        /\ Forall (fun e => id e <> ident) (take idx (entries (vault s)))
        /\ session (service w') = Some s'
        /\ entries (vault s')
           = <[idx := applyPatch existing patch (toISOString (now env))]>
               (entries (vault s))
        /\ id (applyPatch existing patch (toISOString (now env)))
           = default ident (u_id patch)
        /\ createdAt (applyPatch existing patch (toISOString (now env)))
           = default (createdAt existing) (u_createdAt patch)
        /\ forall e, r = inr e ->
             e = applyPatch existing patch (toISOString (now env))).
Proof.
  intros Hs Ht Hv Hu.
  rewrite (updateEntry_valid tok ident patch env w s Hs Ht Hv) in Hu.
  cbv zeta in Hu.
  destruct (requireSession_ok tok env w s Hs Ht) as [_ Hs1].
  destruct (findIndex ident (entries (vault s))) as [idx|] eqn:Hf.
  - destruct (findIndex_Some _ _ _ Hf) as (existing & He & Hid & Hbefore).
    rewrite He in Hu.
    set (updated := applyPatch existing patch (toISOString (now env))) in *.
    set (s2 := set_vault _ _) in Hu. set (w2 := Build_World _ _) in Hu.
    destruct (persist s2 env w2) as [w3 r3] eqn:Hp. simpl in Hu.
    destruct (persist_cases s2 env w2 w3 r3 Hp) as [Hsvc Hcases].
    injection Hu as <- <-.
    assert (match r3 with inl e => inl e | inr _ => inr updated end
            <> (inl NOT_FOUND : Result VaultEntry)) as Hr.
    { destruct Hcases as [[-> _]|(f & _ & [[-> _]|[-> _]])]; discriminate. }
    split; [|split].
    + split; [contradiction|]. intros Hall. exfalso.
      apply findIndex_None in Hall. congruence.
    + contradiction.
    + intros _. exists idx, existing, s2. rewrite Hsvc.
      repeat split; auto.
      { simpl. now rewrite Hid. }
      intros e. destruct r3 as [?|[]]; [discriminate | now intros [= <-]].
  - injection Hu as <- <-. apply findIndex_None in Hf. split; [|split].
    + split; auto.
    + intros _. split; [reflexivity|]. exists (touched env s). auto.
    + contradiction.
Qed.

(** X9. [updateEntry] with the session's token, on a vault that has its
    entries: it throws NOT_FOUND
    exactly when no entry has the id, leaving entries and disk as they
    were; otherwise the first entry with the id, and only that position,
    is replaced by the patched entry, which takes the fields of the patch
    and is what the call returns; it keeps its id and its creation time
    unless the payload carries an [id] or a [createdAt], which then
    replace them. *)
Theorem updateEntry_behaviour tok ident patch env w w' r s :
  session (service w) = Some s -> token s = tok -> vault s <> NoEntries ->
  updateEntry tok ident patch env w = (w', r) ->
  (r = inl NOT_FOUND <-> Forall (fun e => id e <> ident) (entries (vault s)))
  /\ (r = inl NOT_FOUND ->
      disk w' = disk w
      /\ exists s', session (service w') = Some s'
                    /\ entries (vault s') = entries (vault s))
  /\ (r <> inl NOT_FOUND ->
      exists idx existing s',
        entries (vault s) !! idx = Some existing
        /\ id existing = ident
        /\ Forall (fun e => id e <> ident) (take idx (entries (vault s)))
        /\ session (service w') = Some s'
        /\ entries (vault s')
           = <[idx := applyPatch existing patch (toISOString (now env))]>
               (entries (vault s))
        /\ id (applyPatch existing patch (toISOString (now env)))
           = default ident (u_id patch)
        /\ createdAt (applyPatch existing patch (toISOString (now env)))
           = default (createdAt existing) (u_createdAt patch)
        /\ forall e, r = inr e ->
             e = applyPatch existing patch (toISOString (now env))).
Proof. exact (updateEntry_spec tok ident patch env w w' r s). Qed.

Lemma NoDup_insert_fresh {A} (l : list A) (i : nat) (x : A) :
  NoDup l -> x ∉ l -> NoDup (<[i := x]> l).
Proof.
  intros Hnd Hx. destruct (l !! i) as [y|] eqn:Hi.
  - rewrite insert_take_drop by (now apply lookup_lt_Some in Hi).
    rewrite <- (take_drop_middle l i y Hi) in Hnd, Hx.
    apply NoDup_app in Hnd as (H1 & H2 & H3).
    apply NoDup_cons in H3 as [_ H3].
    apply NoDup_app. split; [exact H1|]. split.
    + intros z Hz [->|Hz']%elem_of_cons.
      * apply Hx, elem_of_app. now left.
      * apply (H2 z Hz). now right.
    + apply NoDup_cons. split; [|exact H3].
      intros Hin. apply Hx, elem_of_app. right. now right.
  - rewrite list_insert_ge; [exact Hnd|]. now apply lookup_ge_None.
Qed.

(** X10. Ids stay unique unless a PUT body brings the id of another
    entry: when the ids of the entries are pairwise distinct and the token
    is the session's, they still are after [deleteEntry], after [addEntry]
    provided the fresh uuid is not the id of an entry, and after
    [updateEntry] provided the payload carries no id, the id it replaces,
    or an id that no entry has; when the payload of [updateEntry] carries
    the id of another entry, two entries have that id afterwards, also
    when the call throws while persisting. *)
Theorem ids_stay_unique tok env w s :
  session (service w) = Some s -> token s = tok ->
  NoDup (id <$> entries (vault s)) ->
  (forall op w' r,
     match op with
     | OpAddEntry tok' _ => tok' = tok /\ uuid env ∉ (id <$> entries (vault s))
     | OpUpdateEntry tok' ident patch =>
         tok' = tok
         /\ forall i, u_id patch = Some i ->
              i = ident \/ i ∉ (id <$> entries (vault s))
     | OpDeleteEntry tok' _ => tok' = tok
     | _ => False
     end ->
     run op env w = (w', r) ->
     exists s', session (service w') = Some s'
                /\ NoDup (id <$> entries (vault s')))
  /\ (forall ident patch i w' r,
        u_id patch = Some i -> i <> ident ->
        i ∈ (id <$> entries (vault s)) ->
        ident ∈ (id <$> entries (vault s)) ->
        updateEntry tok ident patch env w = (w', r) ->
        exists s', session (service w') = Some s'
                   /\ ~ NoDup (id <$> entries (vault s'))).
Proof.
  intros Hs Ht Hnd.
  assert (vault s = NoEntries \/ vault s <> NoEntries) as [Hv|Hv]
    by (destruct (vault s); [right; discriminate | now left]).
  { split.
    - intros op w' r Hop Hrun.
      assert (run op env w
              = ({| service := touch (now env) (service w); disk := disk w |},
                 inl TypeError)) as Hthrow.
      { apply (run_noEntries op tok env w s Hs Ht Hv).
        destruct op; try contradiction; tauto. }
      rewrite Hthrow in Hrun. injection Hrun as <- _.
      exists (touched env s). split; [now apply touch_session|].
      simpl. rewrite Hv. apply NoDup_nil_2.
    - intros ident patch i w' r _ _ Hin. rewrite Hv in Hin.
      now apply elem_of_nil in Hin. }
  split.
  - intros op w' r Hop Hrun.
    destruct op as [| | | | |tok' payload|tok' ident patch|tok' ident];
      try contradiction; simpl in Hrun; unfold mapM, bindM in Hrun.
    + destruct Hop as [-> Hfresh].
      rewrite (addEntry_valid tok payload env w s Hs Ht Hv) in Hrun.
      cbv zeta in Hrun.
      set (s2 := set_vault _ _) in Hrun. set (w2 := Build_World _ _) in Hrun.
      destruct (persist s2 env w2) as [w3 r3] eqn:Hp.
      destruct (persist_cases s2 env w2 w3 r3 Hp) as [Hsvc _].
      exists s2. split.
      * simpl in Hrun. destruct r3 as [?|[]]; injection Hrun as <- _;
          now rewrite Hsvc.
      * simpl. rewrite fmap_app. apply NoDup_app. split; [exact Hnd|].
        split; [|apply NoDup_singleton].
        simpl. intros x Hx ->%list_elem_of_singleton. contradiction.
    + destruct Hop as [-> Hpatch].
      destruct (updateEntry tok ident patch env w) as [w1 r1] eqn:Hu.
      assert (w' = w1) as -> by (destruct r1; now injection Hrun as <- _).
      destruct (updateEntry_spec tok ident patch env w w1 r1 s Hs Ht Hv Hu)
        as (_ & Hnf & Hfound).
      assert (r1 = inl NOT_FOUND \/ r1 <> inl NOT_FOUND) as [Hr|Hr]
        by (destruct r1 as [[]|]; (now left) || (right; discriminate)).
      * destruct (Hnf Hr) as (_ & s' & Hs' & He). exists s'. now rewrite He.
      * destruct (Hfound Hr)
          as (idx & existing & s' & He & Hid & _ & Hs' & Hes & Hid' & _).
        exists s'. split; [exact Hs'|]. rewrite Hes, list_fmap_insert, Hid'.
        destruct (u_id patch) as [i|] eqn:Hi; simpl.
        -- destruct (Hpatch i eq_refl) as [-> | Hfresh].
           ++ rewrite list_insert_id; [exact Hnd|].
              rewrite list_lookup_fmap, He. simpl. congruence.
           ++ now apply NoDup_insert_fresh.
        -- rewrite list_insert_id; [exact Hnd|].
           rewrite list_lookup_fmap, He. simpl. congruence.
    + subst tok'.
      destruct (deleteEntry tok ident env w) as [w1 r1] eqn:Hd.
      assert (w' = w1) as -> by (destruct r1; now injection Hrun as <- _).
      destruct (deleteEntry_spec tok ident env w w1 r1 s Hs Ht Hv Hd)
        as ((s' & Hs' & He & _) & _).
      exists s'. split; [exact Hs'|]. rewrite He.
      apply (NoDup_fmap_2_strong id); [|].
      * intros x y Hx Hy Hxy.
        apply list_elem_of_filter in Hx as [_ Hx].
        apply list_elem_of_filter in Hy as [_ Hy].
        apply list_elem_of_lookup in Hx as [i Hi].
        apply list_elem_of_lookup in Hy as [j Hj].
        assert (i = j).
        { apply (NoDup_lookup _ i j (id x) Hnd);
            rewrite list_lookup_fmap; [rewrite Hi | rewrite Hj]; simpl;
            congruence. }
        subst j. congruence.
      * apply NoDup_filter. eapply NoDup_fmap_1. exact Hnd.
  - intros ident patch i w' r Hi Hne Hin Hident Hu.
    destruct (updateEntry_spec tok ident patch env w w' r s Hs Ht Hv Hu)
      as (Hiff & _ & Hfound).
    assert (r <> inl NOT_FOUND) as Hr.
    { intros Hnf. apply Hiff in Hnf. rewrite Forall_forall in Hnf.
      apply list_elem_of_fmap in Hident as (e & He & Hine).
      apply (Hnf e Hine). now symmetry. }
    destruct (Hfound Hr)
      as (idx & existing & s' & He & Hid & _ & Hs' & Hes & Hid' & _).
    exists s'. split; [exact Hs'|]. intros Hdup.
    rewrite Hes, list_fmap_insert, Hid', Hi in Hdup. simpl in Hdup.
    apply list_elem_of_lookup in Hin as [j Hj].
    assert (j <> idx) as Hji.
    { intros ->. rewrite list_lookup_fmap, He in Hj. simpl in Hj. congruence. }
    assert (idx < length (id <$> entries (vault s)))%nat as Hlen.
    { rewrite length_fmap. now apply lookup_lt_Some in He. }
    apply Hji.
    apply (NoDup_lookup _ j idx i Hdup).
    + rewrite list_lookup_insert_ne by auto. exact Hj.
    + now apply list_lookup_insert_eq.
Qed.

End ExecFacts.

Section Durability.
Context `{Platform}.

Hypothesis base64_roundtrip : forall b, base64_decode (base64_encode b) = b.

Hypothesis gcm_roundtrip : forall k nonce plain encrypted tag,
  gcm_encrypt k nonce plain = Some (encrypted, tag) ->
  gcm_decrypt k nonce tag encrypted = Some plain.

Hypothesis mac_nonempty : forall k msg,
  Js.truthy (base64_encode (hmac_sha256 k msg)) = true.

(** A file written by [encryptVaultWithKey] decrypts under the same key to
    the vault it was written from. *)
Lemma decryptVaultWithKey_written rnd d k params f :
  outcome (encryptVaultWithKey rnd d k params) = inr f ->
  parse_data (stringify_data d) = Some d ->
  decryptVaultWithKey f k
  = ([CallHmac; CallGcmDecrypt; CallJsonParse], inr d).
Proof.
  intros He Hj.
  pose proof (encryptVaultWithKey_sealed _ _ _ _ _ He) as Hs.
  apply encryptVaultWithKey_inv in He as (_ & _ & _ & _ & Hv & _ & Hm).
  assert (verifyIntegrity f k = ([CallHmac], inr tt)) as Hg.
  { rewrite verifyIntegrity_present;
      [|lia|exact (tagged_not_falsy mac_nonempty f k Hm)].
    now rewrite bool_decide_eq_true_2. }
  exact (decryptVaultWithKey_sealed base64_roundtrip gcm_roundtrip
           f k _ rnd d Hg Hs Hj).
Qed.

(** [unlock] on a disk whose vault file parses and decrypts to a vault
    that has its entries. *)
Lemma unlock_existing pw create env w raw f v k params :
  fault env = NoFault ->
  vault_path (disk w) = Some raw -> parse_file raw = Some f ->
  outcome (decryptVault f pw) = inr (v, k, params) ->
  v <> NoEntries ->
  unlock pw create env w
  = ({| service :=
          scheduleLock (now env)
            (set_session
               (Some {| token := uuid env; key := k; s_kdf := params;
                        vault := v; lastActivity := now env |})
               (service w));
        disk := disk w |},
     inr {| created := false; r_token := uuid env;
            r_entries := Z.of_nat (length (entries v)) |}).
Proof.
  intros Hf Hraw Hparse Hd Hv.
  unfold unlock, bindM, liftEff, onDisk, vaultExists, readVaultFile.
  rewrite Hf, Hraw, Hparse. simpl.
  try rewrite bool_decide_eq_true_2 by eauto. simpl. rewrite Hd.
  destruct v; [reflexivity|contradiction].
Qed.

(** A mutation that returns has written the vault in memory to the vault
    path, under the key and the kdf parameters of the session. *)
Lemma mutation_persisted op tok env w w' r s :
  session (service w) = Some s -> token s = tok ->
  match op with
  | OpAddEntry tok' _ | OpUpdateEntry tok' _ _ | OpDeleteEntry tok' _ => tok' = tok
  | _ => False
  end ->
  run op env w = (w', inr r) ->
  exists s' f,
    session (service w') = Some s'
    /\ key s' = key s /\ s_kdf s' = s_kdf s /\ token s' = token s
    /\ outcome (encryptVaultWithKey (rand12 env) (vault s') (key s') (s_kdf s'))
       = inr f
    /\ vault_path (disk w') = Some (stringify_file f)
    /\ vault s' <> NoEntries.
Proof.
  intros Hs Ht Hop Hrun.
  assert (vault s <> NoEntries) as Hv.
  { intros Hv. rewrite (run_noEntries op tok env w s Hs Ht Hv) in Hrun;
      [discriminate|]. destruct op; try contradiction; exact Hop. }
  assert (forall s2 w2 w3 r3,
            persist s2 env w2 = (w3, r3) -> r3 = inr tt ->
            session (service w2) = Some s2 ->
            exists f,
              session (service w3) = Some s2
              /\ outcome (encryptVaultWithKey (rand12 env) (vault s2) (key s2)
                                              (s_kdf s2)) = inr f
              /\ vault_path (disk w3) = Some (stringify_file f)) as Hpersist.
  { intros s2 w2 w3 r3 Hp -> Hs2.
    destruct (persist_cases s2 env w2 w3 _ Hp)
      as [Hsvc [[[=] _]|(f & Hf & [[_ Hpath]|[[=] _]])]].
    exists f. rewrite Hsvc. auto. }
  destruct op as [| | | | |tok' payload|tok' ident patch|tok' ident];
    try contradiction; subst tok'; simpl in Hrun; unfold mapM, bindM in Hrun.
  - rewrite (addEntry_valid tok payload env w s Hs Ht Hv) in Hrun.
    cbv zeta in Hrun.
    set (s2 := set_vault _ _) in Hrun. set (w2 := Build_World _ _) in Hrun.
    destruct (persist s2 env w2) as [w3 r3] eqn:Hp. simpl in Hrun.
    destruct r3 as [?|[]]; [discriminate|]. injection Hrun as <- _.
    destruct (Hpersist s2 w2 w3 _ Hp eq_refl eq_refl) as (f & H1 & H2 & H3).
    exists s2, f. repeat split; auto; discriminate.
  - rewrite (updateEntry_valid tok ident patch env w s Hs Ht Hv) in Hrun.
    cbv zeta in Hrun.
    destruct (findIndex ident (entries (vault s))) as [idx|]; [|discriminate].
    destruct (entries (vault s) !! idx) as [existing|]; [|discriminate].
    set (s2 := set_vault _ _) in Hrun. set (w2 := Build_World _ _) in Hrun.
    destruct (persist s2 env w2) as [w3 r3] eqn:Hp. simpl in Hrun.
    destruct r3 as [?|[]]; [discriminate|]. injection Hrun as <- _.
    destruct (Hpersist s2 w2 w3 _ Hp eq_refl eq_refl) as (f & H1 & H2 & H3).
    exists s2, f. repeat split; auto; discriminate.
  - rewrite (deleteEntry_valid tok ident env w s Hs Ht Hv) in Hrun.
    cbv zeta in Hrun.
    set (s2 := set_vault _ _) in Hrun. set (w2 := Build_World _ _) in Hrun.
    destruct (_ =? _)%nat; [discriminate|].
    destruct (persist s2 env w2) as [w3 r3] eqn:Hp.
    destruct r3 as [?|[]]; [discriminate|]. injection Hrun as <- _.
    destruct (Hpersist s2 w2 w3 _ Hp eq_refl eq_refl) as (f & H1 & H2 & H3).
    exists s2, f. repeat split; auto; discriminate.
Qed.

(** X11. Write-through and restart. When [addEntry], [updateEntry] or
    [deleteEntry] returns, in a session whose key is the one derived from
    the master password, a new service started on the same disk unlocks
    with that password into exactly the vault that was in memory, with the
    same key, provided the file and the vault survive JSON
    serialisation. *)
Theorem mutation_survives_restart op tok env w w' r s pw env2 timeout :
  session (service w) = Some s -> token s = tok ->
  match op with
  | OpAddEntry tok' _ | OpUpdateEntry tok' _ _ | OpDeleteEntry tok' _ => tok' = tok
  | _ => False
  end ->
  outcome (deriveKey pw (s_kdf s)) = inr (key s) ->
  run op env w = (w', inr r) ->
  (forall s', session (service w') = Some s' ->
     parse_data (stringify_data (vault s')) = Some (vault s')
     /\ forall f,
          outcome (encryptVaultWithKey (rand12 env) (vault s') (key s') (s_kdf s'))
          = inr f ->
          parse_file (stringify_file f) = Some f) ->
  fault env2 = NoFault ->
  exists s',
    session (service w') = Some s'
    /\ unlock pw false env2
         {| service := newVaultService timeout; disk := disk w' |}
       = ({| service :=
               scheduleLock (now env2)
                 (set_session
                    (Some {| token := uuid env2; key := key s'; s_kdf := s_kdf s';
                             vault := vault s'; lastActivity := now env2 |})
                    (newVaultService timeout));
             disk := disk w' |},
          inr {| created := false; r_token := uuid env2;
                 r_entries := Z.of_nat (length (entries (vault s'))) |}).
Proof.
  intros Hs Ht Hop Hk Hrun Hjson Hf2.
  destruct (mutation_persisted op tok env w w' r s Hs Ht Hop Hrun)
    as (s' & f & Hs' & Hkey & Hkdf & _ & Henc & Hpath & Hshape).
  destruct (Hjson s' Hs') as [Hjd Hjf].
  exists s'. split; [exact Hs'|].
  pose proof (encryptVaultWithKey_inv _ _ _ _ _ Henc) as (_ & _ & _ & _ & _ & Hp & _).
  rewrite (unlock_existing pw false env2
             {| service := newVaultService timeout; disk := disk w' |}
             (stringify_file f) f (vault s') (key s') (s_kdf s'));
    [reflexivity | exact Hf2 | exact Hpath | now apply Hjf | | exact Hshape].
  rewrite (decryptVault_eq f pw (key s')).
  - rewrite (decryptVaultWithKey_written _ _ _ _ _ Henc Hjd). simpl.
    now rewrite Hp.
  - now rewrite Hp, Hkdf, Hkey.
Qed.

End Durability.

Section SessionFacts.
Context `{Platform}.

Lemma decryptVault_inv f pw v k params :
  outcome (decryptVault f pw) = inr (v, k, params) ->
  outcome (deriveKey pw (kdf f)) = inr k /\ params = kdf f.
Proof.
  unfold decryptVault. rewrite deriveKey_eq.
  destruct (scrypt _ _ _ _ _ _ _) as [k0|]; simpl; [|discriminate].
  destruct (decryptVaultWithKey f k0) as [t [e|d]]; simpl; [discriminate|].
  now intros [= _ <- <-].
Qed.

(** X12. When [unlock] returns, there is a session with the fresh token,
    which is the token returned; its last activity is now; the number of
    entries returned is the size of its vault, which is empty for a
    created vault; its key is the one derived from the password under its
    kdf parameters; opening an existing vault leaves the disk as it was;
    and every other token, among them the token of a session that was
    replaced, is refused with INVALID_SESSION by every operation. *)
Theorem unlock_success pw create env w w' r :
  unlock pw create env w = (w', inr r) ->
  exists s',
    session (service w') = Some s'
    /\ token s' = uuid env /\ r_token r = uuid env
    /\ lastActivity s' = now env
    /\ r_entries r = Z.of_nat (length (entries (vault s')))
    /\ outcome (deriveKey pw (s_kdf s')) = inr (key s')
    /\ (created r = true -> entries (vault s') = [])
    /\ (created r = false -> disk w' = disk w)
    /\ forall op tok env2,
         presented op = Some tok -> tok <> uuid env ->
         run op env2 w' = (w', inl INVALID_SESSION).
Proof.
  intros Hu.
  assert (exists s',
            session (service w') = Some s'
            /\ token s' = uuid env /\ r_token r = uuid env
            /\ lastActivity s' = now env
            /\ r_entries r = Z.of_nat (length (entries (vault s')))
            /\ outcome (deriveKey pw (s_kdf s')) = inr (key s')
            /\ (created r = true -> entries (vault s') = [])
            /\ (created r = false -> disk w' = disk w)) as (s' & Hs' & Ht & Hrest).
  { revert Hu. unfold unlock, bindM, liftEff, onDisk, throwM, retM, install,
      getService, putService.
    destruct (vaultExists (fault env) (disk w)); simpl.
    - destruct (readVaultFile (fault env) (disk w)) as [e1|vaultFile]; simpl;
        [discriminate|].
      destruct (outcome (decryptVault vaultFile pw)) as [e2|[[v k] params]] eqn:Hd;
        [discriminate|].
      simpl. destruct v as [es|]; simpl; [|discriminate].
      intros [= <- <-]. simpl.
      destruct (decryptVault_inv _ _ _ _ _ Hd) as [Hk ->].
      eexists. split.
      { unfold scheduleLock, clearLockTimer. simpl.
        destruct (lockTimeoutMs (service w) <=? 0); reflexivity. }
      simpl. repeat split; auto. discriminate.
    - destruct create; simpl; [|discriminate].
      destruct (outcome (encryptVault _ _ _ pw)) as [e1|[file k]] eqn:He; simpl;
        [discriminate|].
      destruct (writeVaultFile (fault env) file (disk w)) as [d [e2|[]]];
        [discriminate|].
      simpl. intros [= <- <-]. simpl.
      apply encryptVault_inv in He as [Hk He].
      apply encryptVaultWithKey_inv in He as (_ & _ & _ & _ & _ & Hp & _).
      eexists. split.
      { unfold scheduleLock, clearLockTimer. simpl.
        destruct (lockTimeoutMs (service w) <=? 0); reflexivity. }
      simpl. repeat split; auto; [now rewrite Hp | discriminate]. }
  exists s'. split; [exact Hs'|]. split; [exact Ht|].
  destruct Hrest as (H1 & H2 & H3 & H4 & H5 & H6). repeat split; auto.
  intros op tok env2 Hp Hne.
  apply (run_requireSession_throw op tok); [exact Hp|].
  apply requireSession_invalid with s'; [exact Hs' | congruence].
Qed.

Lemma keepsTimer_bind {A B} (m : M A) (k : A -> M B) :
  keepsTimer m -> (forall a, keepsTimer (k a)) -> keepsTimer (bindM m k).
Proof.
  intros Hm Hk w w' r Hi. unfold bindM.
  destruct (m w) as [w1 [e|a]] eqn:Hmw.
  - intros [= <- <-]. exact (Hm _ _ _ Hi Hmw).
  - intros Hka. destruct (Hm _ _ _ Hi Hmw) as [Hi1 Ht1].
    destruct (Hk a _ _ _ Hi1 Hka) as [Hi2 Ht2]. split; [exact Hi2 | congruence].
Qed.

Lemma keepsTimer_same_service {A} (m : M A) :
  (forall w w' r, m w = (w', r) -> service w' = service w) -> keepsTimer m.
Proof. intros Hm w w' r Hi Hr. rewrite (Hm _ _ _ Hr). auto. Qed.

Lemma keepsTimer_retM {A} (a : A) : keepsTimer (retM a).
Proof. apply keepsTimer_same_service. now intros w w' r [= <- _]. Qed.

Lemma keepsTimer_throwM {A} (e : Error) : keepsTimer (@throwM A e).
Proof. apply keepsTimer_same_service. now intros w w' r [= <- _]. Qed.

Lemma keepsTimer_liftEff {A} (m : Eff A) : keepsTimer (liftEff m).
Proof. apply keepsTimer_same_service. now intros w w' r [= <- _]. Qed.

Lemma keepsTimer_onDisk {A} (f : Disk -> Disk * Result A) : keepsTimer (onDisk f).
Proof.
  apply keepsTimer_same_service. intros w w' r. unfold onDisk.
  destruct (f (disk w)). now intros [= <- _].
Qed.

Lemma keepsTimer_mapM {A B} (f : A -> B) (m : M A) :
  keepsTimer m -> keepsTimer (mapM f m).
Proof. intros Hm. apply keepsTimer_bind; auto using keepsTimer_retM. Qed.

(** The delay of the timer for a positive timeout. *)
Lemma timerDelay_positive (ms : Z) :
  0 < ms -> timerDelay ms = if TIMEOUT_MAX <? ms then 1 else ms.
Proof.
  intros Hpos. unfold timerDelay.
  destruct (TIMEOUT_MAX <? ms); [reflexivity|].
  destruct (Z.ltb_spec ms 1); [lia|reflexivity].
Qed.

Lemma timerInv_scheduled (t : Z) (svc : VaultService) (s : SessionData) :
  lastActivity s = t ->
  timerInv (scheduleLock t (set_session (Some s) svc))
  /\ lockTimeoutMs (scheduleLock t (set_session (Some s) svc)) = lockTimeoutMs svc.
Proof.
  intros Hl. unfold timerInv, scheduleLock, clearLockTimer. simpl.
  destruct (lockTimeoutMs svc <=? 0) eqn:Hz; simpl; rewrite Hz; rewrite ?Hl; auto.
  split; [|reflexivity]. apply Z.leb_gt in Hz.
  now rewrite (timerDelay_positive _ Hz).
Qed.

Lemma timerInv_touch (t : Z) (svc : VaultService) :
  timerInv svc ->
  timerInv (touch t svc) /\ lockTimeoutMs (touch t svc) = lockTimeoutMs svc.
Proof.
  intros Hi. unfold touch. destruct (session svc) as [s|] eqn:Hs; [|auto].
  now apply timerInv_scheduled.
Qed.

Lemma keepsTimer_requireSession tok env : keepsTimer (requireSession tok env).
Proof.
  intros w w' r Hi. unfold requireSession, bindM, getService, putService,
    throwM, retM.
  destruct (session (service w)) as [s|] eqn:Hs; [|now intros [= <- _]].
  destruct (negb _); [now intros [= <- _]|].
  intros [= <- _]. simpl. now apply timerInv_touch.
Qed.

Lemma keepsTimer_updateVault v : keepsTimer (updateVault v).
Proof.
  intros w w' r Hi. unfold updateVault, bindM, getService, putService,
    throwM, retM.
  destruct (session (service w)) as [s|] eqn:Hs; [|now intros [= <- _]].
  intros [= <- _]. simpl. split; [|reflexivity].
  unfold timerInv in *. simpl. now rewrite Hi, Hs.
Qed.

Lemma keepsTimer_vaultEntries v : keepsTimer (vaultEntries v).
Proof. destruct v; [apply keepsTimer_retM | apply keepsTimer_throwM]. Qed.

Lemma keepsTimer_install env k params v : keepsTimer (install env k params v).
Proof.
  intros w w' r Hi. unfold install, bindM, getService, putService.
  intros [= <- _]. simpl. now apply timerInv_scheduled.
Qed.

Lemma keepsTimer_persist s env : keepsTimer (persist s env).
Proof.
  unfold persist. apply keepsTimer_bind; [apply keepsTimer_liftEff|].
  intros f. apply keepsTimer_onDisk.
Qed.

Lemma keepsTimer_unlock pw create env : keepsTimer (unlock pw create env).
Proof.
  intros w w' r. unfold unlock.
  destruct (negb (vaultExists (fault env) (disk w))).
  - destruct (negb create); [apply keepsTimer_throwM|].
    apply keepsTimer_bind; [apply keepsTimer_liftEff|]. intros enc.
    apply keepsTimer_bind; [apply keepsTimer_onDisk|]. intros _.
    apply keepsTimer_bind; auto using keepsTimer_install, keepsTimer_retM.
  - apply keepsTimer_bind; [apply keepsTimer_onDisk|]. intros vaultFile.
    apply keepsTimer_bind; [apply keepsTimer_liftEff|]. intros [[v k] params].
    apply keepsTimer_bind; [apply keepsTimer_install|]. intros _.
    apply keepsTimer_bind; auto using keepsTimer_vaultEntries, keepsTimer_retM.
Qed.

Lemma timerInv_lock (svc : VaultService) :
  timerInv (lock svc) /\ lockTimeoutMs (lock svc) = lockTimeoutMs svc.
Proof. split; reflexivity. Qed.

(** X13. Sliding expiry. A new service has no timer, and every operation,
    as well as the firing of the timer, keeps the timeout and keeps the
    timer in step with the session: no timer is pending without a session
    or with a timeout of 0 or less, and otherwise the pending timer is due
    exactly one timer delay after the session's last activity: the
    timeout, or one millisecond when the timeout is above 2^31 - 1, which
    [setTimeout] does not accept. *)
Theorem timer_follows_activity :
  (forall timeout, timerInv (newVaultService timeout))
  /\ (forall op env w w' r,
        timerInv (service w) -> run op env w = (w', r) ->
        timerInv (service w')
        /\ lockTimeoutMs (service w') = lockTimeoutMs (service w))
  /\ (forall t svc,
        timerInv svc ->
        timerInv (timerFires t svc)
        /\ lockTimeoutMs (timerFires t svc) = lockTimeoutMs svc).
Proof.
  split; [reflexivity|]. split.
  - intros op env. change (keepsTimer (run op env)).
    destruct op; simpl.
    + apply keepsTimer_mapM, keepsTimer_unlock.
    + intros w w' r Hi [= <- _]. simpl. apply timerInv_lock.
    + apply keepsTimer_mapM. unfold touchSession.
      apply keepsTimer_bind; auto using keepsTimer_requireSession, keepsTimer_retM.
    + apply keepsTimer_mapM. unfold getEntries.
      apply keepsTimer_bind; [apply keepsTimer_requireSession|]. intros s.
      apply keepsTimer_bind; auto using keepsTimer_vaultEntries, keepsTimer_retM.
    + apply keepsTimer_mapM. unfold getEntriesForDomain.
      apply keepsTimer_bind; [apply keepsTimer_requireSession|]. intros s.
      apply keepsTimer_bind; auto using keepsTimer_vaultEntries, keepsTimer_retM.
    + apply keepsTimer_mapM. unfold addEntry.
      apply keepsTimer_bind; [apply keepsTimer_requireSession|]. intros s.
      apply keepsTimer_bind; [apply keepsTimer_vaultEntries|]. intros es.
      apply keepsTimer_bind; [apply keepsTimer_updateVault|]. intros s'.
      apply keepsTimer_bind; auto using keepsTimer_persist, keepsTimer_retM.
    + apply keepsTimer_mapM. unfold updateEntry.
      apply keepsTimer_bind; [apply keepsTimer_requireSession|]. intros s.
      apply keepsTimer_bind; [apply keepsTimer_vaultEntries|]. intros es.
      destruct (findIndex _ _) as [idx|]; [|apply keepsTimer_throwM].
      destruct (_ !! idx) as [existing|]; [|apply keepsTimer_throwM].
      apply keepsTimer_bind; [apply keepsTimer_updateVault|]. intros s'.
      apply keepsTimer_bind; auto using keepsTimer_persist, keepsTimer_retM.
    + apply keepsTimer_mapM. unfold deleteEntry.
      apply keepsTimer_bind; [apply keepsTimer_requireSession|]. intros s.
      apply keepsTimer_bind; [apply keepsTimer_vaultEntries|]. intros es.
      apply keepsTimer_bind; [apply keepsTimer_updateVault|]. intros s'.
      destruct (_ =? _)%nat; auto using keepsTimer_persist, keepsTimer_throwM.
  - intros t svc Hi. unfold timerFires.
    destruct (lockTimer svc) as [deadline|]; [|auto].
    destruct (deadline <=? t); [apply timerInv_lock | auto].
Qed.

(** X14. Auto-lock. In a service whose timer is in step with its session:
    with a timeout between 1 and 2^31 - 1 milliseconds, the timer firing at
    or after one timeout past the last activity locks the service, after
    which every operation that presents a token fails with LOCKED, and
    fired earlier it changes nothing; with a timeout above 2^31 - 1 the
    delay of the timer is one millisecond, so the service is locked one
    millisecond after the last activity; with a timeout of 0 or less the
    service is never locked by the timer. *)
Theorem auto_lock (svc : VaultService) (s : SessionData) (t : Z) :
  timerInv svc -> session svc = Some s ->
  (0 < lockTimeoutMs svc <= TIMEOUT_MAX ->
   lastActivity s + lockTimeoutMs svc <= t ->
   timerFires t svc = lock svc
   /\ forall op tok env d,
        presented op = Some tok ->
        run op env {| service := timerFires t svc; disk := d |}
        = ({| service := timerFires t svc; disk := d |}, inl LOCKED))
  /\ (0 < lockTimeoutMs svc <= TIMEOUT_MAX ->
      t < lastActivity s + lockTimeoutMs svc ->
      timerFires t svc = svc)
  /\ (TIMEOUT_MAX < lockTimeoutMs svc ->
      (lastActivity s + 1 <= t ->
       timerFires t svc = lock svc
       /\ forall op tok env d,
            presented op = Some tok ->
            run op env {| service := timerFires t svc; disk := d |}
            = ({| service := timerFires t svc; disk := d |}, inl LOCKED))
      /\ (t <= lastActivity s -> timerFires t svc = svc))
  /\ (lockTimeoutMs svc <= 0 -> timerFires t svc = svc).
Proof.
  intros Hi Hs. unfold timerInv in Hi. rewrite Hs in Hi.
  assert (forall d, lock svc = timerFires t svc ->
            forall op tok env,
              presented op = Some tok ->
              run op env {| service := timerFires t svc; disk := d |}
              = ({| service := timerFires t svc; disk := d |}, inl LOCKED))
    as Hlocked.
  { intros d Hl op tok env Hp.
    apply (run_requireSession_throw op tok); [exact Hp|].
    apply requireSession_locked. simpl. now rewrite <- Hl. }
  unfold TIMEOUT_MAX in *. unfold timerFires in *. rewrite Hi in *.
  split; [|split; [|split]].
  - intros Hpos Hdue. destruct (Z.leb_spec (lockTimeoutMs svc) 0); [lia|].
    destruct (Z.ltb_spec 2147483647 (lockTimeoutMs svc)); [lia|].
    destruct (Z.leb_spec (lastActivity s + lockTimeoutMs svc) t); [|lia].
    split; [reflexivity|]. intros op tok env d Hp.
    now apply (Hlocked d eq_refl op tok env).
  - intros Hpos Hearly. destruct (Z.leb_spec (lockTimeoutMs svc) 0); [lia|].
    destruct (Z.ltb_spec 2147483647 (lockTimeoutMs svc)); [lia|].
    destruct (Z.leb_spec (lastActivity s + lockTimeoutMs svc) t); [lia|].
    reflexivity.
  - intros Hbig. destruct (Z.leb_spec (lockTimeoutMs svc) 0); [lia|].
    destruct (Z.ltb_spec 2147483647 (lockTimeoutMs svc)); [|lia].
    split.
    + intros Hdue. destruct (Z.leb_spec (lastActivity s + 1) t); [|lia].
      split; [reflexivity|]. intros op tok env d Hp.
      now apply (Hlocked d eq_refl op tok env).
    + intros Hearly. destruct (Z.leb_spec (lastActivity s + 1) t); [lia|].
      reflexivity.
  - intros Hoff. destruct (Z.leb_spec (lockTimeoutMs svc) 0); [|lia].
    reflexivity.
Qed.







End SessionFacts.

(** ** Matching as an order on domains *)

Section DomainOrder.
Context `{Platform}.

Lemma string_app_assoc (a b c : string) : (a +:+ b) +:+ c = a +:+ (b +:+ c).
Proof.
  induction a as [|x a IH]; [reflexivity|].
  change (String x a +:+ b) with (String x (a +:+ b)).
  change (String x (a +:+ b) +:+ c) with (String x ((a +:+ b) +:+ c)).
  change (String x a +:+ (b +:+ c)) with (String x (a +:+ (b +:+ c))).
  now rewrite IH.
Qed.

Lemma dot_subdomain_trans (a b c : string) :
  dot_subdomain b a -> dot_subdomain c b -> dot_subdomain c a.
Proof.
  intros [p ->] [q ->]. exists (q +:+ "." +:+ p).
  now rewrite !string_app_assoc.
Qed.

(** X16. Matching orders domains by their normal forms: every domain
    matches itself; if [b] matches entry [a] and [c] matches entry [b],
    then [c] matches entry [a]; and two domains that match each other have
    the same normal form. *)
Theorem domainMatches_order (a b c : string) :
  domainMatches a a = true
  /\ (domainMatches a b = true -> domainMatches b c = true ->
      domainMatches a c = true)
  /\ (domainMatches a b = true -> domainMatches b a = true ->
      normalizeDomain a = normalizeDomain b).
Proof.
  split; [apply domainMatches_unfold; now left|]. split.
  - rewrite !domainMatches_unfold.
    intros [Hab|Hab] [Hbc|Hbc].
    + left. congruence.
    + right. now rewrite <- Hab.
    + right. now rewrite Hbc.
    + right. now apply dot_subdomain_trans with (normalizeDomain b).
  - rewrite !domainMatches_unfold.
    intros [Hab|Hab] [Hba|Hba]; auto.
    apply dot_subdomain_longer in Hab, Hba. lia.
Qed.

End DomainOrder.

(** ** More on the vault codec *)

Section CodecMore.
Context `{Platform}.

Hypothesis base64_roundtrip : forall b, base64_decode (base64_encode b) = b.

Hypothesis gcm_roundtrip : forall k nonce plain encrypted tag,
  gcm_encrypt k nonce plain = Some (encrypted, tag) ->
  gcm_decrypt k nonce tag encrypted = Some plain.

Hypothesis gcm_wrong_key : forall k k' nonce plain encrypted tag,
  gcm_encrypt k nonce plain = Some (encrypted, tag) ->
  k' <> k -> gcm_decrypt k' nonce tag encrypted = None.

Hypothesis mac_nonempty : forall k msg,
  Js.truthy (base64_encode (hmac_sha256 k msg)) = true.

Hypothesis hmac_message_inj : forall k m m',
  hmac_sha256 k m = hmac_sha256 k m' -> m = m'.

Hypothesis header_inj : forall v p c v' p' c',
  stringify_header v p c = stringify_header v' p' c' ->
  v = v' /\ p = p' /\ c = c'.

Hypothesis scrypt_inj : forall pw pw' s len n r p cap k,
  scrypt pw s len n r p cap = Some k ->
  scrypt pw' s len n r p cap = Some k -> pw = pw'.

Hypothesis scrypt_accepts : forall pw pw' s len n r p cap,
  is_Some (scrypt pw s len n r p cap) -> is_Some (scrypt pw' s len n r p cap).

(** X17. The tag covers the version, the kdf parameters and the whole
    cipher payload: a file of version 2 or later that carries the tag of
    another file, and differs from it in version, kdf parameters, iv,
    ciphertext or authentication tag, fails with the integrity error
    before the cipher is opened. *)
Theorem header_tamper_detected (f f' : VaultFile) (k : Buffer) :
  hmac f = Some (tagOf f k) ->
  hmac f' = hmac f ->
  2 <= version f' ->
  (version f', kdf f', cipher f') <> (version f, kdf f, cipher f) ->
  decryptVaultWithKey f' k = ([CallHmac], inl (IntegrityError HmacMismatch)).
Proof.
  intros Hm Hsame Hv Hdiff. apply decryptVaultWithKey_guard.
  rewrite verifyIntegrity_present; [|exact Hv|].
  - rewrite bool_decide_eq_false_2; [reflexivity|].
    rewrite Hsame, Hm. intros [= Heq]. apply Hdiff. unfold tagOf in Heq.
    apply (base64_encode_inj base64_roundtrip), hmac_message_inj, header_inj
      in Heq as (-> & -> & ->).
    reflexivity.
  - unfold hmac_falsy. rewrite Hsame, Hm. unfold tagOf.
    now rewrite mac_nonempty.
Qed.

(** X18. Below version 2 nothing but the payload is checked: a file that
    carries the cipher payload of a file written by [encryptVaultWithKey]
    and a version below 2 decrypts under the key to the vault that was
    written, whatever its kdf parameters and its tag are, and the MAC is
    not computed. *)
Theorem downgrade_skips_integrity rnd d k params f (f' : VaultFile) :
  outcome (encryptVaultWithKey rnd d k params) = inr f ->
  parse_data (stringify_data d) = Some d ->
  cipher f' = cipher f ->
  version f' < 2 ->
  decryptVaultWithKey f' k = ([CallGcmDecrypt; CallJsonParse], inr d).
Proof.
  intros He Hj Hc Hv.
  pose proof (encryptVaultWithKey_sealed _ _ _ _ _ He) as Hs.
  rewrite <- Hc in Hs.
  exact (decryptVaultWithKey_sealed base64_roundtrip gcm_roundtrip f' k [] rnd d
           (verifyIntegrity_legacy f' k Hv) Hs Hj).
Qed.

(** X19. For a file below version 2 a wrong password is found by the
    cipher: when the payload was sealed under the key of one password,
    decrypting with another password fails with the authentication error,
    after scrypt and the cipher alone were called. *)
Theorem legacy_wrong_password f pw wrong k rnd plain :
  version f < 2 ->
  outcome (deriveKey pw (kdf f)) = inr k ->
  outcome (encryptPayload rnd plain k) = inr (cipher f) ->
  wrong <> pw ->
  decryptVault f wrong = ([CallScrypt; CallGcmDecrypt], inl AuthenticationError).
Proof.
  intros Hv Hk Hs Hne.
  rewrite deriveKey_eq in Hk. simpl in Hk.
  destruct (scrypt pw _ _ _ _ _ _) as [k0|] eqn:Hpw; [|discriminate].
  injection Hk as ->.
  destruct (scrypt_accepts pw wrong _ _ _ _ _ _ (mk_is_Some _ _ Hpw))
    as [k' Hwrong].
  assert (k' <> k) as Hkk.
  { intros ->. apply Hne. exact (scrypt_inj _ _ _ _ _ _ _ _ _ Hwrong Hpw). }
  unfold decryptVault. rewrite deriveKey_eq, Hwrong. simpl.
  rewrite (decryptVaultWithKey_pass f k' [] (verifyIntegrity_legacy f k' Hv)).
  revert Hs. unfold encryptPayload, outcome. simpl.
  destruct (gcm_encrypt k rnd plain) as [[encrypted tag]|] eqn:He; simpl;
    [|discriminate].
  intros [= <-]. simpl. rewrite !base64_roundtrip.
  now rewrite (gcm_wrong_key _ _ _ _ _ _ He Hkk).
Qed.

End CodecMore.

(** * The routes *)

Section RouteFacts.
Context `{Platform}.
Import Validators Api.

(** A client at or over the threshold is refused for the rest of its
    window, and stays at or over the threshold. *)
Lemma middlewareKey_saturated k t rl e :
  attempts rl !! k = Some e -> maxAttempts rl <= count e -> t <= resetAt e ->
  exists n e',
    snd (middlewareKey k t rl) = TooManyRequests n
    /\ attempts (fst (middlewareKey k t rl)) !! k = Some e'
    /\ count e <= count e' /\ resetAt e' = resetAt e
    /\ maxAttempts (fst (middlewareKey k t rl)) = maxAttempts rl.
Proof.
  intros Hk Hc Ht. unfold middlewareKey. rewrite Hk.
  destruct (isBlocked (Some e) t) as [b|].
  - exists (ceilSeconds (b - t)), e. simpl. repeat split; auto; lia.
  - destruct (Z.ltb_spec (resetAt e) t); [lia|].
    destruct (Z.ltb_spec (maxAttempts rl) (count e + 1)); [|lia].
    eexists _, _. simpl. rewrite lookup_insert_eq.
    repeat split; simpl; lia.
Qed.

Lemma unlockRoute_refused req t pw create env srv n :
  snd (middleware req t (unlockRateLimiter srv)) = TooManyRequests n ->
  unlockRoute req t pw create env srv
  = ({| world := world srv;
        unlockRateLimiter := fst (middleware req t (unlockRateLimiter srv)) |},
     snd (unlockRoute req t pw create env srv))
  /\ statusCode (snd (unlockRoute req t pw create env srv)) = 429.
Proof.
  intros Hm. unfold unlockRoute.
  destruct (middleware req t (unlockRateLimiter srv)) as [rl v]. simpl in Hm.
  subst v. simpl. split; reflexivity.
Qed.

(** X20. Once a client's count has reached the threshold, every unlock
    request it sends before its window ends is answered 429, whatever the
    password (the right one included) and however short the lockout, and
    none of them reaches the vault service: the service and the disk stay
    as they were. *)
Theorem unlock_lockout_holds req create env (l : list (Z * JsValue)) :
  forall srv e,
    attempts (unlockRateLimiter srv) !! getClientKey req = Some e ->
    maxAttempts (unlockRateLimiter srv) <= count e ->
    (forall t pw, In (t, pw) l -> t <= resetAt e) ->
    world (fst (unlockRequests req create env l srv)) = world srv
    /\ Forall (fun r => statusCode r = 429)
              (snd (unlockRequests req create env l srv)).
Proof.
  induction l as [|[t pw] l IH]; intros srv e Hk Hc Hl.
  - simpl. split; [reflexivity|constructor].
  - assert (t <= resetAt e) as Ht by (apply (Hl t pw); now left).
    destruct (middlewareKey_saturated _ t _ e Hk Hc Ht)
      as (n & e' & Hv & Hk' & Hc' & Hr' & Hm').
    destruct (unlockRoute_refused req t pw create env srv n Hv) as [Hu Hs].
    simpl. rewrite Hu.
    set (srv1 := {| world := world srv;
                    unlockRateLimiter :=
                      fst (middleware req t (unlockRateLimiter srv)) |}).
    destruct (IH srv1 e') as [Hw Hall].
    + exact Hk'.
    + simpl. unfold middleware. rewrite Hm'. lia.
    + intros t' pw' Hin. rewrite Hr'. apply (Hl t' pw'). now right.
    + destruct (unlockRequests req create env l srv1) as [srv2 rs].
      simpl in *. split; [exact Hw|]. constructor; [exact Hs|exact Hall].
Qed.


(** [unlock] returns the token of the session it installs. *)
Lemma unlock_returns pw create env w w' r :
  unlock pw create env w = (w', inr r) ->
  exists s, session (service w') = Some s /\ token s = r_token r.
Proof.
  unfold unlock, bindM, liftEff, onDisk, throwM, retM, install, getService,
    putService.
  destruct (vaultExists (fault env) (disk w)); simpl.
  - destruct (readVaultFile (fault env) (disk w)) as [e1|vaultFile]; simpl;
      [discriminate|].
    destruct (outcome (decryptVault vaultFile pw)) as [e2|[[v k] params]];
      [discriminate|].
    simpl. destruct v as [es|]; simpl; [|discriminate].
    intros [= <- <-]. simpl. eexists. split.
    { unfold scheduleLock, clearLockTimer. simpl.
      destruct (lockTimeoutMs (service w) <=? 0); reflexivity. }
    reflexivity.
  - destruct create; simpl; [|discriminate].
    destruct (outcome (encryptVault _ _ _ pw)) as [e1|[file k]]; simpl;
      [discriminate|].
    destruct (writeVaultFile (fault env) file (disk w)) as [d [e2|[]]];
      [discriminate|].
    simpl. intros [= <- <-]. simpl. eexists. split.
    { unfold scheduleLock, clearLockTimer. simpl.
      destruct (lockTimeoutMs (service w) <=? 0); reflexivity. }
    reflexivity.
Qed.

(** What the unlock route does with a request the limiter lets through. *)
Lemma unlockRoute_passed req t pw create env srv rl :
  middleware req t (unlockRateLimiter srv) = (rl, Next) ->
  unlockRoute req t pw create env srv
  = match validateMasterPassword pw with
    | Some message =>
        ({| world := world srv; unlockRateLimiter := rl |},
         respond 400 (ErrorBody message))
    | None =>
        match unlock (text pw) (truthy create) env (world srv) with
        | (w, inr result) =>
            ({| world := w; unlockRateLimiter := resetClient req rl |},
             respond 200 (UnlockBody result))
        | (w, inl NO_VAULT) =>
            ({| world := w; unlockRateLimiter := rl |},
             respond 404
               (ErrorBody "Vault not found. Pass createIfMissing to initialize."))
        | (w, inl _) =>
            ({| world := w; unlockRateLimiter := rl |},
             respond 401 (ErrorBody "Invalid master password"))
        end
    end.
Proof. intros Hm. unfold unlockRoute. now rewrite Hm. Qed.

Lemma middlewareKey_next_counted k t rl rl' :
  middlewareKey k t rl = (rl', Next) -> is_Some (attempts rl' !! k).
Proof.
  unfold middlewareKey.
  destruct (isBlocked (attempts rl !! k) t); [discriminate|].
  destruct (attempts rl !! k) as [e|].
  - destruct (resetAt e <? t).
    + intros [= <- ]. simpl. rewrite lookup_insert_eq. eauto.
    + destruct (maxAttempts rl <? count e + 1); [discriminate|].
      intros [= <-]. simpl. rewrite lookup_insert_eq. eauto.
  - intros [= <-]. simpl. rewrite lookup_insert_eq. eauto.
Qed.

(** X21. An unlock request that the limiter lets through is counted.
    If it is answered 200, the password was a string of 8 to 1000
    characters, the body carries the token of the session now installed,
    and the client's entry is removed from the limiter, the other clients'
    entries being kept.  If it is answered anything else, the attempt stays
    counted, and the service is what it was, with one exception: when the
    file decrypts under the password to a value without entries, the
    answer is 401 and the session is replaced all the same. *)
Theorem unlock_route_accounting req t pw create env srv srv' resp rl :
  middleware req t (unlockRateLimiter srv) = (rl, Next) ->
  unlockRoute req t pw create env srv = (srv', resp) ->
  (statusCode resp = 200 ->
     attempts (unlockRateLimiter srv') !! getClientKey req = None
     /\ (forall k, k <> getClientKey req ->
           attempts (unlockRateLimiter srv') !! k = attempts rl !! k)
     /\ exists s r p,
          body resp = UnlockBody r
          /\ session (service (world srv')) = Some s /\ token s = r_token r
          /\ pw = JsString p
          /\ (8 <= String.length p <= 1000)%nat)
  /\ (statusCode resp <> 200 ->
     unlockRateLimiter srv' = rl
     /\ is_Some (attempts rl !! getClientKey req)
     /\ (service (world srv') = service (world srv)
         \/ exists p f k params,
              pw = JsString p
              /\ readVaultFile (fault env) (disk (world srv)) = inr f
              /\ outcome (decryptVault f p) = inr (NoEntries, k, params)
              /\ world srv' = installed env k params NoEntries (world srv)
              /\ resp = respond 401 (ErrorBody "Invalid master password"))).
Proof.
  intros Hm Hu. rewrite (unlockRoute_passed _ _ _ _ _ _ _ Hm) in Hu.
  pose proof (middlewareKey_next_counted _ _ _ _ Hm) as Hcounted.
  unfold validateMasterPassword in Hu.
  destruct pw as [| |b|n|p|];
    try (injection Hu as <- <-; simpl; split; [discriminate|now auto]).
  unfold MASTER_PASSWORD_MIN, MASTER_PASSWORD_MAX in Hu.
  destruct (Nat.ltb_spec (String.length p) 8);
    [injection Hu as <- <-; simpl; split; [discriminate|now auto]|].
  destruct (Nat.ltb_spec 1000 (String.length p));
    [injection Hu as <- <-; simpl; split; [discriminate|now auto]|].
  simpl in Hu.
  destruct (unlock p (truthy create) env (world srv)) as [w [e|r]] eqn:Hun.
  - destruct (unlock_throws _ _ _ _ _ _ Hun) as (Hkeep & Hlate & _).
    assert (e = TypeError \/ e <> TypeError) as [->|He]
      by (destruct e; (now left) || (right; discriminate)).
    + destruct (Hlate eq_refl) as (f & k & params & _ & Hr & Hd & ->).
      injection Hu as <- <-. simpl. split; [discriminate|]. intros _.
      split; [reflexivity|]. split; [exact Hcounted|]. right.
      exists p, f, k, params. auto.
    + specialize (Hkeep He).
      destruct e as [| | | |i| | | | | |]; try contradiction;
        injection Hu as <- <-; simpl; (split; [discriminate|now auto]).
  - injection Hu as <- <-. simpl. split; [|congruence]. intros _.
    unfold resetClient, resetKey. simpl. split; [apply lookup_delete_eq|].
    split; [intros k Hk; now apply lookup_delete_ne|].
    destruct (unlock_returns _ _ _ _ _ _ Hun) as (s & Hs & Ht).
    exists s, r, p. repeat split; auto; lia.
Qed.

(** X22. When [unlock] throws for a well-formed password, the route
    answers 404 exactly when no vault file is found and creation was not
    requested, and then nothing but the limiter has changed; every other
    cause (wrong password, damaged or unparsable file, failed read or write,
    failed derivation, a decrypted value without entries) gets the same
    401 response. *)
Theorem unlock_route_failure_response req t p create env srv srv' resp rl e :
  middleware req t (unlockRateLimiter srv) = (rl, Next) ->
  validateMasterPassword (JsString p) = None ->
  snd (unlock p (truthy create) env (world srv)) = inl e ->
  unlockRoute req t (JsString p) create env srv = (srv', resp) ->
  if bool_decide (vaultExists (fault env) (disk (world srv)) = false
                  /\ truthy create = false)
  then resp = respond 404
                (ErrorBody "Vault not found. Pass createIfMissing to initialize.")
       /\ world srv' = world srv
  else resp = respond 401 (ErrorBody "Invalid master password").
Proof.
  intros Hm Hv He Hu. rewrite (unlockRoute_passed _ _ _ _ _ _ _ Hm), Hv in Hu.
  simpl in Hu.
  destruct (unlock p (truthy create) env (world srv)) as [w r] eqn:Hun.
  simpl in He. subst r.
  destruct (unlock_throws _ _ _ _ _ _ Hun) as (_ & _ & Hno).
  case_bool_decide as Hd.
  - apply Hno in Hd. subst e. injection Hu as <- <-. simpl. split; [reflexivity|].
    revert Hun. unfold unlock. destruct Hno as [[-> ->] _]; [reflexivity|].
    simpl. now intros [= <-].
  - destruct e as [| | | |i| | | | | |]; try (now injection Hu as <- <-).
    exfalso. apply Hd. now apply Hno.
Qed.


Lemma set_world_same (srv : Server) : set_world (world srv) srv = srv.
Proof. now destruct srv. Qed.

(** [requireSession] either finds the session of the token, or throws
    LOCKED or INVALID_SESSION in the state it was called in. *)
Lemma requireSession_cases tok env w :
  (exists s, session (service w) = Some s /\ token s = tok)
  \/ (exists e, requireSession tok env w = (w, inl e)
                /\ (e = LOCKED \/ e = INVALID_SESSION)).
Proof.
  destruct (session (service w)) as [s|] eqn:Hs.
  - destruct (String.eqb_spec (token s) tok) as [Ht|Ht].
    + left. eauto.
    + right. exists INVALID_SESSION. split; [|now right].
      now apply (requireSession_invalid tok env w s).
  - right. exists LOCKED. split; [|now left]. now apply requireSession_locked.
Qed.

Lemma filled_inv v :
  filled v = true ->
  exists s, v = JsString s /\ s <> EmptyString /\ Js.trim s <> EmptyString.
Proof.
  destruct v as [| |b|n|s|]; simpl; try discriminate.
  intros [H1 H2]%andb_true_iff. exists s. split; [reflexivity|].
  split; [now destruct s | now destruct (Js.trim s)].
Qed.

(** What a body that [validateVaultEntry] accepts looks like. *)
Lemma validateVaultEntry_accepts b :
  validateVaultEntry b = None ->
  (exists s, b_site b = JsString s /\ Js.trim s <> EmptyString
             /\ (String.length s <= 200)%nat)
  /\ (exists d, b_domain b = JsString d /\ Js.trim d <> EmptyString
                /\ (String.length d <= 253)%nat)
  /\ (exists u, b_username b = JsString u /\ Js.trim u <> EmptyString
                /\ (String.length u <= 320)%nat)
  /\ (exists p, b_password b = JsString p /\ p <> EmptyString
                /\ (String.length p <= 1000)%nat)
  /\ (b_notes b = JsUndefined
      \/ exists n, b_notes b = JsString n /\ (String.length n <= 5000)%nat).
Proof.
  unfold validateVaultEntry, SITE_NAME_MAX, DOMAIN_MAX, USERNAME_MAX,
    PASSWORD_MAX, NOTES_MAX.
  destruct (filled (b_site b)) eqn:Hs; simpl; [|discriminate].
  apply filled_inv in Hs as (s & -> & _ & Hs). simpl.
  destruct (Nat.ltb_spec 200 (String.length s)); [discriminate|].
  destruct (filled (b_domain b)) eqn:Hd; simpl; [|discriminate].
  apply filled_inv in Hd as (d & -> & _ & Hd). simpl.
  destruct (Nat.ltb_spec 253 (String.length d)); [discriminate|].
  destruct (filled (b_username b)) eqn:Hu; simpl; [|discriminate].
  apply filled_inv in Hu as (u & -> & _ & Hu). simpl.
  destruct (Nat.ltb_spec 320 (String.length u)); [discriminate|].
  destruct (b_password b) as [| |?|?|p|]; simpl; try discriminate.
  destruct (Js.truthy p) eqn:Hp; simpl; [|discriminate].
  destruct (Nat.ltb_spec 1000 (String.length p)); [discriminate|].
  intros Hn. repeat split; eauto.
  - exists p. repeat split; auto. now destruct p.
  - destruct (b_notes b) as [| |?|?|n|]; try discriminate; [now left|].
    right. exists n. split; [reflexivity|].
    destruct (Nat.ltb_spec 5000 (String.length n)); [discriminate|lia].
Qed.

(** X23. POST /api/entries answers 200 only to the holder of the session
    token, and the entry it answers with is the last entry of the session's
    vault, with the body's site, username and password as they were sent:
    site and username not blank and at most 200 and 320 characters, the
    password not empty and at most 1000, the notes absent or at most 5000,
    and the domain the normal form of a non-blank string of at most 253
    characters. *)
Theorem create_route_stores_checked header b env srv srv' resp :
  createRoute header b env srv = (srv', resp) ->
  statusCode resp = 200 ->
  exists e s s',
    body resp = EntryBody' e
    /\ session (service (world srv)) = Some s /\ header = Some (token s)
    /\ session (service (world srv')) = Some s'
    /\ entries (vault s') = entries (vault s) ++ [e]
    /\ b_site b = JsString (site e) /\ Js.trim (site e) <> EmptyString
    /\ (String.length (site e) <= 200)%nat
    /\ b_username b = JsString (username e)
    /\ Js.trim (username e) <> EmptyString
    /\ (String.length (username e) <= 320)%nat
    /\ b_password b = JsString (password e) /\ password e <> EmptyString
    /\ (String.length (password e) <= 1000)%nat
    /\ (exists d, b_domain b = JsString d /\ Js.trim d <> EmptyString
                  /\ (String.length d <= 253)%nat
                  /\ domain e = normalizeDomain d)
    /\ (forall n, notes e = Some n ->
          b_notes b = JsString n /\ (String.length n <= 5000)%nat).
Proof.
  unfold createRoute, requireToken.
  destruct header as [tok|]; [|intros [= <- <-]; discriminate].
  destruct (Js.truthy tok); [|intros [= <- <-]; discriminate].
  destruct (validateVaultEntry b) as [msg|] eqn:Hv;
    [intros [= <- <-]; discriminate|].
  destruct (addEntry tok (payloadOf b) env (world srv)) as [w [err|e]] eqn:Ha.
  { intros [= <- <-]. destruct err as [| | | |i| | | | | |]; discriminate. }
  intros [= <- <-] _.
  destruct (requireSession_cases tok env (world srv))
    as [(s & Hs & Ht)|(err & Hr & _)].
  2:{ unfold addEntry in Ha. rewrite (bindM_throw _ _ _ _ _ Hr) in Ha.
      discriminate. }
  assert (vault s <> NoEntries) as Hshape.
  { intros Hshape.
    pose proof (run_noEntries (OpAddEntry tok (payloadOf b)) tok env
                  (world srv) s Hs Ht Hshape eq_refl) as Hrun.
    simpl in Hrun. unfold mapM, bindM in Hrun. rewrite Ha in Hrun.
    discriminate. }
  rewrite (addEntry_valid tok (payloadOf b) env (world srv) s Hs Ht Hshape)
    in Ha.
  cbv zeta in Ha.
  set (s2 := set_vault _ _) in Ha. set (w2 := Build_World _ _) in Ha.
  destruct (persist s2 env w2) as [w3 r] eqn:Hp. simpl in Ha.
  destruct r as [err|[]]; [discriminate|]. injection Ha as <- <-.
  destruct (persist_cases s2 env w2 w3 _ Hp) as [Hsvc _].
  destruct (validateVaultEntry_accepts b Hv)
    as ((st & Hst & Hst1 & Hst2) & (d & Hd & Hd1 & Hd2) & (u & Hu & Hu1 & Hu2)
        & (p & Hpw & Hp1 & Hp2) & Hn).
  exists (newEntry (payloadOf b) env), s, s2. simpl.
  rewrite Hsvc, Hst, Hd, Hu, Hpw. simpl.
  repeat split; auto; try congruence.
  - exists d. repeat split; auto.
  - destruct Hn as [Hn|(n' & Hn & Hn')]; rewrite Hn in *; simpl in *;
      congruence.
  - destruct Hn as [Hn|(n' & Hn & Hn')]; rewrite Hn in *; simpl in *;
      [discriminate|].
    match goal with Heq : Some _ = Some _ |- _ => injection Heq as <- end.
    exact Hn'.
Qed.

(** X24. The routes that change the vault answer 200 only to a request
    whose header is the token of the current session; any other request
    (no session, no header, an empty or another token) is answered 400 or
    401 and leaves the server as it was. *)
Theorem mutations_need_the_token header m env srv srv' resp :
  mutate header m env srv = (srv', resp) ->
  (statusCode resp = 200 ->
   exists s, session (service (world srv)) = Some s /\ header = Some (token s))
  /\ ((forall s, session (service (world srv)) = Some s ->
                 header <> Some (token s)) ->
      srv' = srv /\ (statusCode resp = 400 \/ statusCode resp = 401)).
Proof.
  intros Hm.
  assert ((exists s, session (service (world srv)) = Some s
                     /\ header = Some (token s))
          \/ (srv' = srv /\ (statusCode resp = 400 \/ statusCode resp = 401)))
    as [Hholder|[Hsame Hcode]].
  { revert Hm. unfold mutate, createRoute, updateRoute, deleteRoute, requireToken.
    destruct header as [tok|];
      [|destruct m; intros [= <- <-]; right; simpl; auto].
    destruct (Js.truthy tok);
      [|destruct m; intros [= <- <-]; right; simpl; auto].
    destruct (requireSession_cases tok env (world srv))
      as [(s & Hs & Ht)|(err & Hr & Herr)]; [left; exists s; now subst|].
    right. revert Hm. destruct m as [b|ident patch|ident].
    - destruct (validateVaultEntry b); [intros [= <- <-]; simpl; auto|].
      unfold addEntry. rewrite (bindM_throw _ _ _ _ _ Hr).
      intros [= <- <-]. rewrite set_world_same.
      destruct Herr as [-> | ->]; simpl; auto.
    - match goal with
      | |- context [match ?c with Some _ => _ | None => _ end] =>
          destruct c; [intros [= <- <-]; simpl; auto|]
      end.
      unfold updateEntry. rewrite (bindM_throw _ _ _ _ _ Hr).
      intros [= <- <-]. rewrite set_world_same.
      destruct Herr as [-> | ->]; simpl; auto.
    - unfold deleteEntry. rewrite (bindM_throw _ _ _ _ _ Hr).
      intros [= <- <-]. rewrite set_world_same.
      destruct Herr as [-> | ->]; simpl; auto. }
  - split; [auto|]. intros Hno. destruct Hholder as (s & Hs & Hh).
    now destruct (Hno s Hs).
  - split; [|auto]. intros H200. destruct Hcode as [Hc|Hc]; rewrite Hc in H200;
      discriminate.
Qed.


(** X25. PUT /api/entries/:id validates with placeholders in the place
    of empty fields, so a body whose site is the empty string (the other
    fields empty or absent, and no id) is accepted: for the holder of the token and
    the id of a stored entry, with a working disk and cipher, the answer is
    200 and the stored entry has an empty site; POST /api/entries refuses
    the same site with 400. *)
Theorem update_route_accepts_blank tok ident patch env srv s existing :
  Js.truthy tok = true ->
  session (service (world srv)) = Some s -> token s = tok ->
  existing ∈ entries (vault s) -> id existing = ident ->
  u_site patch = Some EmptyString ->
  (u_domain patch = None \/ u_domain patch = Some EmptyString) ->
  (u_username patch = None \/ u_username patch = Some EmptyString) ->
  (u_password patch = None \/ u_password patch = Some EmptyString) ->
  u_notes patch = None ->
  u_id patch = None ->
  fault env = NoFault ->
  (forall d, is_Some (gcm_encrypt (key s) (rand12 env) (stringify_data d))) ->
  (exists srv' e s',
     updateRoute (Some tok) ident patch env srv
     = (srv', respond 200 (EntryBody' e))
     /\ id e = ident /\ site e = EmptyString
     /\ session (service (world srv')) = Some s'
     /\ e ∈ entries (vault s'))
  /\ (forall b, b_site b = JsString EmptyString ->
        createRoute (Some tok) b env srv
        = (srv, respond 400 (ErrorBody "Site name is required"))).
Proof.
  intros Htok Hs Ht Hin Hid Hsite Hdom Huser Hpass Hnotes Hnoid Hfault Henc.
  split.
  2:{ intros b Hb. unfold createRoute, requireToken, validateVaultEntry.
      rewrite Htok, Hb. reflexivity. }
  unfold updateRoute, requireToken. rewrite Htok, Hsite, Hnotes.
  assert (truthy (field (u_domain patch)) = false) as ->
    by (destruct Hdom as [-> | ->]; reflexivity).
  assert (truthy (field (u_username patch)) = false) as ->
    by (destruct Huser as [-> | ->]; reflexivity).
  assert (truthy (field (u_password patch)) = false) as ->
    by (destruct Hpass as [-> | ->]; reflexivity).
  rewrite bool_decide_eq_true_2 by reflexivity. simpl.
  assert (vault s <> NoEntries) as Hshape.
  { intros Hshape. rewrite Hshape in Hin. now apply elem_of_nil in Hin. }
  rewrite (updateEntry_valid tok ident patch env (world srv) s Hs Ht Hshape).
  cbv zeta.
  destruct (findIndex ident (entries (vault s))) as [idx|] eqn:Hf.
  2:{ apply findIndex_None in Hf. rewrite Forall_forall in Hf.
      now destruct (Hf existing Hin). }
  destruct (findIndex_Some _ _ _ Hf) as (e0 & He0 & Hid0 & _).
  rewrite He0.
  set (updated := applyPatch e0 patch (toISOString (now env))).
  set (s2 := set_vault _ _). set (w2 := Build_World _ _).
  rewrite persist_eq.
  destruct (Henc (vault s2)) as [[encrypted tag] Hg].
  assert (exists f,
            outcome (encryptVaultWithKey (rand12 env) (vault s2) (key s2)
                                         (s_kdf s2)) = inr f) as [f Hfile].
  { unfold encryptVaultWithKey, encryptPayload, outcome.
    subst s2. simpl in Hg |- *. rewrite Hg. simpl. eauto. }
  rewrite Hfile. unfold writeVaultFile. rewrite Hfault. simpl.
  eexists _, updated, s2. split; [reflexivity|]. simpl.
  split; [now rewrite Hnoid|]. split; [now rewrite Hsite|].
  split; [reflexivity|].
  apply list_elem_of_lookup. exists idx. apply list_lookup_insert_eq.
  now apply lookup_lt_Some in He0.
Qed.

End RouteFacts.

(** * The properties above on the sample vault and server *)

(** The sample cipher refuses another key. *)
Lemma toy_gcm_wrong_key (k k' nonce : Buffer) (plain : string)
    (encrypted tag : Buffer) :
  @gcm_encrypt Toy.platform k nonce plain = Some (encrypted, tag) ->
  k' <> k ->
  @gcm_decrypt Toy.platform k' nonce tag encrypted = None.
Proof.
  simpl. intros [= <- <-] Hk.
  rewrite bool_decide_eq_false_2; [reflexivity|].
  intros Heq. apply Hk. symmetry. now apply app_inv_tail in Heq.
Qed.

Lemma generatePassword_only_enabled_witness :
  PasswordGenerator.generatePassword ToyApi.digitsOnly (fun c => c)
  = Some "63571420"
  /\ exists s,
       s ∈ PasswordGenerator.enabledSets
             (PasswordGenerator.withDefaults ToyApi.digitsOnly)
       /\ "6"%char ∈ PasswordGenerator.chars s.
Proof.
  assert (PasswordGenerator.generatePassword ToyApi.digitsOnly (fun c => c)
          = Some "63571420") as Hg by (vm_compute; reflexivity).
  split; [exact Hg|].
  apply (PasswordGeneratorFacts.generatePassword_only_enabled
           ToyApi.digitsOnly (fun c => c) "63571420" Hg).
  vm_compute. constructor.
Defined.

Lemma generatePassword_covers_each_set_witness :
  exists c,
    c ∈ PasswordGenerator.chars PasswordGenerator.CHARSETS_numbers
    /\ c ∈ PasswordGenerator.chars "63571420".
Proof.
  apply (PasswordGeneratorFacts.generatePassword_covers_each_set
           ToyApi.digitsOnly (fun c => c) "63571420").
  - vm_compute. reflexivity.
  - vm_compute. constructor.
Defined.

Lemma cleanup_unobservable_witness :
  snd (requests "127.0.0.1" [5000; 5100]
         (cleanup 5000
            (fst (requests "127.0.0.1" [0; 400; 900; 950] Toy.testLimiter))))
  = snd (requests "127.0.0.1" [5000; 5100]
           (fst (requests "127.0.0.1" [0; 400; 900; 950] Toy.testLimiter))).
Proof.
  apply (cleanup_unobservable "127.0.0.1" 5000 [5000; 5100]).
  intros t' [<-|[<-|[]]]; lia.
Defined.

(** A block of two seconds inside a window of ten: the request after the
    block is refused again. *)
Lemma after_block_witness :
  snd (middlewareKey "127.0.0.1" 3000
         (fst (middlewareKey "127.0.0.1" 950
                 (fst (requests "127.0.0.1" [0; 400; 900]
                         (newRateLimiter 10000 3 2000))))))
  = TooManyRequests 2.
Proof.
  destruct (after_block "127.0.0.1" (newRateLimiter 10000 3 2000) 0 [400; 900]
              950 3000) as [_ Hagain].
  - reflexivity.
  - intros t' [<-|[<-|[]]]; vm_compute; discriminate.
  - reflexivity.
  - vm_compute; discriminate.
  - vm_compute; discriminate.
  - destruct Hagain as [Hv _]; [vm_compute; discriminate|]. exact Hv.
Defined.

Lemma addEntry_returns_witness :
  exists s',
    session (service (fst (@addEntry Toy.platform "tok" Toy.samplePayload
                             Toy.env0 Toy.unlockedWorld))) = Some s'
    /\ entries (vault s')
       = [Toy.sampleEntry; @newEntry Toy.platform Toy.samplePayload Toy.env0].
Proof.
  destruct (@addEntry_returns Toy.platform "tok" Toy.samplePayload Toy.env0
              Toy.unlockedWorld
              (fst (@addEntry Toy.platform "tok" Toy.samplePayload Toy.env0
                      Toy.unlockedWorld))
              (@newEntry Toy.platform Toy.samplePayload Toy.env0)
              Toy.sampleSession)
    as (_ & _ & (s' & Hs' & _ & _ & He & _) & _).
  - reflexivity.
  - reflexivity.
  - vm_compute. reflexivity.
  - exists s'. split; [exact Hs'|exact He].
Defined.

Lemma addEntry_failure_keeps_entry_witness :
  snd (@addEntry Toy.platform "tok" Toy.samplePayload ToyApi.failingEnv
         Toy.unlockedWorld) = inl IOError
  /\ exists s',
       session (service (fst (@addEntry Toy.platform "tok" Toy.samplePayload
                                ToyApi.failingEnv Toy.unlockedWorld)))
       = Some s'
       /\ entries (vault s')
          = [Toy.sampleEntry;
             @newEntry Toy.platform Toy.samplePayload ToyApi.failingEnv].
Proof.
  split; [vm_compute; reflexivity|].
  destruct (@addEntry_failure_keeps_entry Toy.platform "tok" Toy.samplePayload
              ToyApi.failingEnv Toy.unlockedWorld
              (fst (@addEntry Toy.platform "tok" Toy.samplePayload
                      ToyApi.failingEnv Toy.unlockedWorld))
              IOError Toy.sampleSession)
    as (_ & Hkept & _).
  - reflexivity.
  - reflexivity.
  - discriminate.
  - vm_compute. reflexivity.
  - exact Hkept.
Defined.

Lemma deleteEntry_behaviour_witness :
  snd (@deleteEntry Toy.platform "tok" "2" Toy.env0 Toy.unlockedWorld)
  = inl NOT_FOUND.
Proof.
  destruct (@deleteEntry_behaviour Toy.platform "tok" "2" Toy.env0
              Toy.unlockedWorld
              (fst (@deleteEntry Toy.platform "tok" "2" Toy.env0
                      Toy.unlockedWorld))
              (snd (@deleteEntry Toy.platform "tok" "2" Toy.env0
                      Toy.unlockedWorld))
              Toy.sampleSession)
    as (_ & Hmissing & _).
  - reflexivity.
  - reflexivity.
  - discriminate.
  - apply surjective_pairing.
  - apply Hmissing. repeat constructor. discriminate.
Defined.

Lemma updateEntry_behaviour_witness :
  snd (@updateEntry Toy.platform "tok" "2" ToyApi.blankSite Toy.env0
         Toy.unlockedWorld)
  = inl NOT_FOUND.
Proof.
  destruct (@updateEntry_behaviour Toy.platform "tok" "2" ToyApi.blankSite
              Toy.env0 Toy.unlockedWorld
              (fst (@updateEntry Toy.platform "tok" "2" ToyApi.blankSite
                      Toy.env0 Toy.unlockedWorld))
              (snd (@updateEntry Toy.platform "tok" "2" ToyApi.blankSite
                      Toy.env0 Toy.unlockedWorld))
              Toy.sampleSession)
    as (Hmissing & _).
  - reflexivity.
  - reflexivity.
  - discriminate.
  - apply surjective_pairing.
  - apply Hmissing. repeat constructor. discriminate.
Defined.

(** Adding an entry keeps the ids distinct; a PUT on the second entry
    with the id of the first leaves two entries with the id "1". *)
Lemma ids_stay_unique_witness :
  (exists s',
     session (service (fst (@run Toy.platform
                              (OpAddEntry "tok" Toy.samplePayload) Toy.env0
                              Toy.unlockedWorld))) = Some s'
     /\ NoDup (id <$> entries (vault s')))
  /\ (exists s',
        session (service (fst (@updateEntry Toy.platform "tok" "3f2c"
                                 ToyApi.takeId Toy.env0 ToyApi.twoEntries)))
        = Some s'
        /\ ~ NoDup (id <$> entries (vault s'))).
Proof.
  destruct (@ids_stay_unique Toy.platform "tok" Toy.env0 Toy.unlockedWorld
              Toy.sampleSession) as [Hkeep _];
    [reflexivity | reflexivity | apply NoDup_singleton |].
  destruct (@ids_stay_unique Toy.platform "tok" Toy.env0 ToyApi.twoEntries
              ToyApi.twoSession) as [_ Hbreak]; [reflexivity | reflexivity | |].
  { vm_compute. apply NoDup_cons. split; [|apply NoDup_singleton].
    intros Hin. apply list_elem_of_singleton in Hin. discriminate. }
  split.
  - apply (Hkeep (OpAddEntry "tok" Toy.samplePayload) _
             (snd (@run Toy.platform (OpAddEntry "tok" Toy.samplePayload)
                     Toy.env0 Toy.unlockedWorld))).
    + split; [reflexivity|]. simpl. intros Hin.
      apply list_elem_of_singleton in Hin. discriminate.
    + apply surjective_pairing.
  - apply (Hbreak "3f2c" ToyApi.takeId "1" _
             (snd (@updateEntry Toy.platform "tok" "3f2c" ToyApi.takeId
                     Toy.env0 ToyApi.twoEntries))).
    + reflexivity.
    + discriminate.
    + vm_compute. repeat constructor.
    + vm_compute. repeat constructor.
    + apply surjective_pairing.
Defined.

(** After an entry is added to the sample vault, a new process opens the
    file with the password and finds both entries. *)
Lemma mutation_survives_restart_witness :
  exists s',
    session (service (fst (@run Toy.platform
                             (OpAddEntry "tok" Toy.samplePayload) Toy.env0
                             Toy.unlockedWorld))) = Some s'
    /\ entries (vault s')
       = [Toy.sampleEntry; @newEntry Toy.platform Toy.samplePayload Toy.env0]
    /\ snd (@unlock Toy.platform "master" false Toy.env0
              {| service := newVaultService 600000;
                 disk := disk (fst (@run Toy.platform
                                      (OpAddEntry "tok" Toy.samplePayload)
                                      Toy.env0 Toy.unlockedWorld)) |})
       = inr {| created := false; r_token := "3f2c"; r_entries := 2 |}.
Proof.
  destruct (@mutation_survives_restart Toy.platform
              ToyFacts.base64_roundtrip ToyFacts.gcm_roundtrip
              ToyFacts.mac_nonempty
              (OpAddEntry "tok" Toy.samplePayload) "tok" Toy.env0
              Toy.unlockedWorld
              (fst (@run Toy.platform (OpAddEntry "tok" Toy.samplePayload)
                      Toy.env0 Toy.unlockedWorld))
              (Entry (@newEntry Toy.platform Toy.samplePayload Toy.env0))
              Toy.sampleSession "master" Toy.env0 600000)
    as (s' & Hs' & Hu).
  - reflexivity.
  - reflexivity.
  - reflexivity.
  - vm_compute. reflexivity.
  - vm_compute. reflexivity.
  - intros s' Hs'. vm_compute in Hs'. injection Hs' as <-.
    split; [vm_compute; reflexivity|].
    intros f Hf. vm_compute in Hf. injection Hf as <-. vm_compute. reflexivity.
  - reflexivity.
  - exists s'. split; [exact Hs'|].
    assert (s' = ToyApi.twoSession) as Heq.
    { vm_compute in Hs'. injection Hs' as <-. vm_compute. reflexivity. }
    split; [now rewrite Heq|].
    rewrite Hu, Heq. reflexivity.
Defined.

Lemma unlock_success_witness :
  exists s',
    session (service (fst (@unlock Toy.platform "master" false Toy.env0
                             Toy.lockedWorld))) = Some s'
    /\ token s' = "3f2c"
    /\ @run Toy.platform (OpGetEntries "tok" None) Toy.env0
         (fst (@unlock Toy.platform "master" false Toy.env0 Toy.unlockedWorld))
       = (fst (@unlock Toy.platform "master" false Toy.env0 Toy.unlockedWorld),
          inl INVALID_SESSION).
Proof.
  destruct (@unlock_success Toy.platform "master" false Toy.env0
              Toy.lockedWorld
              (fst (@unlock Toy.platform "master" false Toy.env0
                      Toy.lockedWorld))
              {| created := false; r_token := "3f2c"; r_entries := 1 |})
    as (s' & Hs' & Ht & _); [vm_compute; reflexivity|].
  destruct (@unlock_success Toy.platform "master" false Toy.env0
              Toy.unlockedWorld
              (fst (@unlock Toy.platform "master" false Toy.env0
                      Toy.unlockedWorld))
              {| created := false; r_token := "3f2c"; r_entries := 1 |})
    as (_ & _ & _ & _ & _ & _ & _ & _ & _ & Hold); [vm_compute; reflexivity|].
  exists s'. split; [exact Hs'|]. split; [exact Ht|].
  apply (Hold (OpGetEntries "tok" None) "tok" Toy.env0);
    [reflexivity|discriminate].
Defined.

Lemma auto_lock_witness :
  timerFires 1700000599000 (service Toy.unlockedWorld)
  = lock (service Toy.unlockedWorld)
  /\ timerFires 1700000598999 (service Toy.unlockedWorld)
     = service Toy.unlockedWorld
  /\ timerFires 1699999999001
       {| lockTimeoutMs := 2147483648; session := Some Toy.sampleSession;
          lockTimer := Some 1699999999001 |}
     = lock {| lockTimeoutMs := 2147483648; session := Some Toy.sampleSession;
               lockTimer := Some 1699999999001 |}.
Proof.
  destruct (@auto_lock Toy.platform (service Toy.unlockedWorld)
              Toy.sampleSession 1700000599000) as (Hfires & _ & _ & _);
    [vm_compute; auto | reflexivity |].
  destruct (@auto_lock Toy.platform (service Toy.unlockedWorld)
              Toy.sampleSession 1700000598999) as (_ & Hearly & _ & _);
    [vm_compute; auto | reflexivity |].
  destruct (@auto_lock Toy.platform
              {| lockTimeoutMs := 2147483648;
                 session := Some Toy.sampleSession;
                 lockTimer := Some 1699999999001 |}
              Toy.sampleSession 1699999999001) as (_ & _ & Hbig & _);
    [vm_compute; auto | reflexivity |].
  split; [|split].
  - apply Hfires; vm_compute; [split; [reflexivity|discriminate]|discriminate].
  - apply Hearly; vm_compute; [split; [reflexivity|discriminate]|reflexivity].
  - destruct Hbig as [Hlock _]; [vm_compute; reflexivity|].
    apply Hlock. vm_compute. discriminate.
Defined.


(** The sample file with its version raised. *)
Lemma header_tamper_detected_witness :
  @decryptVaultWithKey Toy.platform (withVersion Toy.sampleFile 3) Toy.sampleKey
  = ([CallHmac], inl (IntegrityError HmacMismatch)).
Proof.
  apply (@header_tamper_detected Toy.platform
           ToyFacts.base64_roundtrip ToyFacts.mac_nonempty
           ToyFacts.hmac_message_inj ToyFacts.header_inj
           Toy.sampleFile (withVersion Toy.sampleFile 3) Toy.sampleKey).
  - vm_compute. reflexivity.
  - reflexivity.
  - vm_compute. discriminate.
  - vm_compute. discriminate.
Defined.

(** The sample file with its tag removed and its version lowered. *)
Lemma downgrade_skips_integrity_witness :
  @decryptVaultWithKey Toy.platform Toy.legacyFile Toy.sampleKey
  = ([CallGcmDecrypt; CallJsonParse], inr Toy.sampleData).
Proof.
  apply (@downgrade_skips_integrity Toy.platform
           ToyFacts.base64_roundtrip ToyFacts.gcm_roundtrip
           Toy.iv12 Toy.sampleData Toy.sampleKey
           (@generateKdfParams Toy.platform Toy.salt16)
           Toy.sampleFile Toy.legacyFile).
  - vm_compute. reflexivity.
  - vm_compute. reflexivity.
  - reflexivity.
  - vm_compute. reflexivity.
Defined.

Lemma legacy_wrong_password_witness :
  @decryptVault Toy.platform Toy.legacyFile "wrong"
  = ([CallScrypt; CallGcmDecrypt], inl AuthenticationError).
Proof.
  apply (@legacy_wrong_password Toy.platform
           ToyFacts.base64_roundtrip toy_gcm_wrong_key
           ToyFacts.scrypt_inj ToyFacts.scrypt_accepts
           Toy.legacyFile "master" "wrong" Toy.sampleKey Toy.iv12
           (Toy.showData Toy.sampleData)).
  - vm_compute. reflexivity.
  - vm_compute. reflexivity.
  - vm_compute. reflexivity.
  - discriminate.
Defined.

(** The fourth request of the window carries the right password and is
    refused all the same. *)
Lemma unlock_lockout_holds_witness :
  Api.world (fst (@Api.unlockRequests Toy.platform ToyApi.client
                Validators.JsUndefined Toy.env0
                [(950, Validators.JsString "master")] ToyApi.saturatedServer))
  = Toy.lockedWorld
  /\ Forall (fun r => Api.statusCode r = 429)
            (snd (@Api.unlockRequests Toy.platform ToyApi.client
                    Validators.JsUndefined Toy.env0
                    [(950, Validators.JsString "master")]
                    ToyApi.saturatedServer)).
Proof.
  apply (@unlock_lockout_holds Toy.platform ToyApi.client
           Validators.JsUndefined Toy.env0
           [(950, Validators.JsString "master")] ToyApi.saturatedServer
           {| count := 3; resetAt := 1000; blockedUntil := None |}).
  - vm_compute. reflexivity.
  - vm_compute. discriminate.
  - intros t pw [[= <- <-]|[]]. vm_compute. discriminate.
Defined.

Lemma unlock_route_accounting_witness :
  attempts (Api.unlockRateLimiter
              (fst (@Api.unlockRoute Toy.platform ToyApi.client 0
                      (Validators.JsString "correct horse")
                      (Validators.JsBoolean true) Toy.env0 ToyApi.newServer)))
    !! "127.0.0.1" = None
  /\ Api.unlockRateLimiter
       (fst (@Api.unlockRoute Toy.platform ToyApi.client 0
               (Validators.JsString "wrongpassword") Validators.JsUndefined
               Toy.env0 ToyApi.lockedServer))
     = fst (middleware ToyApi.client 0 Toy.testLimiter).
Proof.
  split.
  - destruct (@unlock_route_accounting Toy.platform ToyApi.client 0
                (Validators.JsString "correct horse")
                (Validators.JsBoolean true) Toy.env0 ToyApi.newServer
                (fst (@Api.unlockRoute Toy.platform ToyApi.client 0
                        (Validators.JsString "correct horse")
                        (Validators.JsBoolean true) Toy.env0 ToyApi.newServer))
                (snd (@Api.unlockRoute Toy.platform ToyApi.client 0
                        (Validators.JsString "correct horse")
                        (Validators.JsBoolean true) Toy.env0 ToyApi.newServer))
                (fst (middleware ToyApi.client 0 Toy.testLimiter)))
      as [Hok _]; [vm_compute; reflexivity | apply surjective_pairing |].
    destruct Hok as [Hreset _]; [vm_compute; reflexivity|]. exact Hreset.
  - destruct (@unlock_route_accounting Toy.platform ToyApi.client 0
                (Validators.JsString "wrongpassword") Validators.JsUndefined
                Toy.env0 ToyApi.lockedServer
                (fst (@Api.unlockRoute Toy.platform ToyApi.client 0
                        (Validators.JsString "wrongpassword")
                        Validators.JsUndefined Toy.env0 ToyApi.lockedServer))
                (snd (@Api.unlockRoute Toy.platform ToyApi.client 0
                        (Validators.JsString "wrongpassword")
                        Validators.JsUndefined Toy.env0 ToyApi.lockedServer))
                (fst (middleware ToyApi.client 0 Toy.testLimiter)))
      as [_ Hfail]; [vm_compute; reflexivity | apply surjective_pairing |].
    destruct Hfail as [Hkept _]; [vm_compute; discriminate|]. exact Hkept.
Defined.

(** The exception of the property above, on the sample server: the
    answer is 401, and the session that was there is replaced. *)
Example unlock_route_replaces_session :
  Api.statusCode
    (snd (@Api.unlockRoute Toy.platform ToyApi.client 0
            (Validators.JsString "correct horse") Validators.JsUndefined
            Toy.env0 ToyApi.hollowServer)) = 401
  /\ (token <$> session (service (Api.world ToyApi.hollowServer))) = Some "tok"
  /\ (token <$> session
                  (service
                     (Api.world
                        (fst (@Api.unlockRoute Toy.platform ToyApi.client 0
                                (Validators.JsString "correct horse")
                                Validators.JsUndefined Toy.env0
                                ToyApi.hollowServer)))))
     = Some "3f2c".
Proof. vm_compute. repeat split. Qed.

Lemma unlock_route_failure_response_witness :
  snd (@Api.unlockRoute Toy.platform ToyApi.client 0
         (Validators.JsString "wrongpassword") Validators.JsUndefined
         Toy.env0 ToyApi.lockedServer)
  = Api.respond 401 (Api.ErrorBody "Invalid master password")
  /\ snd (@Api.unlockRoute Toy.platform ToyApi.client 0
            (Validators.JsString "wrongpassword") Validators.JsUndefined
            Toy.env0 ToyApi.newServer)
     = Api.respond 404
         (Api.ErrorBody "Vault not found. Pass createIfMissing to initialize.").
Proof.
  split.
  - exact (@unlock_route_failure_response Toy.platform ToyApi.client 0
             "wrongpassword" Validators.JsUndefined Toy.env0
             ToyApi.lockedServer
             (fst (@Api.unlockRoute Toy.platform ToyApi.client 0
                     (Validators.JsString "wrongpassword")
                     Validators.JsUndefined Toy.env0 ToyApi.lockedServer))
             (snd (@Api.unlockRoute Toy.platform ToyApi.client 0
                     (Validators.JsString "wrongpassword")
                     Validators.JsUndefined Toy.env0 ToyApi.lockedServer))
             (fst (middleware ToyApi.client 0 Toy.testLimiter))
             (IntegrityError HmacMismatch)
             ltac:(vm_compute; reflexivity) ltac:(vm_compute; reflexivity)
             ltac:(vm_compute; reflexivity) (surjective_pairing _)).
  - exact (proj1
             (@unlock_route_failure_response Toy.platform ToyApi.client 0
                "wrongpassword" Validators.JsUndefined Toy.env0
                ToyApi.newServer
                (fst (@Api.unlockRoute Toy.platform ToyApi.client 0
                        (Validators.JsString "wrongpassword")
                        Validators.JsUndefined Toy.env0 ToyApi.newServer))
                (snd (@Api.unlockRoute Toy.platform ToyApi.client 0
                        (Validators.JsString "wrongpassword")
                        Validators.JsUndefined Toy.env0 ToyApi.newServer))
                (fst (middleware ToyApi.client 0 Toy.testLimiter))
                NO_VAULT
                ltac:(vm_compute; reflexivity) ltac:(vm_compute; reflexivity)
                ltac:(vm_compute; reflexivity) (surjective_pairing _))).
Defined.

Lemma create_route_stores_checked_witness :
  exists e s',
    Api.body (snd (@Api.createRoute Toy.platform (Some "tok")
                     ToyApi.sampleBody Toy.env0 ToyApi.server))
    = Api.EntryBody' e
    /\ session (service (Api.world
                           (fst (@Api.createRoute Toy.platform (Some "tok")
                                   ToyApi.sampleBody Toy.env0 ToyApi.server))))
       = Some s'
    /\ entries (vault s') = [Toy.sampleEntry; e]
    /\ (String.length (site e) <= 200)%nat.
Proof.
  destruct (@create_route_stores_checked Toy.platform (Some "tok")
              ToyApi.sampleBody Toy.env0 ToyApi.server
              (fst (@Api.createRoute Toy.platform (Some "tok")
                      ToyApi.sampleBody Toy.env0 ToyApi.server))
              (snd (@Api.createRoute Toy.platform (Some "tok")
                      ToyApi.sampleBody Toy.env0 ToyApi.server)))
    as (e & s & s' & Hbody & Hs & _ & Hs' & Hentries & _ & _ & Hlen & _).
  - apply surjective_pairing.
  - vm_compute. reflexivity.
  - exists e, s'. split; [exact Hbody|]. split; [exact Hs'|].
    split; [|exact Hlen].
    rewrite Hentries. vm_compute in Hs. now injection Hs as <-.
Defined.

Lemma mutations_need_the_token_witness :
  fst (@Api.mutate Toy.platform (Some "stale") (Api.Delete "1") Toy.env0
         ToyApi.server) = ToyApi.server
  /\ (Api.statusCode
        (snd (@Api.mutate Toy.platform (Some "stale") (Api.Delete "1")
                Toy.env0 ToyApi.server)) = 400
      \/ Api.statusCode
           (snd (@Api.mutate Toy.platform (Some "stale") (Api.Delete "1")
                   Toy.env0 ToyApi.server)) = 401).
Proof.
  destruct (@mutations_need_the_token Toy.platform (Some "stale")
              (Api.Delete "1") Toy.env0 ToyApi.server
              (fst (@Api.mutate Toy.platform (Some "stale") (Api.Delete "1")
                      Toy.env0 ToyApi.server))
              (snd (@Api.mutate Toy.platform (Some "stale") (Api.Delete "1")
                      Toy.env0 ToyApi.server)))
    as [_ Hother]; [apply surjective_pairing|].
  apply Hother. intros s Hs. vm_compute in Hs. injection Hs as <-. discriminate.
Defined.

Lemma update_route_accepts_blank_witness :
  exists srv' e,
    @Api.updateRoute Toy.platform (Some "tok") "1" ToyApi.blankSite Toy.env0
      ToyApi.server
    = (srv', Api.respond 200 (Api.EntryBody' e))
    /\ site e = EmptyString.
Proof.
  destruct (@update_route_accepts_blank Toy.platform "tok" "1"
              ToyApi.blankSite Toy.env0 ToyApi.server Toy.sampleSession
              Toy.sampleEntry)
    as [(srv' & e & s' & Hu & _ & Hsite & _) _];
    try reflexivity; try (now left).
  - intros d. eexists. reflexivity.
  - exists srv', e. split; [exact Hu|exact Hsite].
Defined.
